(** * Image captioning pipeline: text cleaning, vocabulary, batch generator
      and greedy decoder of [build_model.py], embedded and verified.

    Python [str] values are modelled as lists of 8-bit code points
    ([list ascii], the Latin-1 range of [str]); the character classes
    below are Python's own on that range.  Exceptions are modelled by a
    result type, the global [np.random] state by explicit state passing,
    and the two [while 1] loops by fuel. *)

From Stdlib Require Import String Ascii.
From Stdlib Require Import List Arith ZArith Lia Bool Permutation Sorted.
Import ListNotations.
Local Open Scope list_scope.

Set Implicit Arguments.

(** ** Exceptions *)

Inductive exn : Type :=
| IndexError
| KeyError
| ValueError
| ZeroDivisionError.

Inductive result (A : Type) : Type :=
| Ok (a : A)
| Raise (e : exn).

Arguments Ok {A} a.
Arguments Raise {A} e.

Definition bind {A B : Type} (m : result A) (k : A -> result B) : result B :=
  match m with
  | Ok a => k a
  | Raise e => Raise e
  end.

Notation "x <- m ;; k" := (bind m (fun x => k))
  (at level 61, m at next level, right associativity).

Definition of_option {A : Type} (e : exn) (o : option A) : result A :=
  match o with
  | Some a => Ok a
  | None => Raise e
  end.

(** ** Python strings *)

Module PyStr.

Definition str : Type := list ascii.

Definition py (s : string) : str := list_ascii_of_string s.

Definition code (c : ascii) : nat := nat_of_ascii c.

Definition between (lo hi n : nat) : bool := (lo <=? n) && (n <=? hi).

(** [str.isspace] on one code point. *)
Definition isspace (c : ascii) : bool :=
  let n := code c in
  between 9 13 n || between 28 32 n || (n =? 133) || (n =? 160).

(** [str.isalpha] on one code point. *)
Definition isalpha_char (c : ascii) : bool :=
  let n := code c in
  between 65 90 n || between 97 122 n
  || (n =? 170) || (n =? 181) || (n =? 186)
  || between 192 214 n || between 216 246 n || between 248 255 n.

(** [str.lower] on one code point. *)
Definition lower_char (c : ascii) : ascii :=
  let n := code c in
  if between 65 90 n || between 192 214 n || between 216 222 n
  then ascii_of_nat (n + 32)
  else c.

(** Membership in [string.punctuation]. *)
Definition is_punctuation (c : ascii) : bool :=
  let n := code c in
  between 33 47 n || between 58 64 n || between 91 96 n || between 123 126 n.

Definition space : ascii := " "%char.

(** [t.lower()] *)
Definition lower (t : str) : str := map lower_char t.

(** [t.isalpha()]: every character alphabetic and at least one character. *)
Definition isalpha (t : str) : bool :=
  match t with
  | [] => false
  | _ => forallb isalpha_char t
  end.

(** [t.translate(str.maketrans('', '', string.punctuation))] *)
Definition translate (t : str) : str :=
  filter (fun c => negb (is_punctuation c)) t.

(** Whether a word ending just before [s] stops there. *)
Definition word_ends (s : str) : bool :=
  match s with
  | [] => true
  | c :: _ => isspace c
  end.

(** [s.split()]: maximal runs of non-whitespace characters. *)
Fixpoint split (s : str) : list str :=
  match s with
  | [] => []
  | c :: s' =>
      if isspace c then split s'
      else if word_ends s' then [c] :: split s'
      else match split s' with
           | w :: ws => (c :: w) :: ws
           | [] => [[c]]
           end
  end.

(** [s.split(sep)] for a one-character separator: empty pieces are kept. *)
Fixpoint split_sep (sep : ascii) (s : str) : list str :=
  match s with
  | [] => [[]]
  | c :: s' =>
      if Ascii.eqb c sep then [] :: split_sep sep s'
      else match split_sep sep s' with
           | w :: ws => (c :: w) :: ws
           | [] => [[c]]
           end
  end.

(** [' '.join(ts)] *)
Fixpoint join (ts : list str) : str :=
  match ts with
  | [] => []
  | [t] => t
  | t :: ts' => t ++ space :: join ts'
  end.

Fixpoint starts_with (p s : str) : bool :=
  match p, s with
  | [], _ => true
  | a :: p', b :: s' => Ascii.eqb a b && starts_with p' s'
  | _ :: _, [] => false
  end.

Definition str_eqb (a b : str) : bool :=
  if list_eq_dec ascii_dec a b then true else false.

(** [s.replace(old, new)] for a non-empty [old]: the occurrences are found
    from the left and do not overlap.  [fuel] bounds the scan; [length s]
    is enough, see [replace]. *)
Fixpoint replace_scan (fuel : nat) (old new s : str) : str :=
  match fuel with
  | 0 => s
  | S fuel' =>
      match s with
      | [] => []
      | c :: s' =>
          if starts_with old s
          then new ++ replace_scan fuel' old new (skipn (length old) s)
          else c :: replace_scan fuel' old new s'
      end
  end.

(** [s.replace(old, new)]; with an empty [old] Python puts [new] before every
    character and at the end. *)
Definition replace (old new s : str) : str :=
  match old with
  | [] => new ++ flat_map (fun c => c :: new) s
  | _ => replace_scan (length s) old new s
  end.

(** [len(s.split())], computed by a scan: [inword] tells whether the
    previous character belongs to a word. *)
Fixpoint ntok (inword : bool) (s : str) : nat :=
  match s with
  | [] => 0
  | c :: s' =>
      if isspace c then ntok false s'
      else (if inword then 0 else 1) + ntok true s'
  end.

(** A token: non-empty and free of whitespace, what [split] returns. *)
Definition is_token (t : str) : bool :=
  match t with
  | [] => false
  | _ => forallb (fun c => negb (isspace c)) t
  end.

End PyStr.

Import PyStr.

(** ** Dictionaries

    A Python [dict] keeps its keys in insertion order and has no key twice:
    an association list, with [NoDup] of the keys stated where it matters. *)

Definition dict (V : Type) : Type := list (str * V).

Fixpoint assoc {K V : Type} (eqb : K -> K -> bool) (k : K) (d : list (K * V))
  : option V :=
  match d with
  | [] => None
  | (k', v) :: d' => if eqb k k' then Some v else assoc eqb k d'
  end.

(** [d.get(k)] on string keys; [d[k]] is [of_option KeyError (lookup k d)]. *)
Definition lookup {V : Type} (k : str) (d : dict V) : option V :=
  assoc str_eqb k d.

(** [list(d.keys())] *)
Definition keys {V : Type} (d : dict V) : list str := map fst d.

(** ** 2. Text data pre-processing: [cleaning] *)

(** The body of the inner [for] of [cleaning], for one caption: the value
    of [tmp] after the four comprehensions, then the [join]. *)
Definition clean_tokens (caption : str) : list str :=
  let tmp := split caption in
  let tmp := map lower tmp in
  let tmp := map translate tmp in
  let tmp := filter (fun t => 1 <? length t) tmp in
  let tmp := filter isalpha tmp in
  tmp.

Definition clean_caption (caption : str) : str :=
  join (clean_tokens caption).

(** What the four comprehensions leave: lowercase, nothing for the
    translation table to delete, more than one character, alphabetic. *)
Definition cleaned_token (t : str) : Prop :=
  lower t = t /\ translate t = t /\ 1 < length t /\ isalpha t = true.

(** [l[i] = v] for [i] in range. *)
Fixpoint set_item {A : Type} (l : list A) (i : nat) (v : A) : list A :=
  match l, i with
  | [], _ => []
  | _ :: l', 0 => v :: l'
  | x :: l', S i' => x :: set_item l' i' v
  end.

(** [for i in range(len(caption_list)): caption_list[i] = ...], the list
    being updated in place. *)
Definition clean_caption_list (caption_list : list str) : list str :=
  fold_left
    (fun cl i =>
       match nth_error cl i with
       | Some caption => set_item cl i (clean_caption caption)
       | None => cl
       end)
    (seq 0 (length caption_list)) caption_list.

(** [cleaning(caption_dict)] returns [None]; its effect is the state of the
    dictionary afterwards.  Every key owns its own list
    ([caption_dictionary] creates one per key). *)
Definition cleaning (caption_dict : dict (list str)) : dict (list str) :=
  map (fun entry => (fst entry, clean_caption_list (snd entry))) caption_dict.

(** [caption_to_list(caption_dict)] *)
Definition caption_to_list (caption_dict : dict (list str)) : list str :=
  flat_map (fun entry => snd entry) caption_dict.

(** ** Keras [Tokenizer], [pad_sequences], [to_categorical]

    The library calls of the source, with the arguments the source gives
    them: default [filters], [lower=True], [split=' '], no [oov_token];
    [padding='pre'], default [truncating='pre'] and [value=0]. *)

Module Keras.

(** Membership in the default [filters] of [Tokenizer]: punctuation
    without the apostrophe, tab and newline. *)
Definition is_filtered (c : ascii) : bool :=
  let n := code c in
  (n =? 9) || (n =? 10)
  || between 33 38 n || between 40 47 n || between 58 64 n
  || between 91 96 n || between 123 126 n.

(** [text_to_word_sequence(text)] *)
Definition text_to_word_sequence (text : str) : list str :=
  let text := lower text in
  let text := map (fun c => if is_filtered c then space else c) text in
  let seq := split_sep space text in
  filter (fun i => negb (length i =? 0)) seq.

Record Tokenizer : Type := {
  num_words : option nat;
  word_counts : list (str * nat);
  word_index : list (str * nat);
  index_word : list (nat * str)
}.

(** [word_counts[w] += 1], or [= 1] for a new word, which goes last. *)
Fixpoint count_word (w : str) (wc : list (str * nat)) : list (str * nat) :=
  match wc with
  | [] => [(w, 1)]
  | (w', c) :: wc' =>
      if str_eqb w w' then (w', S c) :: wc' else (w', c) :: count_word w wc'
  end.

(** The counting loop of [fit_on_texts]. *)
Definition count_texts (texts : list str) : list (str * nat) :=
  fold_left
    (fun wc text => fold_left (fun wc w => count_word w wc)
                              (text_to_word_sequence text) wc)
    texts [].

Fixpoint insert_desc (x : str * nat) (l : list (str * nat))
  : list (str * nat) :=
  match l with
  | [] => [x]
  | y :: l' => if snd y <=? snd x then x :: y :: l' else y :: insert_desc x l'
  end.

(** [wcounts.sort(key=lambda x: x[1], reverse=True)]: stable. *)
Definition sort_desc (wcounts : list (str * nat)) : list (str * nat) :=
  fold_right insert_desc [] wcounts.

(** [Tokenizer(num_words=num_vocab)] followed by [fit_on_texts(texts)]. *)
Definition fit_on_texts (num_vocab : option nat) (texts : list str)
  : Tokenizer :=
  let wcounts := count_texts texts in
  let sorted_voc := map fst (sort_desc wcounts) in
  let index := combine sorted_voc (seq 1 (length sorted_voc)) in
  {| num_words := num_vocab;
     word_counts := wcounts;
     word_index := index;
     index_word := map (fun wc => (snd wc, fst wc)) index |}.

(** [if num_words and i >= num_words] *)
Definition beyond_num_words (t : Tokenizer) (i : nat) : bool :=
  match num_words t with
  | Some n => negb (n =? 0) && (n <=? i)
  | None => false
  end.

(** [tokenizer.texts_to_sequences([text])[0]]: the loop appending to
    [vect]; a word without index, or with an index beyond [num_words], is
    skipped. *)
Definition texts_to_sequences (t : Tokenizer) (text : str) : list nat :=
  fold_left
    (fun vect w =>
       match assoc str_eqb w (word_index t) with
       | Some i => if beyond_num_words t i then vect else vect ++ [i]
       | None => vect
       end)
    (text_to_word_sequence text) [].

(** [s[-n:]] *)
Definition last_items {A : Type} (n : nat) (s : list A) : list A :=
  if n =? 0 then s else skipn (length s - n) s.

(** [pad_sequences([s], maxlen=maxlen, padding='pre')[0]]: an empty [s]
    leaves the row of zeros; otherwise [trunc = s[-maxlen:]] is written into
    [x[-len(trunc):]].  With [maxlen = 0] the slice [s[-0:]] is all of [s]
    and the target slice is empty: numpy broadcasts one value into it and
    rejects more. *)
Definition pad_sequences (maxlen : nat) (s : list nat) : result (list nat) :=
  match s with
  | [] => Ok (repeat 0 maxlen)
  | _ =>
      let trunc := last_items maxlen s in
      if length trunc <=? maxlen
      then Ok (repeat 0 (maxlen - length trunc) ++ trunc)
      else if length trunc =? 1 then Ok (repeat 0 maxlen)
      else Raise ValueError
  end.

Definition one_hot (num_classes y : nat) : list nat :=
  map (fun j => if j =? y then 1 else 0) (seq 0 num_classes).

(** [to_categorical(y, num_classes=num_classes)]: a zero [num_classes]
    counts as absent and is replaced by [max(y) + 1]. *)
Definition to_categorical (y : list nat) (num_classes : nat)
  : result (list (list nat)) :=
  n <- (if num_classes =? 0
        then match y with
             | [] => Raise ValueError
             | _ => Ok (S (list_max y))
             end
        else Ok num_classes) ;;
  if forallb (fun v => v <? n) y
  then Ok (map (one_hot n) y)
  else Raise IndexError.

End Keras.

Import Keras.

(** [create_tokenizer(caption_dict, num_vocab)] *)
Definition create_tokenizer (caption_dict : dict (list str))
  (num_vocab : option nat) : Tokenizer :=
  let captions := caption_to_list caption_dict in
  fit_on_texts num_vocab captions.

(** The vocabulary part of the main script: the words counted at least
    [min_freq] times, [vocab_size], and the tokenizer made again with
    [num_vocab=vocab_size]. *)
Definition frequent_words (tokenizer : Tokenizer) (min_freq : nat)
  : list str :=
  fold_left
    (fun words wc => if min_freq <=? snd wc then words ++ [fst wc] else words)
    (word_counts tokenizer) [].

Definition build_vocabulary (caption_dict : dict (list str)) (min_freq : nat)
  : list str * nat * Tokenizer :=
  let tokenizer := create_tokenizer caption_dict None in
  let words := frequent_words tokenizer min_freq in
  let vocab_size := length words + 1 in
  let tokenizer := create_tokenizer caption_dict (Some vocab_size) in
  (words, vocab_size, tokenizer).

(** The last [n] items of [l], all of [l] when it has fewer. *)
Definition keep_last {A : Type} (n : nat) (l : list A) : list A :=
  skipn (length l - n) l.

(** A word the tokenizer encodes: it has an index, and the index is below
    [num_words] when that is set. *)
Definition in_vocabulary (t : Tokenizer) (w : str) : bool :=
  match assoc str_eqb w (word_index t) with
  | Some i => negb (beyond_num_words t i)
  | None => false
  end.

Definition word_id (t : Tokenizer) (w : str) : nat :=
  match assoc str_eqb w (word_index t) with
  | Some i => i
  | None => 0
  end.

(** Every word the tokenizer can give back is one word for [split]: not
    empty, no whitespace in it. *)
Definition single_word_vocabulary (t : Tokenizer) : Prop :=
  Forall (fun iw => is_token (snd iw) = true) (index_word t).

(** ** Loops that may not return *)

Inductive outcome (A : Type) : Type :=
| Returned (a : A)
| Raised (e : exn)
| OutOfFuel.

Arguments Returned {A} a.
Arguments Raised {A} e.
Arguments OutOfFuel {A}.

(** ** 4. Progressive model training: [generate_dataset] *)

Section BatchGenerator.

(** State of [np.random], and one row of a feature array. *)
Variables R Row : Type.

(** [np.random.choice(np.arange(n), size=n, replace=False)] *)
Variable choice_perm : nat -> R -> list nat * R.

(** [np.random.choice(np.arange(n), size=1, replace=True)[0]], [n > 0] *)
Variable choice_one : nat -> R -> nat * R.

Variable caption_dict : dict (list str).
Variable features : dict (list Row).
Variable tokenizer : Tokenizer.
Variables max_length vocab_size num_photos : nat.

(** One training example.  The source appends to the three lists [X_img],
    [X_text] and [Y] together and empties them together: one list of
    examples here, the arrays of a batch being its projections.
    [ex_photo] is a ghost field, the [photo_id] the example was made
    from. *)
Record example : Type := {
  ex_photo : str;
  ex_img : Row;
  ex_text : list nat;
  ex_Y : list (list nat)
}.

Definition batch : Type := list example.

Definition batch_X_img (b : batch) : list Row := map ex_img b.
Definition batch_X_text (b : batch) : list (list nat) := map ex_text b.
Definition batch_Y (b : batch) : list (list (list nat)) := map ex_Y b.
Definition batch_photos (b : batch) : list str := map ex_photo b.

Definition photo_ids : list str := keys caption_dict.

(** [tmp_text, tmp_Y = encoded[:-1], encoded[1:]] and the two
    [pad_sequences] calls. *)
Definition shift_and_pad (encoded : list nat)
  : result (list nat * list nat) :=
  let tmp_text := removelast encoded in
  let tmp_Y := tl encoded in
  padded_text <- pad_sequences max_length tmp_text ;;
  padded_Y <- pad_sequences max_length tmp_Y ;;
  Ok (padded_text, padded_Y).

(** From [encoded = ...] to the three [append]s. *)
Definition make_example (photo_id caption : str) : result example :=
  let encoded := texts_to_sequences tokenizer caption in
  padded <- shift_and_pad encoded ;;
  padded_Y <- to_categorical (snd padded) vocab_size ;;
  feature <- of_option KeyError (lookup photo_id features) ;;
  row <- of_option IndexError (nth_error feature 0) ;;
  Ok {| ex_photo := photo_id; ex_img := row;
        ex_text := fst padded; ex_Y := padded_Y |}.

(** What an example is to its caption: rows of length [max_length], the
    last [max_length] items of [max_length] zeros followed by the encoding
    without its last id (input) and without its first id (target, before
    [to_categorical]). *)
Definition shifted_and_padded (ex : example) : Prop :=
  exists caption_list caption padded_Y,
    let encoded := texts_to_sequences tokenizer caption in
    lookup (ex_photo ex) caption_dict = Some caption_list
    /\ In caption caption_list
    /\ to_categorical padded_Y vocab_size = Ok (ex_Y ex)
    /\ length (ex_text ex) = max_length
    /\ length padded_Y = max_length
    /\ ex_text ex
       = keep_last max_length (repeat 0 max_length ++ removelast encoded)
    /\ padded_Y = keep_last max_length (repeat 0 max_length ++ tl encoded)
    /\ (length encoded <= S max_length ->
        ex_text ex
        = repeat 0 (max_length - length (removelast encoded))
          ++ removelast encoded
        /\ padded_Y
           = repeat 0 (max_length - length (tl encoded)) ++ tl encoded)
    /\ (S max_length <= length encoded ->
        ex_text ex = keep_last max_length (removelast encoded)
        /\ padded_Y = keep_last max_length (tl encoded)).

(** The inner loop body up to the [append]s. *)
Definition visit (s : list nat) (r : R) (count : nat)
  : result (example * R) :=
  s1 <- of_option IndexError (nth_error s count) ;;
  photo_id <- of_option IndexError (nth_error photo_ids s1) ;;
  caption_list <- of_option KeyError (lookup photo_id caption_dict) ;;
  if length caption_list =? 0 then Raise ValueError
  else
    let drawn := choice_one (length caption_list) r in
    caption <- of_option IndexError (nth_error caption_list (fst drawn)) ;;
    ex <- make_example photo_id caption ;;
    Ok (ex, snd drawn).

(** The inner [while 1]: the batches it yields, in order, and how it
    ends ([Returned r] is the [break], with the state of the random
    generator).  [acc] is the content of [X_img], [X_text], [Y]. *)
Fixpoint inner_loop (fuel : nat) (s : list nat) (r : R) (count : nat)
  (acc : batch) : list batch * outcome R :=
  match fuel with
  | 0 => ([], OutOfFuel)
  | S fuel' =>
      match visit s r count with
      | Raise e => ([], Raised e)
      | Ok (ex, r') =>
          let acc := acc ++ [ex] in
          let count := count + 1 in
          if num_photos =? 0 then ([], Raised ZeroDivisionError)
          else
            let full := count mod num_photos =? 0 in
            let yielded := if full then [acc] else [] in
            let acc := if full then [] else acc in
            if length photo_ids <=? count
            then (yielded ++ (if 0 <? length acc then [acc] else []),
                  Returned r')
            else
              let rest := inner_loop fuel' s r' count acc in
              (yielded ++ fst rest, snd rest)
      end
  end.

(** One pass of the outer [while 1]: the draw of [s], then the inner
    loop. *)
Definition run_epoch (fuel : nat) (r : R) : list batch * outcome R :=
  let drawn := choice_perm (length photo_ids) r in
  inner_loop fuel (fst drawn) (snd drawn) 0 [].

(** The generator, observed for [k] passes of the outer loop (it has no
    exit of its own): the batches of each pass, and [Returned r] when all
    [k] passes reached their [break]. *)
Fixpoint generate_dataset (fuel k : nat) (r : R)
  : list (list batch) * outcome R :=
  match k with
  | 0 => ([], Returned r)
  | S k' =>
      match run_epoch fuel r with
      | (bs, Returned r') =>
          let rest := generate_dataset fuel k' r' in
          (bs :: fst rest, snd rest)
      | (bs, stop) => ([bs], stop)
      end
  end.

(** State of the random generator when pass [j] starts. *)
Fixpoint rng_at (fuel j : nat) (r : R) : R :=
  match j with
  | 0 => r
  | S j' =>
      match snd (run_epoch fuel r) with
      | Returned r' => rng_at fuel j' r'
      | _ => r
      end
  end.

(** Example [ex] is what the loop makes at position [i] of the index
    sequence [s]: from the photo [photo_ids[s[i]]] and one of its
    captions. *)
Definition made_at (s : list nat) (i : nat) (ex : example) : Prop :=
  exists s1 caption_list caption,
    nth_error s i = Some s1
    /\ nth_error photo_ids s1 = Some (ex_photo ex)
    /\ lookup (ex_photo ex) caption_dict = Some caption_list
    /\ In caption caption_list
    /\ make_example (ex_photo ex) caption = Ok ex.

End BatchGenerator.

(** ** 5. Model evaluation: [sample_caption] *)

Section Decoder.

(** A row of a feature array, and a probability with its strict order. *)
Variables Row Prob : Type.
Variable gtb : Prob -> Prob -> bool.

(** [model.predict([feature, padded])[0]]: one distribution per
    timestep. *)
Variable predict : list Row -> list nat -> list (list Prob).

Variable tokenizer : Tokenizer.
Variable max_length : nat.
Variable feature : list Row.

Fixpoint argmax_from (best_i : nat) (best : Prob) (i : nat)
  (l : list Prob) : nat :=
  match l with
  | [] => best_i
  | x :: l' =>
      if gtb x best then argmax_from i x (S i) l'
      else argmax_from best_i best (S i) l'
  end.

(** [a.argmax()]: the first index of a largest entry. *)
Definition argmax (l : list Prob) : result nat :=
  match l with
  | [] => Raise ValueError
  | x :: l' => Ok (argmax_from 0 x 1 l')
  end.

(** From [encoded = ...] to [next_word = ...]. *)
Definition next_word_of (caption : str) : result str :=
  let encoded := texts_to_sequences tokenizer caption in
  padded <- pad_sequences max_length encoded ;;
  pred_Y <- of_option IndexError
              (nth_error (rev (predict feature padded)) 0) ;;
  i <- argmax pred_Y ;;
  of_option KeyError (assoc Nat.eqb i (index_word tokenizer)).

Definition startseq : str := py "startseq".
Definition endseq : str := py "endseq".

(** The [while 1] of [sample_caption].  [picked] is ghost: the values
    [next_word] took, in order. *)
Fixpoint decode_loop (fuel : nat) (caption : str) (picked : list str)
  : outcome (str * list str) :=
  match fuel with
  | 0 => OutOfFuel
  | S fuel' =>
      match next_word_of caption with
      | Raise e => Raised e
      | Ok next_word =>
          let caption := caption ++ space :: next_word in
          let picked := picked ++ [next_word] in
          if str_eqb next_word endseq
             || (max_length <=? length (split caption))
          then Returned (caption, picked)
          else decode_loop fuel' caption picked
      end
  end.

(** The two [replace] calls after the loop. *)
Definition strip_sentinels (caption : str) : str :=
  let caption := replace (py "startseq ") [] caption in
  replace (py " endseq") [] caption.

Definition sample_caption (fuel : nat) : outcome str :=
  match decode_loop fuel startseq [] with
  | Returned (caption, _) => Returned (strip_sentinels caption)
  | Raised e => Raised e
  | OutOfFuel => OutOfFuel
  end.

End Decoder.

(** ** 2. Text data pre-processing: [caption_dictionary]; the loaders *)

Definition newline : ascii := ascii_of_nat 10.
Definition tab : ascii := ascii_of_nat 9.
Definition dot : ascii := "."%char.

(** [s.split(sep)[0]]: [split] with a separator returns at least one
    piece, so the index is always in range. *)
Definition first_piece (sep : ascii) (s : str) : str :=
  match split_sep sep s with
  | piece :: _ => piece
  | [] => []
  end.

(** [if photo_id not in captions.keys(): captions[photo_id] = []], then
    [captions[photo_id].append(caption)]: a new key goes last. *)
Fixpoint append_caption (photo_id caption : str) (captions : dict (list str))
  : dict (list str) :=
  match captions with
  | [] => [(photo_id, [caption])]
  | (k, caption_list) :: captions' =>
      if str_eqb photo_id k then (k, caption_list ++ [caption]) :: captions'
      else (k, caption_list) :: append_caption photo_id caption captions'
  end.

(** The body of the loop of [caption_dictionary], for one line. *)
Definition caption_line (captions : dict (list str)) (line : str)
  : result (dict (list str)) :=
  if length line <? 1 then Ok captions
  else
    let tmp := split line in
    first <- of_option IndexError (nth_error tmp 0) ;;
    let photo_id := first_piece dot first in
    let caption := join (tl tmp) in
    Ok (append_caption photo_id caption captions).

(** The [for] loop of [caption_dictionary] over the lines; an exception
    ends it. *)
Definition lines_loop (lines : list str) (state : result (dict (list str)))
  : result (dict (list str)) :=
  fold_left
    (fun state line => captions <- state ;; caption_line captions line)
    lines state.

(** [caption_dictionary(raw_caption)] *)
Definition caption_dictionary (raw_caption : str) : result (dict (list str)) :=
  lines_loop (split_sep newline raw_caption) (Ok []).

(** What a line contributes, read off the loop body: nothing when it is
    empty or has no word, else its key and its caption. *)
Definition line_entry (line : str) : option (str * str) :=
  match split line with
  | [] => None
  | first :: words => Some (first_piece dot first, join words)
  end.

(** The captions the lines give for key [k], in the order of the lines. *)
Definition captions_of (k : str) (lines : list str) : list str :=
  flat_map
    (fun line =>
       match line_entry line with
       | Some (photo_id, caption) =>
           if str_eqb k photo_id then [caption] else []
       | None => []
       end)
    lines.

(** [dataset(filename)], on the text read from the file. *)
Definition dataset (text : str) : list str :=
  fold_left
    (fun ids line =>
       if length line <? 1 then ids else ids ++ [first_piece dot line])
    (split_sep newline text) [].

(** [d[k] = v]: the value is replaced where the key is, a new key goes
    last. *)
Fixpoint dict_set {V : Type} (k : str) (v : V) (d : dict V) : dict V :=
  match d with
  | [] => [(k, v)]
  | (k', v') :: d' =>
      if str_eqb k k' then (k', v) :: d' else (k', v') :: dict_set k v d'
  end.

(** The loop of the comprehension
    [{photo_id: stored[photo_id] for photo_id in dataset}]; an exception
    ends it. *)
Definition select_loop {V : Type} (stored : dict V) (ids : list str)
  (state : result (dict V)) : result (dict V) :=
  fold_left
    (fun state photo_id =>
       d <- state ;;
       v <- of_option KeyError (lookup photo_id stored) ;;
       Ok (dict_set photo_id v d))
    ids state.

Definition select {V : Type} (stored : dict V) (ids : list str)
  : result (dict V) :=
  select_loop stored ids (Ok []).

(** [load_features(dataset)], [stored] being the content of
    [features.pkl]. *)
Definition load_features {Row : Type} (stored : dict (list Row))
  (ids : list str) : result (dict (list Row)) :=
  select stored ids.

(** ['startseq ' + ' '.join(tmp) + ' endseq'] with [tmp] the split
    caption. *)
Definition wrap_caption (caption : str) : str :=
  let tmp := split caption in
  py "startseq " ++ join tmp ++ py " endseq".

(** The inner [for] of the wrapping, the list being updated in place. *)
Definition wrap_caption_list (caption_list : list str) : list str :=
  fold_left
    (fun cl i =>
       match nth_error cl i with
       | Some caption => set_item cl i (wrap_caption caption)
       | None => cl
       end)
    (seq 0 (length caption_list)) caption_list.

(** [load_captions(dataset, wrapping)], [stored] being the content of
    [captions.pkl], whose lists are distinct objects, one per key, as
    [caption_dictionary] makes them: each list is wrapped once. *)
Definition load_captions (stored : dict (list str)) (ids : list str)
  (wrapping : bool) : result (dict (list str)) :=
  caption_dict <- select stored ids ;;
  Ok (if wrapping
      then map (fun entry => (fst entry, wrap_caption_list (snd entry)))
               caption_dict
      else caption_dict).

(** [max([len(c.split()) for c in caption_to_list(d)]) - 1] of the main
    script, a Python integer; [max] of an empty list raises. *)
Definition script_max_length (caption_dict : dict (list str)) : result Z :=
  match caption_to_list caption_dict with
  | [] => Raise ValueError
  | captions =>
      Ok (Z.of_nat (list_max (map (fun c => length (split c)) captions)) - 1)%Z
  end.

(** [s.endswith(suffix)] *)
Definition ends_with (suffix s : str) : bool :=
  (length suffix <=? length s)
  && str_eqb (skipn (length s - length suffix) s) suffix.

(** What the loop of [sample_caption] appends for the words [ws]: each
    word behind one space. *)
Definition spaced (ws : list str) : str :=
  flat_map (fun w => space :: w) ws.

(** The picked words without the [endseq] the loop may have ended on. *)
Definition caption_words (picked : list str) : list str :=
  if str_eqb (last picked []) endseq then removelast picked else picked.

(** The words [fit_on_texts] sees, caption after caption, and how often
    it sees [w]. *)
Definition corpus_words (caption_dict : dict (list str)) : list str :=
  flat_map text_to_word_sequence (caption_to_list caption_dict).

Definition occurrences (w : str) (ws : list str) : nat :=
  length (filter (str_eqb w) ws).

(** [word_counts.get(w, 0)] *)
Definition count_of (w : str) (wc : list (str * nat)) : nat :=
  match assoc str_eqb w wc with
  | Some c => c
  | None => 0
  end.

(** What the two nested loops of [fit_on_texts] keep, [seen] being the
    words counted so far. *)
Definition counts_ok (seen : list str) (wc : list (str * nat)) : Prop :=
  NoDup (map fst wc)
  /\ Forall (fun e => 1 <= snd e) wc
  /\ forall k, count_of k wc = occurrences k seen.

(** Strings made of letters and spaces only, as the cleaned and wrapped
    captions are. *)
Definition letters_and_spaces (s : str) : Prop :=
  Forall (fun c => c = space \/ isalpha_char c = true) s.

(** ** A small dataset

    Five photos with one wrapped caption each; [fast] occurs once and falls
    below the frequency threshold of the main script.  A feature row is
    stood for by a number.  The random generator is a counter: it draws the
    identity permutation on even states and its reverse on odd ones, and
    a pass leaves it on the other parity. *)

Module Scenario.

Definition captions : dict (list str) :=
  [ (py "p1", [py "startseq dog runs endseq"]);
    (py "p2", [py "startseq dog runs fast endseq"]);
    (py "p3", [py "startseq dog sits endseq"]);
    (py "p4", [py "startseq cat sits endseq"]);
    (py "p5", [py "startseq cat runs endseq"]) ].

Definition features : dict (list nat) :=
  [ (py "p1", [1]); (py "p2", [2]); (py "p3", [3]);
    (py "p4", [4]); (py "p5", [5]) ].

Definition min_freq : nat := 2.

Definition vocab_size : nat := snd (fst (build_vocabulary captions min_freq)).

Definition tokenizer : Tokenizer := snd (build_vocabulary captions min_freq).

(** [max([len(c.split()) for c in caption_to_list(...)]) - 1] *)
Definition max_length : nat :=
  list_max (map (fun c => length (split c)) (caption_to_list captions)) - 1.

Definition choice_perm (n : nat) (r : nat) : list nat * nat :=
  (if Nat.even r then seq 0 n else rev (seq 0 n), S r).

Definition choice_one (n : nat) (r : nat) : nat * nat :=
  (r mod n, r + 2).

(** The generator on this dataset, two photos per batch. *)
Definition generator (max_length fuel k : nat)
  : list (list (batch nat)) * outcome nat :=
  generate_dataset choice_perm choice_one captions features tokenizer
    max_length vocab_size 2 fuel k 0.

(** A validation set, as the main script gives one to a second generator
    with the tokenizer and [max_length] of the training set: its caption is
    longer than every training caption. *)
Definition dev_captions : dict (list str) :=
  [ (py "d1", [py "startseq dog runs cat sits endseq"]) ].

Definition dev_features : dict (list nat) := [ (py "d1", [6]) ].

Definition dev_generator (fuel k : nat)
  : list (list (batch nat)) * outcome nat :=
  generate_dataset choice_perm choice_one dev_captions dev_features tokenizer
    max_length vocab_size 2 fuel k 0.

(** The two captions of the vocabulary scenario. *)
Definition two_captions : dict (list str) :=
  [ (py "p1", [py "a dog runs"; py "a dog runs fast"]) ].

(** A model that puts all the probability on token id [i], at every
    timestep; probabilities are numbers, compared by [<]. *)
Definition certain (i : nat) (feature : list nat) (padded : list nat)
  : list (list nat) :=
  map (fun _ => one_hot vocab_size i) padded.

Definition greater (a b : nat) : bool := b <? a.

(** The decoder with that model, on the features of [p1]. *)
Definition decoder (i max_length fuel : nat) : outcome str :=
  sample_caption greater (certain i) tokenizer max_length [1] fuel.

(** A vocabulary with a word that is whitespace for [str.split]: the
    tokenizer splits on the space only, so a carriage return between two
    spaces is a word, here the most frequent one (id 1). *)
Definition cr : ascii := ascii_of_nat 13.

Definition cr_captions : dict (list str) :=
  [ (py "p1", [py "startseq " ++ [cr; space; cr; space] ++ py "endseq"]) ].

Definition cr_tokenizer : Tokenizer := create_tokenizer cr_captions None.

End Scenario.

(** ** A small caption file

    Three caption lines for two images and an empty line, as in
    [Flickr8k.token.txt]; the list of the training images; a feature table
    for them. *)

Module Pipeline.

Definition raw_caption : str :=
  py "a.jpg#0" ++ tab :: py "A dog runs ." ++ newline
  :: py "b.jpg#0" ++ tab :: py "Two cats sit" ++ newline
  :: newline
  :: py "a.jpg#1" ++ tab :: py "The dog , fast" ++ [newline].

Definition train_text : str :=
  py "b.jpg" ++ newline :: py "a.jpg" ++ [newline].

Definition stored_features : dict (list nat) :=
  [ (py "a", [1]); (py "b", [2]); (py "c", [3]) ].

(** The content of [captions.pkl]: the dictionary of the caption file
    after [cleaning]. *)
Definition stored_captions : dict (list str) :=
  match caption_dictionary raw_caption with
  | Ok d => cleaning d
  | Raise _ => []
  end.

(** What the main script loads and computes for the training set, with
    [min_freq = 1]. *)
Definition train_ids : list str := dataset train_text.

Definition train_captions : dict (list str) :=
  match load_captions stored_captions train_ids true with
  | Ok d => d
  | Raise _ => []
  end.

Definition train_features : dict (list nat) :=
  match load_features stored_features train_ids with
  | Ok d => d
  | Raise _ => []
  end.

Definition vocab_size : nat := snd (fst (build_vocabulary train_captions 1)).

Definition tokenizer : Tokenizer := snd (build_vocabulary train_captions 1).

End Pipeline.

(** * Facts about the string operations *)

Module PyStrFacts.

Ltac all_chars c :=
  destruct c as [[] [] [] [] [] [] [] []]; vm_compute; try reflexivity;
  try discriminate.

Lemma lower_char_idem (c : ascii) : lower_char (lower_char c) = lower_char c.
Proof. all_chars c. Qed.

Lemma alpha_not_punctuation (c : ascii) :
  isalpha_char c = true -> is_punctuation c = false.
Proof. all_chars c. Qed.

Lemma alpha_not_space (c : ascii) : isalpha_char c = true -> isspace c = false.
Proof. all_chars c. Qed.

Lemma isspace_space : isspace space = true.
Proof. reflexivity. Qed.

Lemma forallb_filter (A : Type) (f : A -> bool) (l : list A) :
  forallb f l = true -> filter f l = l.
Proof.
  induction l as [|x l IH]; simpl; intro H; [reflexivity|].
  apply andb_true_iff in H as [Hx Hl].
  rewrite Hx, (IH Hl); reflexivity.
Qed.

Lemma is_token_cons (c : ascii) (t : str) :
  is_token (c :: t) = negb (isspace c) && forallb (fun x => negb (isspace x)) t.
Proof. reflexivity. Qed.

Lemma is_token_nonempty (t : str) : is_token t = true -> t <> [].
Proof. destruct t; simpl; congruence. Qed.

Lemma is_token_forall (t : str) :
  is_token t = true -> forallb (fun x => negb (isspace x)) t = true.
Proof. destruct t; simpl; [discriminate | auto]. Qed.

(** *** Counting words *)

Lemma ntok_true_le (s : str) : ntok true s <= ntok false s.
Proof. destruct s as [|c s]; simpl; [lia|]. destruct (isspace c); lia. Qed.

Lemma ntok_false_le (s : str) : ntok false s <= S (ntok true s).
Proof. destruct s as [|c s]; simpl; [lia|]. destruct (isspace c); lia. Qed.

Lemma ntok_any_le (b : bool) (s : str) : ntok b s <= ntok false s.
Proof. destruct b; [apply ntok_true_le | lia]. Qed.

Lemma ntok_continue (s : str) :
  ntok false s = ntok true s + (if word_ends s then 0 else 1).
Proof. destruct s as [|c s]; simpl; [lia|]. destruct (isspace c); lia. Qed.

Lemma ntok_app_space (b : bool) (a s : str) :
  ntok b (a ++ space :: s) = ntok b a + ntok false s.
Proof.
  revert b; induction a as [|c a IH]; intro b; simpl.
  - reflexivity.
  - destruct (isspace c); rewrite IH; lia.
Qed.

Lemma ntok_token_inword (t : str) :
  forallb (fun x => negb (isspace x)) t = true -> ntok true t = 0.
Proof.
  induction t as [|c t IH]; simpl; [reflexivity|].
  intro H; apply andb_true_iff in H as [Hc Ht].
  apply negb_true_iff in Hc; rewrite Hc; simpl; auto.
Qed.

Lemma ntok_token (t : str) : is_token t = true -> ntok false t = 1.
Proof.
  destruct t as [|c t]; [discriminate|].
  rewrite is_token_cons; intro H; apply andb_true_iff in H as [Hc Ht].
  apply negb_true_iff in Hc; simpl; rewrite Hc.
  rewrite (ntok_token_inword _ Ht); reflexivity.
Qed.

Lemma ntok_prefix (p s : str) (b : bool) : ntok b s <= ntok b (p ++ s).
Proof.
  revert b; induction p as [|c p IH]; intro b; simpl; [lia|].
  destruct (isspace c).
  - specialize (IH false). pose proof (ntok_any_le b s). lia.
  - specialize (IH true). pose proof (ntok_false_le s).
    destruct b; lia.
Qed.

(** *** [split] *)

Lemma split_length (s : str) : length (split s) = ntok false s.
Proof.
  induction s as [|c s IH]; simpl; [reflexivity|].
  destruct (isspace c); [exact IH|].
  pose proof (ntok_continue s) as Hc.
  destruct (word_ends s) eqn:Hw; simpl.
  - lia.
  - destruct (split s) as [|w ws]; simpl in *; lia.
Qed.

Lemma split_tokens (s : str) : Forall (fun t => is_token t = true) (split s).
Proof.
  induction s as [|c s IH]; simpl; [constructor|].
  destruct (isspace c) eqn:Hc; [exact IH|].
  destruct (word_ends s).
  - constructor; [|exact IH]. simpl. rewrite Hc. reflexivity.
  - destruct (split s) as [|w ws].
    + repeat constructor. simpl. rewrite Hc. reflexivity.
    + inversion IH as [|? ? Hw Hws]; subst.
      constructor; [|exact Hws].
      rewrite is_token_cons, Hc; simpl. apply is_token_forall, Hw.
Qed.

Lemma split_token_then (t s : str) :
  is_token t = true -> word_ends s = true -> split (t ++ s) = t :: split s.
Proof.
  induction t as [|c t IH]; [discriminate|].
  rewrite is_token_cons; intros H Hs.
  apply andb_true_iff in H as [Hc Ht].
  apply negb_true_iff in Hc.
  destruct t as [|c2 t].
  - simpl. rewrite Hc, Hs. reflexivity.
  - assert (Htok : is_token (c2 :: t) = true) by exact Ht.
    specialize (IH Htok Hs).
    change ((c :: c2 :: t) ++ s) with (c :: ((c2 :: t) ++ s)).
    cbn [split]. rewrite Hc, IH.
    simpl in Ht. apply andb_true_iff in Ht as [Hc2 _].
    apply negb_true_iff in Hc2. simpl. rewrite Hc2. reflexivity.
Qed.

Lemma split_join (ts : list str) :
  Forall (fun t => is_token t = true) ts -> split (join ts) = ts.
Proof.
  induction ts as [|t ts IH]; intro H; [reflexivity|].
  inversion H as [|? ? Ht Hts]; subst.
  destruct ts as [|t2 ts].
  - simpl. rewrite <- (app_nil_r t) at 1.
    rewrite (split_token_then t [] Ht eq_refl). reflexivity.
  - change (join (t :: t2 :: ts)) with (t ++ space :: join (t2 :: ts)).
    rewrite (split_token_then t (space :: join (t2 :: ts)) Ht isspace_space).
    cbn [split]. rewrite isspace_space, (IH Hts). reflexivity.
Qed.

(** *** [replace] *)

Lemma starts_with_app (p s : str) :
  starts_with p s = true -> s = p ++ skipn (length p) s.
Proof.
  revert s; induction p as [|a p IH]; intros s H; [reflexivity|].
  destruct s as [|b s]; [discriminate|].
  simpl in H. apply andb_true_iff in H as [Hab Hp].
  apply Ascii.eqb_eq in Hab; subst b.
  simpl. f_equal. apply IH, Hp.
Qed.

Lemma starts_with_refl_app (p s : str) : starts_with p (p ++ s) = true.
Proof.
  induction p as [|a p IH]; simpl; [reflexivity|].
  rewrite Ascii.eqb_refl, IH. reflexivity.
Qed.

(** The scan never runs short: any fuel from [length s] on gives the same
    result. *)
Lemma replace_scan_enough (old new : str) (fuel1 : nat) :
  old <> [] ->
  forall (fuel2 : nat) (s : str),
    length s <= fuel1 -> length s <= fuel2 ->
    replace_scan fuel1 old new s = replace_scan fuel2 old new s.
Proof.
  intro Hold. induction fuel1 as [|fuel1 IH]; intros fuel2 s H1 H2.
  - destruct s; [|simpl in H1; lia]. destruct fuel2; reflexivity.
  - destruct s as [|c s]; [destruct fuel2; reflexivity|].
    destruct fuel2 as [|fuel2]; [simpl in H2; lia|].
    cbn [replace_scan]. simpl in H1, H2.
    destruct (starts_with old (c :: s)).
    + f_equal. apply IH; rewrite length_skipn;
        destruct old; [congruence| |congruence|]; simpl; lia.
    + f_equal. apply IH; lia.
Qed.

(** Deleting the occurrences of [old] never adds a word. *)
Lemma replace_scan_ntok (fuel : nat) (old s : str) (b : bool) :
  ntok b (replace_scan fuel old [] s) <= ntok b s.
Proof.
  revert s b; induction fuel as [|fuel IH]; intros s b; simpl; [lia|].
  destruct s as [|c s]; [simpl; lia|].
  destruct (starts_with old (c :: s)) eqn:Hp.
  - simpl app. apply starts_with_app in Hp.
    specialize (IH (skipn (length old) (c :: s)) b).
    pose proof (ntok_prefix old (skipn (length old) (c :: s)) b) as Hpre.
    rewrite <- Hp in Hpre. lia.
  - simpl. destruct (isspace c).
    + apply IH.
    + specialize (IH s true). lia.
Qed.

Lemma replace_ntok (old s : str) (b : bool) :
  old <> [] -> ntok b (replace old [] s) <= ntok b s.
Proof.
  intro H. destruct old as [|a old]; [congruence|].
  unfold replace. apply replace_scan_ntok.
Qed.

Lemma replace_scan_prefix (fuel : nat) (old tail : str) :
  old <> [] ->
  replace_scan (S fuel) old [] (old ++ tail) = replace_scan fuel old [] tail.
Proof.
  intro H. destruct old as [|a old]; [congruence|].
  change ((a :: old) ++ tail) with (a :: (old ++ tail)).
  cbn [replace_scan].
  change (a :: (old ++ tail)) with ((a :: old) ++ tail).
  rewrite starts_with_refl_app, skipn_app, skipn_all, Nat.sub_diag.
  reflexivity.
Qed.

(** Deleting [old] from a string that starts with it leaves no more
    words than the rest of the string has. *)
Lemma replace_prefix_ntok (old tail : str) (b : bool) :
  old <> [] -> ntok b (replace old [] (old ++ tail)) <= ntok b tail.
Proof.
  intro H.
  assert (Hlen : length (old ++ tail) = S (length (old ++ tail) - 1)).
  { rewrite length_app. destruct old; [congruence | simpl; lia]. }
  assert (Hr : replace old [] (old ++ tail)
               = replace_scan (length (old ++ tail)) old [] (old ++ tail))
    by (destruct old; [congruence | reflexivity]).
  rewrite Hr, Hlen, replace_scan_prefix by exact H.
  apply replace_scan_ntok.
Qed.

End PyStrFacts.

Import PyStrFacts.

(** * The text normalizer *)

Section Cleaning.

Lemma isalpha_forall (t : str) :
  isalpha t = true -> forallb isalpha_char t = true.
Proof. destruct t; simpl; [discriminate | auto]. Qed.

Lemma isalpha_is_token (t : str) : isalpha t = true -> is_token t = true.
Proof.
  destruct t as [|c t]; [discriminate|].
  intro H. apply isalpha_forall in H.
  unfold is_token. apply forallb_forall. intros x Hx.
  rewrite forallb_forall in H.
  rewrite (alpha_not_space x (H x Hx)). reflexivity.
Qed.

Lemma isalpha_translate (t : str) : isalpha t = true -> translate t = t.
Proof.
  intro H. apply isalpha_forall in H.
  unfold translate. apply forallb_filter.
  apply forallb_forall. intros x Hx.
  rewrite forallb_forall in H.
  rewrite (alpha_not_punctuation x (H x Hx)). reflexivity.
Qed.

Lemma lower_translate_lower (t : str) :
  lower (translate (lower t)) = translate (lower t).
Proof.
  unfold lower, translate.
  induction t as [|c t IH]; simpl; [reflexivity|].
  destruct (negb (is_punctuation (lower_char c))); simpl.
  - rewrite lower_char_idem, IH. reflexivity.
  - exact IH.
Qed.

Lemma clean_tokens_cleaned (caption : str) :
  Forall cleaned_token (clean_tokens caption).
Proof.
  unfold clean_tokens. apply Forall_forall. intros t Ht.
  apply filter_In in Ht as [Ht Halpha].
  apply filter_In in Ht as [Ht Hlen].
  apply in_map_iff in Ht as [u [Hu Ht]].
  apply in_map_iff in Ht as [v [Hv _]].
  subst u t. repeat split.
  - apply lower_translate_lower.
  - apply isalpha_translate, Halpha.
  - apply Nat.ltb_lt, Hlen.
  - exact Halpha.
Qed.

Lemma map_fixed (A : Type) (f : A -> A) (l : list A) :
  Forall (fun x => f x = x) l -> map f l = l.
Proof.
  induction 1 as [|x l Hx _ IH]; simpl; [reflexivity|].
  rewrite Hx, IH. reflexivity.
Qed.

(** A second pass over cleaned tokens keeps all of them as they are. *)
Lemma clean_tokens_join (ts : list str) :
  Forall cleaned_token ts -> clean_tokens (join ts) = ts.
Proof.
  intro H. unfold clean_tokens.
  rewrite split_join.
  2:{ eapply Forall_impl; [|exact H].
      intros t (_ & _ & _ & Ha). apply isalpha_is_token, Ha. }
  rewrite (map_fixed lower).
  2:{ eapply Forall_impl; [|exact H]. intros t (Hl & _). exact Hl. }
  rewrite (map_fixed translate).
  2:{ eapply Forall_impl; [|exact H]. intros t (_ & Ht & _). exact Ht. }
  rewrite (forallb_filter (fun t => 1 <? length t) ts).
  2:{ apply forallb_forall. intros t Ht.
      rewrite Forall_forall in H. destruct (H t Ht) as (_ & _ & Hlen & _).
      apply Nat.ltb_lt, Hlen. }
  apply forallb_filter.
  apply forallb_forall. intros t Ht.
  rewrite Forall_forall in H. destruct (H t Ht) as (_ & _ & _ & Ha).
  exact Ha.
Qed.

Lemma clean_caption_idem (caption : str) :
  clean_caption (clean_caption caption) = clean_caption caption.
Proof.
  unfold clean_caption.
  rewrite clean_tokens_join; [reflexivity | apply clean_tokens_cleaned].
Qed.

Lemma set_item_middle (A : Type) (pre post : list A) (x v : A) :
  set_item (pre ++ x :: post) (length pre) v = pre ++ v :: post.
Proof. induction pre as [|y pre IH]; simpl; [|rewrite IH]; reflexivity. Qed.

Lemma clean_loop (done todo : list str) :
  fold_left
    (fun cl i =>
       match nth_error cl i with
       | Some caption => set_item cl i (clean_caption caption)
       | None => cl
       end)
    (seq (length done) (length todo)) (done ++ todo)
  = done ++ map clean_caption todo.
Proof.
  revert done; induction todo as [|c todo IH]; intro done; simpl.
  - reflexivity.
  - rewrite nth_error_app2, Nat.sub_diag by lia. simpl.
    rewrite set_item_middle.
    specialize (IH (done ++ [clean_caption c])).
    rewrite length_app, Nat.add_1_r, <- app_assoc in IH. simpl in IH.
    rewrite IH, <- app_assoc. reflexivity.
Qed.

(** The in-place loop is a map over the list. *)
Lemma clean_caption_list_map (caption_list : list str) :
  clean_caption_list caption_list = map clean_caption caption_list.
Proof. exact (clean_loop [] caption_list). Qed.

Lemma cleaning_map (caption_dict : dict (list str)) :
  cleaning caption_dict
  = map (fun entry => (fst entry, map clean_caption (snd entry)))
        caption_dict.
Proof.
  unfold cleaning. apply map_ext. intro e.
  rewrite clean_caption_list_map. reflexivity.
Qed.

End Cleaning.

(** C8. [cleaning] is idempotent: a second application leaves the caption
    dictionary as the first one left it, and every word of every cleaned
    caption is lowercase, has no punctuation, has more than one character
    and is alphabetic. *)
Theorem cleaning_idempotent (caption_dict : dict (list str)) :
  cleaning (cleaning caption_dict) = cleaning caption_dict
  /\ Forall (fun entry =>
               Forall (fun caption => Forall cleaned_token (split caption))
                      (snd entry))
            (cleaning caption_dict).
Proof.
  rewrite !cleaning_map. split.
  - rewrite map_map. apply map_ext. intro e. simpl. f_equal.
    rewrite map_map. apply map_ext. intro c. apply clean_caption_idem.
  - apply Forall_forall. intros e He.
    apply in_map_iff in He as [e0 [<- _]]. simpl.
    apply Forall_forall. intros c Hc.
    apply in_map_iff in Hc as [c0 [<- _]].
    unfold clean_caption.
    pose proof (clean_tokens_cleaned c0) as H.
    rewrite split_join; [exact H|].
    eapply Forall_impl; [|exact H].
    intros t (_ & _ & _ & Ha). apply isalpha_is_token, Ha.
Qed.

(** C9. [cleaning] keeps the frame of the dictionary: the same keys in the
    same order, as many captions under each key, every caption replaced in
    its own position by its cleaned form, which is the empty string when no
    word of the caption survives. *)
Theorem cleaning_preserves_frame (caption_dict : dict (list str)) :
  keys (cleaning caption_dict) = keys caption_dict
  /\ map (fun entry => length (snd entry)) (cleaning caption_dict)
     = map (fun entry => length (snd entry)) caption_dict
  /\ cleaning caption_dict
     = map (fun entry => (fst entry, map clean_caption (snd entry)))
           caption_dict
  /\ (forall caption, clean_tokens caption = [] -> clean_caption caption = []).
Proof.
  rewrite cleaning_map. unfold keys. repeat split.
  - rewrite map_map. reflexivity.
  - rewrite map_map. apply map_ext. intro e. simpl. apply length_map.
  - intros c H. unfold clean_caption. rewrite H. reflexivity.
Qed.

(** * Encoding and padding *)

Module KerasFacts.

Lemma keep_last_length (m : nat) (s : list nat) :
  length (keep_last m (repeat 0 m ++ s)) = m.
Proof.
  unfold keep_last. rewrite length_skipn, length_app, repeat_length. lia.
Qed.

Lemma keep_last_short (m : nat) (s : list nat) :
  length s <= m ->
  keep_last m (repeat 0 m ++ s) = repeat 0 (m - length s) ++ s.
Proof.
  intro H. unfold keep_last.
  rewrite length_app, repeat_length.
  replace (m + length s - m) with (length s) by lia.
  rewrite skipn_app, repeat_length.
  replace (length s - m) with 0 by lia. simpl. f_equal.
  replace m with (length s + (m - length s)) at 1 by lia.
  rewrite repeat_app, skipn_app, repeat_length, Nat.sub_diag.
  rewrite skipn_all2 by (rewrite repeat_length; lia). reflexivity.
Qed.

Lemma keep_last_long (m : nat) (s : list nat) :
  m <= length s -> keep_last m (repeat 0 m ++ s) = keep_last m s.
Proof.
  intro H. unfold keep_last.
  rewrite length_app, repeat_length.
  replace (m + length s - m) with (length s) by lia.
  rewrite skipn_app, repeat_length.
  rewrite skipn_all2 by (rewrite repeat_length; lia). reflexivity.
Qed.

Lemma pad_sequences_nonempty (m : nat) (s : list nat) :
  s <> [] ->
  pad_sequences m s
  = if length (last_items m s) <=? m
    then Ok (repeat 0 (m - length (last_items m s)) ++ last_items m s)
    else if length (last_items m s) =? 1 then Ok (repeat 0 m)
         else Raise ValueError.
Proof. destruct s; [congruence | reflexivity]. Qed.

Lemma pad_sequences_ok (m : nat) (s : list nat) :
  1 <= m -> exists p, pad_sequences m s = Ok p.
Proof.
  intro Hm. destruct s as [|x s]; [simpl; eauto|].
  rewrite pad_sequences_nonempty by discriminate.
  remember (x :: s) as l eqn:Hl. clear Hl.
  assert (Hlen : length (last_items m l) <= m).
  { unfold last_items.
    destruct (Nat.eqb_spec m 0); [lia|]. rewrite length_skipn. lia. }
  apply Nat.leb_le in Hlen. rewrite Hlen. eauto.
Qed.

Lemma pad_sequences_keep_last (m : nat) (s p : list nat) :
  pad_sequences m s = Ok p -> p = keep_last m (repeat 0 m ++ s).
Proof.
  destruct s as [|x s].
  - simpl. intro H; injection H as <-.
    rewrite keep_last_short by (simpl; lia).
    simpl. rewrite Nat.sub_0_r, app_nil_r. reflexivity.
  - rewrite pad_sequences_nonempty by discriminate.
    assert (Hpos : 1 <= length (x :: s)) by (simpl; lia).
    remember (x :: s) as l eqn:Hl. clear Hl.
    unfold last_items.
    destruct (Nat.eqb_spec m 0) as [->|Hm].
    + destruct (Nat.leb_spec (length l) 0) as [H0|H0]; [lia|].
      destruct (Nat.eqb_spec (length l) 1); [|discriminate].
      intro H; injection H as <-.
      unfold keep_last. rewrite Nat.sub_0_r.
      change (repeat 0 0 ++ l) with l.
      rewrite skipn_all. reflexivity.
    + rewrite length_skipn.
      destruct (Nat.leb_spec (length l - (length l - m)) m) as [_|H0];
        [|lia].
      intro H; injection H as <-.
      destruct (Nat.le_gt_cases (length l) m) as [Hs|Hs].
      * rewrite keep_last_short by exact Hs.
        replace (length l - m) with 0 by lia.
        change (skipn 0 l) with l. rewrite Nat.sub_0_r. reflexivity.
      * rewrite keep_last_long by lia.
        replace (m - (length l - (length l - m))) with 0 by lia.
        reflexivity.
Qed.

Lemma pad_sequences_length (m : nat) (s p : list nat) :
  pad_sequences m s = Ok p -> length p = m.
Proof.
  intro H. rewrite (pad_sequences_keep_last _ _ H). apply keep_last_length.
Qed.

Lemma pad_sequences_bound (m v : nat) (s p : list nat) :
  0 < v -> Forall (fun i => i < v) s -> pad_sequences m s = Ok p ->
  Forall (fun i => i < v) p.
Proof.
  intros Hv Hs H. rewrite (pad_sequences_keep_last _ _ H).
  unfold keep_last. apply Forall_forall. intros i Hi.
  assert (Hin : In i (repeat 0 m ++ s)).
  { rewrite <- (firstn_skipn (length (repeat 0 m ++ s) - m) (repeat 0 m ++ s)).
    apply in_or_app. right. exact Hi. }
  apply in_app_or in Hin as [Hin|Hin].
  - apply repeat_spec in Hin. lia.
  - rewrite Forall_forall in Hs. auto.
Qed.

Lemma texts_to_sequences_loop (t : Tokenizer) (ws : list str)
  (vect : list nat) :
  fold_left
    (fun vect w =>
       match assoc str_eqb w (word_index t) with
       | Some i => if beyond_num_words t i then vect else vect ++ [i]
       | None => vect
       end) ws vect
  = vect ++ map (word_id t) (filter (in_vocabulary t) ws).
Proof.
  revert vect; induction ws as [|w ws IH]; intro vect; simpl.
  - rewrite app_nil_r. reflexivity.
  - rewrite IH. unfold in_vocabulary, word_id.
    destruct (assoc str_eqb w (word_index t)) as [i|] eqn:Hw;
      [|reflexivity].
    destruct (beyond_num_words t i); simpl; [reflexivity|].
    rewrite Hw, <- app_assoc. reflexivity.
Qed.

(** The encoding keeps the words of the vocabulary, in order, and nothing
    else. *)
Lemma texts_to_sequences_filter (t : Tokenizer) (text : str) :
  texts_to_sequences t text
  = map (word_id t) (filter (in_vocabulary t) (text_to_word_sequence text)).
Proof. unfold texts_to_sequences. apply texts_to_sequences_loop. Qed.

Lemma texts_to_sequences_bound (t : Tokenizer) (v : nat) (text : str) :
  num_words t = Some v -> 0 < v ->
  Forall (fun i => i < v) (texts_to_sequences t text).
Proof.
  intros Hn Hv. rewrite texts_to_sequences_filter.
  apply Forall_forall. intros i Hi.
  apply in_map_iff in Hi as [w [<- Hw]].
  apply filter_In in Hw as [_ Hw].
  unfold in_vocabulary, word_id in *.
  destruct (assoc str_eqb w (word_index t)) as [j|]; [|discriminate].
  unfold beyond_num_words in Hw. rewrite Hn in Hw.
  apply negb_true_iff, andb_false_iff in Hw as [Hw|Hw].
  - apply negb_false_iff, Nat.eqb_eq in Hw. lia.
  - apply Nat.leb_gt in Hw. exact Hw.
Qed.

Lemma to_categorical_ok (v : nat) (y : list nat) :
  0 < v -> Forall (fun i => i < v) y ->
  to_categorical y v = Ok (map (one_hot v) y).
Proof.
  intros Hv Hy. unfold to_categorical.
  destruct (Nat.eqb_spec v 0); [lia|]. simpl.
  replace (forallb (fun i => i <? v) y) with true; [reflexivity|].
  symmetry. apply forallb_forall. intros i Hi.
  rewrite Forall_forall in Hy. apply Nat.ltb_lt. auto.
Qed.

Lemma Forall_removelast (A : Type) (P : A -> Prop) (l : list A) :
  Forall P l -> Forall P (removelast l).
Proof.
  induction 1 as [|x l Hx Hl IH]; simpl; [constructor|].
  destruct l; [constructor|]. constructor; assumption.
Qed.

Lemma Forall_tl (A : Type) (P : A -> Prop) (l : list A) :
  Forall P l -> Forall P (tl l).
Proof. destruct 1; simpl; [constructor | assumption]. Qed.

End KerasFacts.

Import KerasFacts.

(** * The batch generator *)

Section GeneratorFacts.

Variables R Row : Type.
Variable choice_perm : nat -> R -> list nat * R.
Variable choice_one : nat -> R -> nat * R.
Variable caption_dict : dict (list str).
Variable features : dict (list Row).
Variable tokenizer : Tokenizer.
Variables max_length vocab_size num_photos : nat.

Local Abbreviation ids := (photo_ids caption_dict).
Local Abbreviation mk :=
  (make_example features tokenizer max_length vocab_size).
Local Abbreviation visit_ :=
  (visit choice_one caption_dict features tokenizer max_length vocab_size).
Local Abbreviation loop :=
  (inner_loop choice_one caption_dict features tokenizer max_length
     vocab_size num_photos).
Local Abbreviation epoch :=
  (run_epoch choice_perm choice_one caption_dict features tokenizer
     max_length vocab_size num_photos).
Local Abbreviation gen :=
  (generate_dataset choice_perm choice_one caption_dict features tokenizer
     max_length vocab_size num_photos).
Local Abbreviation rng :=
  (rng_at choice_perm choice_one caption_dict features tokenizer
     max_length vocab_size num_photos).

Local Abbreviation made :=
  (made_at caption_dict features tokenizer max_length vocab_size).

Lemma bind_ok (A B : Type) (m : result A) (k : A -> result B) (b : B) :
  bind m k = Ok b -> exists a, m = Ok a /\ k a = Ok b.
Proof. destruct m as [a|e]; simpl; [eauto | discriminate]. Qed.

Lemma of_option_ok (A : Type) (e : exn) (o : option A) (a : A) :
  of_option e o = Ok a -> o = Some a.
Proof. destruct o; simpl; congruence. Qed.

Lemma make_example_photo (photo_id caption : str) (ex : example Row) :
  mk photo_id caption = Ok ex -> ex_photo ex = photo_id.
Proof.
  unfold make_example. intro H.
  apply bind_ok in H as (padded & _ & H).
  apply bind_ok in H as (padded_Y & _ & H).
  apply bind_ok in H as (feature & _ & H).
  apply bind_ok in H as (row & _ & H).
  injection H as <-. reflexivity.
Qed.

Lemma visit_made_at (s : list nat) (r r' : R) (count : nat) (ex : example Row) :
  visit_ s r count = Ok (ex, r') -> made s count ex.
Proof.
  unfold visit. intro H.
  apply bind_ok in H as (s1 & Hs1 & H). apply of_option_ok in Hs1.
  apply bind_ok in H as (photo_id & Hp & H). apply of_option_ok in Hp.
  apply bind_ok in H as (caption_list & Hcl & H). apply of_option_ok in Hcl.
  destruct (length caption_list =? 0); [discriminate|].
  apply bind_ok in H as (caption & Hc & H). apply of_option_ok in Hc.
  apply bind_ok in H as (ex' & Hex & H).
  injection H as -> _.
  pose proof (make_example_photo _ _ Hex) as Hphoto.
  exists s1, caption_list, caption. rewrite Hphoto.
  repeat split; try assumption.
  eapply nth_error_In; exact Hc.
Qed.

Lemma inner_loop_step (fuel : nat) (s : list nat) (r : R) (count : nat)
  (acc : batch Row) :
  loop (S fuel) s r count acc
  = match visit_ s r count with
    | Raise e => ([], Raised e)
    | Ok (ex, r') =>
        if num_photos =? 0 then ([], Raised ZeroDivisionError)
        else if length ids <=? count + 1
        then ((if (count + 1) mod num_photos =? 0 then [acc ++ [ex]] else [])
              ++ (if 0 <? length (if (count + 1) mod num_photos =? 0
                                  then [] else acc ++ [ex])
                  then [if (count + 1) mod num_photos =? 0
                        then [] else acc ++ [ex]]
                  else []),
              Returned r')
        else ((if (count + 1) mod num_photos =? 0 then [acc ++ [ex]] else [])
              ++ fst (loop fuel s r' (count + 1)
                        (if (count + 1) mod num_photos =? 0
                         then [] else acc ++ [ex])),
              snd (loop fuel s r' (count + 1)
                     (if (count + 1) mod num_photos =? 0
                      then [] else acc ++ [ex])))
    end.
Proof. reflexivity. Qed.

Ltac stopped_early :=
  rewrite app_nil_r;
  split; [reflexivity | split; [constructor | intros ? ?; discriminate]].

(** What the inner loop yields, whatever its end: the batches are the
    examples made at the successive positions, in order, the content of the
    lists first; at the [break] nothing is left behind. *)
Lemma inner_loop_examples (fuel : nat) :
  forall (s : list nat) (r : R) (count : nat) (acc : batch Row)
         (bs : list (batch Row)) (out : outcome R),
    loop fuel s r count acc = (bs, out) ->
    exists exs pending,
      concat bs ++ pending = acc ++ exs
      /\ Forall2 (made s) (seq count (length exs)) exs
      /\ (forall r', out = Returned r' ->
            pending = [] /\ exs <> [] /\ 0 < num_photos
            /\ length ids <= count + length exs
            /\ (count < length ids -> count + length exs = length ids)).
Proof.
  induction fuel as [|fuel IH]; intros s r count acc bs out.
  - simpl. intro H; injection H as <- <-. exists [], acc. stopped_early.
  - rewrite inner_loop_step.
    destruct (visit_ s r count) as [[ex r1]|e] eqn:Hv.
    2:{ intro H; injection H as <- <-. exists [], acc. stopped_early. }
    apply visit_made_at in Hv.
    destruct (Nat.eqb_spec num_photos 0) as [Hz|Hz].
    { intro H; injection H as <- <-. exists [], acc. stopped_early. }
    destruct (Nat.leb_spec (length ids) (count + 1)) as [Hend|Hend].
    + intro H; injection H as <- <-. exists [ex], [].
      split; [|split].
      * destruct ((count + 1) mod num_photos =? 0).
        -- simpl. rewrite !app_nil_r. reflexivity.
        -- rewrite length_app.
           replace (0 <? length acc + length [ex]) with true
             by (symmetry; apply Nat.ltb_lt; simpl; lia).
           simpl. rewrite !app_nil_r. reflexivity.
      * simpl. constructor; [exact Hv | constructor].
      * intros r' _. simpl. repeat split; try lia. discriminate.
    + destruct (loop fuel s r1 (count + 1)
                  (if (count + 1) mod num_photos =? 0 then []
                   else acc ++ [ex])) as [bs1 out1] eqn:Hrest.
      apply IH in Hrest as (exs & pending & Hcat & Hmade & Hret).
      cbn [fst snd]. intro H; injection H as <- <-.
      exists (ex :: exs), pending. split; [|split].
      * rewrite concat_app, <- app_assoc, Hcat.
        destruct ((count + 1) mod num_photos =? 0).
        -- simpl. rewrite app_nil_r, <- app_assoc. reflexivity.
        -- simpl. rewrite <- app_assoc. reflexivity.
      * simpl. constructor; [exact Hv|].
        rewrite Nat.add_1_r in Hmade. exact Hmade.
      * intros r' Hr. destruct (Hret r' Hr) as (Hp & _ & Hnp & Hle & Heq).
        simpl. repeat split; try assumption; try lia. discriminate.
Qed.

Lemma Forall2_map_eq (A B C : Type) (P : A -> B -> Prop) (f : B -> C)
  (g : A -> C) (l : list A) (l' : list B) :
  (forall a b, P a b -> f b = g a) -> Forall2 P l l' -> map f l' = map g l.
Proof.
  intros H HF. induction HF as [|a b l l' Hab _ IH]; simpl; [reflexivity|].
  rewrite (H a b Hab), IH. reflexivity.
Qed.

Lemma map_nth_seq (A : Type) (d : A) (s : list A) :
  map (fun i => nth i s d) (seq 0 (length s)) = s.
Proof.
  induction s as [|a s IH]; simpl; [reflexivity|].
  rewrite <- seq_shift, map_map. simpl. rewrite IH. reflexivity.
Qed.

(** A pass that reaches its [break] made one example at every position of
    the drawn sequence. *)
Lemma run_epoch_examples (fuel : nat) (r r' : R) (bs : list (batch Row)) :
  epoch fuel r = (bs, Returned r') ->
  0 < length ids /\ 0 < num_photos
  /\ Forall2 (made (fst (choice_perm (length ids) r)))
             (seq 0 (length ids)) (concat bs).
Proof.
  unfold run_epoch. intro H.
  apply inner_loop_examples in H as (exs & pending & Hcat & Hmade & Hret).
  destruct (Hret r' eq_refl) as (-> & Hne & Hnp & Hle & Heq).
  rewrite app_nil_r in Hcat. simpl in Hcat. subst exs.
  assert (Hpos : 0 < length ids).
  { destruct (concat bs) as [|ex exs]; [congruence|].
    inversion Hmade as [|? ? ? ? (s1 & _ & _ & _ & Hid & _) _]; subst.
    apply Nat.lt_le_trans with (S s1); [lia|].
    apply nth_error_Some. congruence. }
  specialize (Heq Hpos). simpl in Heq. rewrite Heq in Hmade. auto.
Qed.

Lemma visited_photos (s : list nat) (exs : list (example Row)) :
  Forall2 (made s) (seq 0 (length s)) exs ->
  map (fun ex => Some (ex_photo ex)) exs = map (nth_error ids) s.
Proof.
  intro H.
  rewrite (Forall2_map_eq (fun ex => Some (ex_photo ex))
             (fun i => nth_error ids (nth i s 0)) (P := made s)
             (l := seq 0 (length s))).
  - transitivity
      (map (nth_error ids) (map (fun i => nth i s 0) (seq 0 (length s)))).
    + rewrite map_map. reflexivity.
    + rewrite map_nth_seq. reflexivity.
  - intros i ex (s1 & _ & _ & Hs & Hid & _).
    rewrite (nth_error_nth _ _ 0 Hs). symmetry. exact Hid.
  - exact H.
Qed.

Lemma map_Some_inj (A : Type) (l l' : list A) :
  map Some l = map Some l' -> l = l'.
Proof.
  revert l'; induction l as [|a l IH]; intros [|b l'] H;
    simpl in H; try discriminate; [reflexivity|].
  injection H as -> H. f_equal. auto.
Qed.

Lemma permuted_photos (s : list nat) (visited : list str) :
  Permutation s (seq 0 (length ids)) ->
  map Some visited = map (nth_error ids) s ->
  Permutation visited ids.
Proof.
  intros Hperm Hmap.
  assert (Hv : visited = map (fun s1 => nth s1 ids []) s).
  { apply map_Some_inj. rewrite Hmap, map_map.
    apply map_ext_in. intros s1 Hin.
    apply (Permutation_in _ Hperm), in_seq in Hin.
    apply nth_error_nth'. lia. }
  pose proof (Permutation_map (fun s1 => nth s1 ids []) Hperm) as HP.
  rewrite map_nth_seq in HP. rewrite Hv. exact HP.
Qed.

Lemma epoch_visits (fuel : nat) (r r' : R) (bs : list (batch Row)) :
  (forall n r, Permutation (fst (choice_perm n r)) (seq 0 n)) ->
  epoch fuel r = (bs, Returned r') ->
  Permutation (concat (map (@batch_photos Row) bs)) ids
  /\ map Some (concat (map (@batch_photos Row) bs))
     = map (nth_error ids) (fst (choice_perm (length ids) r)).
Proof.
  intros Hperm H.
  apply run_epoch_examples in H as (_ & _ & Hmade).
  pose proof (Hperm (length ids) r) as Hs.
  assert (Hlen : length (fst (choice_perm (length ids) r)) = length ids).
  { rewrite (Permutation_length Hs). apply length_seq. }
  rewrite <- Hlen in Hmade at 2.
  apply visited_photos in Hmade.
  assert (Hmap : map Some (concat (map (@batch_photos Row) bs))
                 = map (nth_error ids) (fst (choice_perm (length ids) r))).
  { rewrite <- Hmade.
    change (@batch_photos Row) with (map (@ex_photo Row)).
    unfold batch. rewrite <- concat_map, map_map. reflexivity. }
  split; [|exact Hmap].
  eapply permuted_photos; eassumption.
Qed.

Lemma generate_dataset_step (fuel k : nat) (r r_end : R)
  (epochs : list (list (batch Row))) :
  gen fuel (S k) r = (epochs, Returned r_end) ->
  exists bs r' rest,
    epoch fuel r = (bs, Returned r')
    /\ gen fuel k r' = (rest, Returned r_end)
    /\ epochs = bs :: rest.
Proof.
  simpl. destruct (epoch fuel r) as [bs [r'| |]] eqn:He;
    try (intro H; discriminate).
  destruct (gen fuel k r') as [rest out] eqn:Hg. simpl.
  intro H; injection H as <- ->.
  exists bs, r', rest. auto.
Qed.

(** C1. In every pass of the generator that reaches its [break], the
    photo identifiers of the examples of all its batches are the keys of the
    caption dictionary, each once; they come in the order of the index
    permutation drawn from the random generator when that pass starts. *)
Theorem epoch_visits_every_photo_once
  (Hperm : forall n r, Permutation (fst (choice_perm n r)) (seq 0 n))
  (Hkeys : NoDup (keys caption_dict))
  (fuel k : nat) (r r_end : R) (epochs : list (list (batch Row))) :
  gen fuel k r = (epochs, Returned r_end) ->
  length epochs = k
  /\ forall j bs,
       nth_error epochs j = Some bs ->
       Permutation (concat (map (@batch_photos Row) bs)) ids
       /\ NoDup (concat (map (@batch_photos Row) bs))
       /\ map Some (concat (map (@batch_photos Row) bs))
          = map (nth_error ids)
                (fst (choice_perm (length ids) (rng fuel j r))).
Proof.
  revert r epochs. induction k as [|k IH]; intros r epochs H.
  - simpl in H. injection H as <- _. split; [reflexivity|].
    intros [|j] bs Hj; discriminate.
  - apply generate_dataset_step in H as (bs0 & r' & rest & He & Hg & ->).
    destruct (IH _ _ Hg) as [Hlen Hall].
    split; [simpl; congruence|].
    intros [|j] bs Hj; simpl in Hj.
    + injection Hj as <-.
      destruct (epoch_visits _ _ Hperm He) as [HP Hmap].
      repeat split; try assumption.
      eapply Permutation_NoDup; [apply Permutation_sym, HP | exact Hkeys].
    + simpl. rewrite He. simpl. apply Hall, Hj.
Qed.

(** *** Batch sizes *)

Lemma succ_div_mod (c np : nat) :
  0 < np ->
  ((c + 1) mod np = 0 /\ c mod np + 1 = np /\ (c + 1) / np = c / np + 1)
  \/ ((c + 1) mod np = c mod np + 1 /\ (c + 1) / np = c / np).
Proof.
  intro Hnp.
  pose proof (Nat.div_mod_eq c np) as Hc.
  pose proof (Nat.mod_upper_bound c np ltac:(lia)) as Hr.
  destruct (Nat.eq_dec (c mod np + 1) np) as [E|E].
  - left.
    assert (H : c + 1 = np * (c / np + 1) + 0) by lia.
    split; [|split]; [|exact E|].
    + symmetry. apply (Nat.mod_unique _ _ (c / np + 1) 0); lia.
    + symmetry. apply (Nat.div_unique _ _ (c / np + 1) 0); lia.
  - right.
    assert (H : c + 1 = np * (c / np) + (c mod np + 1)) by lia.
    split.
    + symmetry. apply (Nat.mod_unique _ _ (c / np) (c mod np + 1)); lia.
    + symmetry. apply (Nat.div_unique _ _ (c / np) (c mod np + 1)); lia.
Qed.

(** The sizes of the batches a pass yields from position [count] on, the
    lists holding the examples made since the last full batch. *)
Lemma inner_loop_sizes (fuel : nat) :
  forall (s : list nat) (r r' : R) (count : nat) (acc : batch Row)
         (bs : list (batch Row)),
    loop fuel s r count acc = (bs, Returned r') ->
    count < length ids ->
    length acc = count mod num_photos ->
    map (@length (example Row)) bs
    = repeat num_photos (length ids / num_photos - count / num_photos)
      ++ (if length ids mod num_photos =? 0 then []
          else [length ids mod num_photos]).
Proof.
  induction fuel as [|fuel IH]; intros s r r' count acc bs;
    [discriminate|].
  rewrite inner_loop_step.
  destruct (visit_ s r count) as [[ex r1]|e]; [|discriminate].
  destruct (Nat.eqb_spec num_photos 0) as [Hz|Hz]; [discriminate|].
  assert (Hnp : 0 < num_photos) by lia.
  destruct (Nat.leb_spec (length ids) (count + 1)) as [Hend|Hend].
  - intros H Hc Hacc. injection H as <- _.
    assert (Hn : length ids = count + 1) by lia. rewrite Hn.
    destruct (succ_div_mod count Hnp) as [(Hm & Hfull & Hd)|(Hm & Hd)].
    + rewrite Hm, Hd. simpl.
      replace (count / num_photos + 1 - count / num_photos) with 1 by lia.
      simpl. rewrite length_app. simpl. f_equal. lia.
    + rewrite Hm, Hd, Nat.sub_diag.
      destruct (Nat.eqb_spec (count mod num_photos + 1) 0); [lia|].
      rewrite length_app. simpl.
      replace (0 <? length acc + 1) with true
        by (symmetry; apply Nat.ltb_lt; lia).
      simpl. rewrite length_app. simpl. f_equal. lia.
  - destruct (loop fuel s r1 (count + 1)
                (if (count + 1) mod num_photos =? 0 then []
                 else acc ++ [ex])) as [bs1 out1] eqn:Hrest.
    cbn [fst snd]. intros H Hc Hacc. injection H as <- ->.
    apply IH in Hrest; [|lia|].
    + rewrite map_app, Hrest.
      assert (Hle : (count + 1) / num_photos <= length ids / num_photos)
        by (apply Nat.Div0.div_le_mono; lia).
      destruct (succ_div_mod count Hnp) as [(Hm & Hfull & Hd)|(Hm & Hd)].
      * rewrite Hm, Hd in *. simpl.
        rewrite length_app. simpl.
        replace (length acc + 1) with num_photos by lia.
        replace (length ids / num_photos - count / num_photos)
          with (S (length ids / num_photos - (count / num_photos + 1)))
          by lia.
        reflexivity.
      * rewrite Hm, Hd.
        destruct (Nat.eqb_spec (count mod num_photos + 1) 0); [lia|].
        reflexivity.
    + destruct (succ_div_mod count Hnp) as [(Hm & Hfull & Hd)|(Hm & Hd)].
      * rewrite Hm. reflexivity.
      * rewrite Hm.
        destruct (Nat.eqb_spec (count mod num_photos + 1) 0); [lia|].
        rewrite length_app. simpl. lia.
Qed.

Lemma run_epoch_sizes (fuel : nat) (r r' : R) (bs : list (batch Row)) :
  epoch fuel r = (bs, Returned r') ->
  map (@length (example Row)) bs
  = repeat num_photos (length ids / num_photos)
    ++ (if length ids mod num_photos =? 0 then []
        else [length ids mod num_photos]).
Proof.
  intro H.
  destruct (run_epoch_examples _ _ H) as (Hn & Hnp & _).
  unfold run_epoch in H.
  apply inner_loop_sizes in H; [|exact Hn|].
  - rewrite H, Nat.Div0.div_0_l, Nat.sub_0_r. reflexivity.
  - rewrite Nat.Div0.mod_0_l. reflexivity.
Qed.

(** *** The examples of a batch *)

Lemma Forall2_in_right (A B : Type) (P : A -> B -> Prop) (l : list A)
  (l' : list B) (b : B) :
  Forall2 P l l' -> In b l' -> exists a, In a l /\ P a b.
Proof.
  induction 1 as [|a0 b0 l l' H0 _ IH]; simpl; [tauto|].
  intros [<-|Hin]; [eauto|].
  destruct (IH Hin) as (a & Ha & HP). eauto.
Qed.

Lemma run_epoch_members (fuel : nat) (r : R) (bs : list (batch Row))
  (out : outcome R) (b : batch Row) (ex : example Row) :
  epoch fuel r = (bs, out) -> In b bs -> In ex b ->
  exists i, made (fst (choice_perm (length ids) r)) i ex.
Proof.
  unfold run_epoch. intros H Hb Hex.
  apply inner_loop_examples in H as (exs & pending & Hcat & Hmade & _).
  simpl in Hcat.
  assert (Hin : In ex exs).
  { rewrite <- Hcat. apply in_or_app. left.
    apply in_concat. eauto. }
  destruct (Forall2_in_right ex Hmade Hin) as (i & _ & Hi). eauto.
Qed.

Lemma generate_dataset_members (fuel k : nat) :
  forall (r : R) (epochs : list (list (batch Row))) (out : outcome R)
         (bs : list (batch Row)),
    gen fuel k r = (epochs, out) -> In bs epochs ->
    exists r0 out0, epoch fuel r0 = (bs, out0).
Proof.
  induction k as [|k IH]; intros r epochs out bs; simpl.
  - intro H; injection H as <- _. intros [].
  - destruct (epoch fuel r) as [bs0 out0] eqn:He.
    destruct out0 as [r'| |].
    + destruct (gen fuel k r') as [rest out1] eqn:Hg. simpl.
      intro H; injection H as <- _. intros [<-|Hin]; [eauto|].
      eapply IH; eassumption.
    + intro H; injection H as <- _. intros [<-|[]]. eauto.
    + intro H; injection H as <- _. intros [<-|[]]. eauto.
Qed.

Lemma make_example_inv (photo_id caption : str) (ex : example Row) :
  mk photo_id caption = Ok ex ->
  exists padded_Y,
    pad_sequences max_length
      (removelast (texts_to_sequences tokenizer caption))
    = Ok (ex_text ex)
    /\ pad_sequences max_length (tl (texts_to_sequences tokenizer caption))
       = Ok padded_Y
    /\ to_categorical padded_Y vocab_size = Ok (ex_Y ex).
Proof.
  unfold make_example, shift_and_pad. intro H.
  apply bind_ok in H as (padded & Hp & H).
  apply bind_ok in Hp as (p1 & H1 & Hp).
  apply bind_ok in Hp as (p2 & H2 & Hp). injection Hp as <-.
  apply bind_ok in H as (padded_Y & HY & H).
  apply bind_ok in H as (feature & _ & H).
  apply bind_ok in H as (row & _ & H).
  injection H as <-. simpl in *. eauto.
Qed.

Lemma length_removelast (A : Type) (l : list A) :
  length (removelast l) = length l - 1.
Proof. rewrite removelast_firstn_len, length_firstn. lia. Qed.

(** *** Runs without exception *)

Lemma str_eqb_eq (a b : str) : str_eqb a b = true <-> a = b.
Proof.
  unfold str_eqb. destruct (list_eq_dec ascii_dec a b); split; congruence.
Qed.

Lemma lookup_keys (V : Type) (k : str) (d : dict V) :
  In k (keys d) -> exists v, lookup k d = Some v /\ In (k, v) d.
Proof.
  induction d as [|[k' v'] d IH]; simpl; [tauto|].
  intro H. unfold lookup. simpl.
  destruct (str_eqb k k') eqn:E.
  - apply str_eqb_eq in E; subst. eauto.
  - destruct H as [H|H].
    + subst. assert (str_eqb k k = true) by (apply str_eqb_eq; reflexivity).
      congruence.
    + destruct (IH H) as (v & Hv & Hin). eauto.
Qed.

Section WellFormed.

Hypothesis draws_permutation :
  forall n r, Permutation (fst (choice_perm n r)) (seq 0 n).
Hypothesis draws_in_range :
  forall n r, 0 < n -> fst (choice_one n r) < n.
Hypothesis captions_present :
  Forall (fun entry => snd entry <> []) caption_dict.
Hypothesis features_present :
  Forall (fun photo_id =>
            exists row rest, lookup photo_id features = Some (row :: rest))
         ids.
Hypothesis max_length_positive : 1 <= max_length.
Hypothesis tokenizer_num_words : num_words tokenizer = Some vocab_size.
Hypothesis vocab_size_positive : 0 < vocab_size.

Lemma shift_and_pad_ok (encoded : list nat) :
  Forall (fun i => i < vocab_size) encoded ->
  exists padded,
    shift_and_pad max_length encoded = Ok padded
    /\ Forall (fun i => i < vocab_size) (snd padded).
Proof.
  intro H. unfold shift_and_pad.
  destruct (pad_sequences_ok (removelast encoded) max_length_positive)
    as [p1 H1].
  destruct (pad_sequences_ok (tl encoded) max_length_positive) as [p2 H2].
  rewrite H1, H2. simpl. eexists; split; [reflexivity|]. simpl.
  eapply pad_sequences_bound; [exact vocab_size_positive| |exact H2].
  apply Forall_tl, H.
Qed.

Lemma make_example_ok (photo_id caption : str) :
  In photo_id ids -> exists ex, mk photo_id caption = Ok ex.
Proof.
  intro Hin. unfold make_example.
  destruct (shift_and_pad_ok
              (texts_to_sequences_bound tokenizer caption
                 tokenizer_num_words vocab_size_positive))
    as (padded & Hp & Hb).
  rewrite Hp. simpl.
  rewrite (to_categorical_ok vocab_size_positive Hb). simpl.
  rewrite Forall_forall in features_present.
  destruct (features_present _ Hin) as (row & rest & Hf).
  rewrite Hf. simpl. eauto.
Qed.

Lemma visit_ok (s : list nat) (r : R) (count s1 : nat) :
  nth_error s count = Some s1 -> s1 < length ids ->
  exists ex r', visit_ s r count = Ok (ex, r').
Proof.
  intros Hs Hlt. unfold visit. rewrite Hs. simpl.
  destruct (nth_error ids s1) as [photo_id|] eqn:Hp.
  2:{ apply nth_error_None in Hp. lia. }
  simpl. apply nth_error_In in Hp.
  destruct (lookup_keys _ _ Hp) as (caption_list & Hl & Hin).
  rewrite Hl. simpl.
  rewrite Forall_forall in captions_present.
  pose proof (captions_present _ Hin) as Hne. simpl in Hne.
  destruct (Nat.eqb_spec (length caption_list) 0) as [Hz|Hz].
  { destruct caption_list; [congruence | discriminate]. }
  assert (Hdraw : fst (choice_one (length caption_list) r)
                  < length caption_list)
    by (apply draws_in_range; lia).
  destruct (nth_error caption_list (fst (choice_one (length caption_list) r)))
    as [caption|] eqn:Hc.
  2:{ apply nth_error_None in Hc. lia. }
  simpl. destruct (make_example_ok photo_id caption Hp) as [ex Hex].
  rewrite Hex. simpl. eauto.
Qed.

Lemma inner_loop_total (fuel : nat) :
  forall (s : list nat) (r : R) (count : nat) (acc : batch Row),
    (forall i, i < length ids ->
               exists s1, nth_error s i = Some s1 /\ s1 < length ids) ->
    0 < num_photos ->
    count < length ids -> length ids - count <= fuel ->
    exists bs r', loop fuel s r count acc = (bs, Returned r').
Proof.
  induction fuel as [|fuel IH]; intros s r count acc Hs Hnp Hc Hf; [lia|].
  rewrite inner_loop_step.
  destruct (Hs count Hc) as (s1 & Hs1 & Hlt).
  destruct (visit_ok s r count Hs1 Hlt) as (ex & r1 & Hv).
  rewrite Hv.
  destruct (Nat.eqb_spec num_photos 0); [lia|].
  destruct (Nat.leb_spec (length ids) (count + 1)) as [Hend|Hend].
  - eauto.
  - destruct (IH s r1 (count + 1)
                (if (count + 1) mod num_photos =? 0 then []
                 else acc ++ [ex]) Hs Hnp) as (bs & r' & Hl); try lia.
    rewrite Hl. simpl. eauto.
Qed.

Lemma drawn_in_range (r : R) (i : nat) :
  i < length ids ->
  exists s1, nth_error (fst (choice_perm (length ids) r)) i = Some s1
             /\ s1 < length ids.
Proof.
  intro Hi. pose proof (draws_permutation (length ids) r) as HP.
  pose proof (Permutation_length HP) as Hlen. rewrite length_seq in Hlen.
  destruct (nth_error (fst (choice_perm (length ids) r)) i) as [s1|] eqn:E.
  2:{ apply nth_error_None in E. lia. }
  exists s1. split; [reflexivity|].
  apply nth_error_In in E. apply (Permutation_in _ HP), in_seq in E. lia.
Qed.

Lemma run_epoch_total (fuel : nat) (r : R) :
  0 < num_photos -> 0 < length ids -> length ids <= fuel ->
  exists bs r', epoch fuel r = (bs, Returned r').
Proof.
  intros Hnp Hn Hf. unfold run_epoch.
  apply inner_loop_total; try assumption; try lia.
  intros i Hi. apply drawn_in_range, Hi.
Qed.

(** C5. With [n >= 1] photos and [num_photos >= 1], every pass yields
    [n / num_photos] batches of [num_photos] examples, then one batch of
    [n mod num_photos] examples when that is not zero and no further batch
    when it is; the next pass starts after it. *)
Theorem batch_sizes_per_epoch (fuel k : nat) (r : R) :
  0 < num_photos -> 0 < length ids -> length ids <= fuel ->
  exists epochs r_end,
    gen fuel k r = (epochs, Returned r_end)
    /\ length epochs = k
    /\ Forall (fun bs =>
                 map (@length (example Row)) bs
                 = repeat num_photos (length ids / num_photos)
                   ++ (if length ids mod num_photos =? 0 then []
                       else [length ids mod num_photos]))
              epochs.
Proof.
  intros Hnp Hn Hf. revert r. induction k as [|k IH]; intro r.
  - exists [], r. simpl. auto.
  - destruct (run_epoch_total r Hnp Hn Hf) as (bs & r' & He).
    destruct (IH r') as (rest & r_end & Hg & Hlen & Hall).
    exists (bs :: rest), r_end. simpl. rewrite He, Hg. simpl.
    repeat split; [congruence|].
    constructor; [|exact Hall].
    eapply run_epoch_sizes; exact He.
Qed.

(** C7. Encoding a caption keeps the ids of its words that are in the
    vocabulary, in order, and skips every other word; whatever the words of
    the caption, making the training example of a photo of the dataset
    raises nothing, and its input row is the padded encoding without its
    last id. *)
Theorem out_of_vocabulary_dropped (photo_id caption : str) :
  In photo_id ids ->
  texts_to_sequences tokenizer caption
  = map (word_id tokenizer)
        (filter (in_vocabulary tokenizer) (text_to_word_sequence caption))
  /\ exists ex,
       mk photo_id caption = Ok ex
       /\ ex_text ex
          = keep_last max_length
              (repeat 0 max_length
               ++ removelast
                    (map (word_id tokenizer)
                         (filter (in_vocabulary tokenizer)
                                 (text_to_word_sequence caption)))).
Proof.
  intro Hin. split; [apply texts_to_sequences_filter|].
  destruct (make_example_ok photo_id caption Hin) as [ex Hex].
  exists ex. split; [exact Hex|].
  edestruct make_example_inv as (padded_Y & H1 & _); [exact Hex|].
  rewrite <- texts_to_sequences_filter.
  apply pad_sequences_keep_last, H1.
Qed.

End WellFormed.

(** C6, as the code has it. Every example of every batch comes from a
    caption of its photo; its input row and its target row before
    [to_categorical] have length [max_length] and are the last [max_length]
    items of [max_length] zeros followed by the encoding without its last
    id, respectively without its first id: zeros on the left when the
    encoding has at most [max_length + 1] ids, the front of the shifted
    encoding cut off when it has more. *)
Theorem examples_shifted_and_padded (fuel k : nat) (r : R)
  (epochs : list (list (batch Row))) (out : outcome R) :
  gen fuel k r = (epochs, out) ->
  Forall (shifted_and_padded caption_dict tokenizer max_length vocab_size)
         (concat (concat epochs)).
Proof.
  intro Hg. apply Forall_forall. intros ex Hin.
  apply in_concat in Hin as (b & Hin & Hex).
  apply in_concat in Hin as (bs & Hbs & Hb).
  edestruct generate_dataset_members as (r0 & out0 & He);
    [exact Hg | exact Hbs |].
  edestruct run_epoch_members
    as (i & s1 & caption_list & caption & _ & _ & Hl & Hc & Hmk);
    [exact He | exact Hb | exact Hex |].
  edestruct make_example_inv as (padded_Y & H1 & H2 & HY); [exact Hmk|].
  exists caption_list, caption, padded_Y.
  pose proof H1 as E1. apply pad_sequences_keep_last in E1.
  pose proof H2 as E2. apply pad_sequences_keep_last in E2.
  repeat split; try assumption.
  - eapply pad_sequences_length; exact H1.
  - eapply pad_sequences_length; exact H2.
  - rewrite E1. apply keep_last_short. rewrite length_removelast. lia.
  - rewrite E2. apply keep_last_short. rewrite length_tl. lia.
  - rewrite E1. apply keep_last_long. rewrite length_removelast. lia.
  - rewrite E2. apply keep_last_long. rewrite length_tl. lia.
Qed.


End GeneratorFacts.

(** * The small dataset *)

Module ScenarioFacts.

Import Scenario.

Lemma draws_permutation (n r : nat) :
  Permutation (fst (choice_perm n r)) (seq 0 n).
Proof.
  unfold choice_perm. simpl. destruct (Nat.even r).
  - apply Permutation_refl.
  - apply Permutation_sym, Permutation_rev.
Qed.

Lemma draws_in_range (n r : nat) : 0 < n -> fst (choice_one n r) < n.
Proof. intro H. simpl. apply Nat.mod_upper_bound. lia. Qed.

Lemma keys_distinct : NoDup (keys captions).
Proof.
  repeat constructor; simpl; intro H;
    repeat (destruct H as [H|H]; [discriminate|]); exact H.
Qed.

Lemma captions_present : Forall (fun entry => snd entry <> []) captions.
Proof. repeat constructor; discriminate. Qed.

Lemma features_present :
  Forall (fun photo_id =>
            exists row rest, lookup photo_id features = Some (row :: rest))
         (photo_ids captions).
Proof. repeat constructor; eexists; eexists; reflexivity. Qed.

Lemma tokenizer_num_words : num_words tokenizer = Some vocab_size.
Proof. reflexivity. Qed.

Lemma vocab_size_positive : 0 < vocab_size.
Proof. vm_compute. lia. Qed.

Lemma max_length_is_4 : max_length = 4.
Proof. reflexivity. Qed.

End ScenarioFacts.

(** On the small dataset: the first pass visits [p1] to [p5] in this order,
    the second one in the reverse order, each photo once. *)
Lemma epoch_visits_every_photo_once_witness :
  exists e0 e1,
    fst (Scenario.generator 4 5 2) = [e0; e1]
    /\ concat (map (@batch_photos nat) e0)
       = map py ["p1"; "p2"; "p3"; "p4"; "p5"]%string
    /\ concat (map (@batch_photos nat) e1)
       = map py ["p5"; "p4"; "p3"; "p2"; "p1"]%string
    /\ Permutation (concat (map (@batch_photos nat) e1))
                   (photo_ids Scenario.captions)
    /\ NoDup (concat (map (@batch_photos nat) e1)).
Proof.
  assert (Hrun : Scenario.generator 4 5 2
                 = (fst (Scenario.generator 4 5 2), Returned 22))
    by (vm_compute; reflexivity).
  destruct (@epoch_visits_every_photo_once nat nat
              Scenario.choice_perm Scenario.choice_one Scenario.captions
              Scenario.features Scenario.tokenizer 4 Scenario.vocab_size 2
              ScenarioFacts.draws_permutation ScenarioFacts.keys_distinct
              5 2 0 22 _ Hrun) as [_ Hall].
  destruct (Hall 1 (nth 1 (fst (Scenario.generator 4 5 2)) []))
    as (HP & HN & _); [vm_compute; reflexivity|].
  exists (nth 0 (fst (Scenario.generator 4 5 2)) []),
         (nth 1 (fst (Scenario.generator 4 5 2)) []).
  split; [vm_compute; reflexivity|].
  split; [vm_compute; reflexivity|].
  split; [vm_compute; reflexivity|].
  split; [exact HP | exact HN].
Defined.

(** Five photos, two per batch: sizes 2, 2, 1 in each of two passes. *)
Lemma batch_sizes_per_epoch_witness :
  exists epochs r_end,
    Scenario.generator 4 5 2 = (epochs, Returned r_end)
    /\ length epochs = 2
    /\ Forall (fun bs => map (@length (example nat)) bs = [2; 2; 1]) epochs.
Proof.
  apply (@batch_sizes_per_epoch nat nat
           Scenario.choice_perm Scenario.choice_one Scenario.captions
           Scenario.features Scenario.tokenizer 4 Scenario.vocab_size 2
           ScenarioFacts.draws_permutation ScenarioFacts.draws_in_range
           ScenarioFacts.captions_present ScenarioFacts.features_present).
  - lia.
  - reflexivity.
  - vm_compute; lia.
  - lia.
  - vm_compute; lia.
  - vm_compute; lia.
Defined.

(** The caption of [p2]: [fast] is not encoded, the example is made. *)
Lemma out_of_vocabulary_dropped_witness :
  text_to_word_sequence (py "startseq dog runs fast endseq")
  = map py ["startseq"; "dog"; "runs"; "fast"; "endseq"]%string
  /\ in_vocabulary Scenario.tokenizer (py "fast") = false
  /\ texts_to_sequences Scenario.tokenizer
       (py "startseq dog runs fast endseq") = [1; 3; 4; 2]
  /\ exists ex,
       make_example Scenario.features Scenario.tokenizer 4
         Scenario.vocab_size (py "p2") (py "startseq dog runs fast endseq")
       = Ok ex
       /\ ex_text ex = [0; 1; 3; 4].
Proof.
  destruct (@out_of_vocabulary_dropped nat Scenario.captions
              Scenario.features Scenario.tokenizer 4 Scenario.vocab_size
              ScenarioFacts.features_present ltac:(lia)
              ScenarioFacts.tokenizer_num_words
              ScenarioFacts.vocab_size_positive
              (py "p2") (py "startseq dog runs fast endseq"))
    as [Henc (ex & Hex & Htext)].
  - vm_compute. auto.
  - split; [vm_compute; reflexivity|].
    split; [vm_compute; reflexivity|].
    split; [rewrite Henc; vm_compute; reflexivity|].
    exists ex. split; [exact Hex|].
    rewrite Htext. vm_compute. reflexivity.
Defined.

(** Every example of two passes over the small dataset. *)
Lemma examples_shifted_and_padded_witness :
  Forall (shifted_and_padded Scenario.captions Scenario.tokenizer 4
            Scenario.vocab_size)
         (concat (concat (fst (Scenario.generator 4 5 2)))).
Proof.
  apply (@examples_shifted_and_padded nat nat
           Scenario.choice_perm Scenario.choice_one Scenario.captions
           Scenario.features Scenario.tokenizer 4 Scenario.vocab_size 2
           5 2 0 _ (snd (Scenario.generator 4 5 2))).
  apply surjective_pairing.
Defined.

(** The validation caption is encoded as six ids, [max_length] is 4: the
    input row is [3; 4; 6; 5], the shifted encoding [1; 3; 4; 6; 5] without
    its first id, and no number of zeros in front of the shifted encoding
    gives that row. *)
Lemma long_caption_truncated :
  lookup (py "d1") Scenario.dev_captions
  = Some [py "startseq dog runs cat sits endseq"]
  /\ texts_to_sequences Scenario.tokenizer
       (py "startseq dog runs cat sits endseq")
     = [1; 3; 4; 6; 5; 2]
  /\ Scenario.max_length = 4
  /\ exists ex,
       In ex (concat (concat (fst (Scenario.dev_generator 1 1))))
       /\ ex_photo ex = py "d1"
       /\ ex_text ex = [3; 4; 6; 5]
       /\ forall zeros,
            ex_text ex <> repeat 0 zeros ++ removelast [1; 3; 4; 6; 5; 2].
Proof.
  split; [reflexivity|]. split; [vm_compute; reflexivity|].
  split; [reflexivity|].
  eexists. split; [vm_compute; left; reflexivity|].
  simpl. repeat split.
  intros zeros H. apply (f_equal (@length nat)) in H.
  rewrite length_app, repeat_length in H. simpl in H. lia.
Qed.

(** * The decoder *)

Section DecoderFacts.

Variables Row Prob : Type.
Variable gtb : Prob -> Prob -> bool.
Variable predict : list Row -> list nat -> list (list Prob).
Variable tokenizer : Tokenizer.
Variable max_length : nat.
Variable feature : list Row.

Local Abbreviation next :=
  (next_word_of gtb predict tokenizer max_length feature).
Local Abbreviation dloop :=
  (decode_loop gtb predict tokenizer max_length feature).
Local Abbreviation sample :=
  (sample_caption gtb predict tokenizer max_length feature).

Lemma assoc_in (K V : Type) (eqb : K -> K -> bool) (k : K)
  (d : list (K * V)) (v : V) :
  assoc eqb k d = Some v -> exists k', In (k', v) d.
Proof.
  induction d as [|[k' v'] d IH]; simpl; [discriminate|].
  destruct (eqb k k').
  - intro H; injection H as ->. eauto.
  - intro H. destruct (IH H) as [k0 Hk]. eauto.
Qed.

Lemma decode_loop_step (fuel : nat) (caption : str) (picked : list str) :
  dloop (S fuel) caption picked
  = match next caption with
    | Raise e => Raised e
    | Ok next_word =>
        if str_eqb next_word endseq
           || (max_length <=? length (split (caption ++ space :: next_word)))
        then Returned (caption ++ space :: next_word, picked ++ [next_word])
        else dloop fuel (caption ++ space :: next_word)
                   (picked ++ [next_word])
    end.
Proof. reflexivity. Qed.

Section SingleWords.

Hypothesis words_are_tokens : single_word_vocabulary tokenizer.

Lemma next_word_token (caption w : str) :
  next caption = Ok w -> is_token w = true.
Proof.
  unfold next_word_of. intro H.
  apply bind_ok in H as (padded & _ & H).
  apply bind_ok in H as (pred_Y & _ & H).
  apply bind_ok in H as (i & _ & H).
  apply of_option_ok, assoc_in in H as [k Hk].
  unfold single_word_vocabulary in words_are_tokens.
  rewrite Forall_forall in words_are_tokens.
  exact (words_are_tokens _ Hk).
Qed.

Lemma appended_word_count (caption w : str) :
  is_token w = true ->
  length (split (caption ++ space :: w)) = ntok false caption + 1.
Proof.
  intro H. rewrite split_length, ntok_app_space, (ntok_token _ H).
  reflexivity.
Qed.

(** What the loop returns: the caption it started from, followed by the
    words it picked, one per iteration, each after a space; it did not go
    past an iteration that met the stop condition, and met it at the
    last. *)
Lemma decode_loop_returns (fuel : nat) :
  forall (caption : str) (picked : list str) (c : str) (ws : list str),
    dloop fuel caption picked = Returned (c, ws) ->
    exists new tail,
      ws = picked ++ new
      /\ c = caption ++ space :: tail
      /\ ntok false tail = length new
      /\ 1 <= length new <= Nat.max 1 (max_length - ntok false caption)
      /\ (last new [] = endseq
          \/ max_length <= ntok false caption + length new)
      /\ (forall j, S j < length new ->
                    nth j new [] <> endseq
                    /\ ntok false caption + S j < max_length).
Proof.
  induction fuel as [|fuel IH]; intros caption picked c ws; [discriminate|].
  rewrite decode_loop_step.
  destruct (next caption) as [w|e] eqn:Hn; [|discriminate].
  pose proof (next_word_token _ Hn) as Hw.
  rewrite (appended_word_count caption w Hw).
  destruct (str_eqb w endseq
            || (max_length <=? ntok false caption + 1)) eqn:Hstop.
  - intro H; injection H as <- <-.
    exists [w], w.
    split; [reflexivity|]. split; [reflexivity|].
    split; [apply ntok_token, Hw|].
    split; [simpl length; lia|].
    split.
    + apply orb_true_iff in Hstop as [Hs|Hs].
      * left. apply str_eqb_eq, Hs.
      * right. apply Nat.leb_le, Hs.
    + intros j Hj. simpl in Hj. lia.
  - apply orb_false_iff in Hstop as [Hne Hlt].
    apply Nat.leb_gt in Hlt.
    intro H. apply IH in H
      as (new & tail & -> & -> & Htail & [Hlo Hhi] & Hlast & Hearly).
    assert (Hcount : ntok false (caption ++ space :: w)
                     = ntok false caption + 1).
    { rewrite ntok_app_space, (ntok_token _ Hw). reflexivity. }
    rewrite Hcount in *.
    exists (w :: new), (w ++ space :: tail).
    split; [rewrite <- app_assoc; reflexivity|].
    split; [rewrite <- app_assoc; reflexivity|].
    split; [rewrite ntok_app_space, (ntok_token _ Hw), Htail;
            reflexivity|].
    split; [simpl length; lia|].
    split.
    + destruct new as [|w2 new]; [simpl in Hlo; lia|].
      destruct Hlast as [Hl|Hl];
        [left; exact Hl | right; simpl length in *; lia].
    + intros [|j] Hj; simpl in Hj.
      * split; [|lia]. simpl. intro E.
        apply str_eqb_eq in E. congruence.
      * destruct (Hearly j ltac:(lia)) as [H1 H2].
        split; [exact H1 | lia].
Qed.

(** The loop is over within [max 1 (max_length - words so far)]
    iterations. *)
Lemma decode_loop_ends (fuel : nat) :
  forall (caption : str) (picked : list str),
    Nat.max 1 (max_length - ntok false caption) <= fuel ->
    dloop fuel caption picked <> OutOfFuel.
Proof.
  induction fuel as [|fuel IH]; intros caption picked Hf; [lia|].
  rewrite decode_loop_step.
  destruct (next caption) as [w|e] eqn:Hn; [|discriminate].
  pose proof (next_word_token _ Hn) as Hw.
  rewrite (appended_word_count caption w Hw).
  destruct (str_eqb w endseq
            || (max_length <=? ntok false caption + 1)) eqn:Hstop;
    [discriminate|].
  apply orb_false_iff in Hstop as [_ Hlt]. apply Nat.leb_gt in Hlt.
  apply IH.
  rewrite ntok_app_space, (ntok_token _ Hw). lia.
Qed.

Lemma decode_loop_total (fuel : nat) :
  (forall caption, exists w, next caption = Ok w) ->
  forall (caption : str) (picked : list str),
    Nat.max 1 (max_length - ntok false caption) <= fuel ->
    exists c ws, dloop fuel caption picked = Returned (c, ws).
Proof.
  intro Hnext.
  induction fuel as [|fuel IH]; intros caption picked Hf; [lia|].
  rewrite decode_loop_step.
  destruct (Hnext caption) as [w Hn]. rewrite Hn.
  pose proof (next_word_token _ Hn) as Hw.
  rewrite (appended_word_count caption w Hw).
  destruct (str_eqb w endseq
            || (max_length <=? ntok false caption + 1)) eqn:Hstop;
    [eauto|].
  apply orb_false_iff in Hstop as [_ Hlt]. apply Nat.leb_gt in Hlt.
  apply IH.
  rewrite ntok_app_space, (ntok_token _ Hw). lia.
Qed.

Lemma startseq_one_word : ntok false startseq = 1.
Proof. reflexivity. Qed.

Lemma decode_loop_raises (fuel : nat) :
  forall (caption : str) (picked : list str) (e : exn),
    dloop fuel caption picked = Raised e ->
    exists caption', next caption' = Raise e.
Proof.
  induction fuel as [|fuel IH]; intros caption picked e; [discriminate|].
  rewrite decode_loop_step.
  destruct (next caption) as [w|e'] eqn:Hn.
  - destruct (str_eqb w endseq
              || (max_length
                  <=? length (split (caption ++ space :: w))));
      [discriminate | apply IH].
  - intro H; injection H as <-. eauto.
Qed.

(** C2, as the code has it. With a vocabulary of whitespace-free words, the
    loop is over within [max 1 (max_length - 1)] iterations, so within
    [max_length] when that is at least 1: it returns after the first
    iteration that picked [endseq] or brought the caption to [max_length]
    words, unless an iteration raised before (an arg-max without entry in
    [index_word] raises [KeyError]); it returns whenever every iteration
    finds its word. *)
Theorem decode_loop_stops (fuel : nat) :
  Nat.max 1 (max_length - 1) <= fuel ->
  ((exists e caption', dloop fuel startseq [] = Raised e
                       /\ next caption' = Raise e)
   \/ exists caption picked,
        dloop fuel startseq [] = Returned (caption, picked)
        /\ 1 <= length picked <= Nat.max 1 (max_length - 1)
        /\ (1 <= max_length -> length picked <= max_length)
        /\ length (split caption) = 1 + length picked
        /\ (last picked [] = endseq
            \/ max_length <= length (split caption))
        /\ (forall j, S j < length picked ->
                      nth j picked [] <> endseq /\ 2 + j < max_length))
  /\ ((forall caption, exists w, next caption = Ok w) ->
      exists caption picked,
        dloop fuel startseq [] = Returned (caption, picked)).
Proof.
  intro Hf. split.
  - destruct (dloop fuel startseq []) as [[c ws]|e|] eqn:Hd.
    + right. exists c, ws. split; [reflexivity|].
      apply decode_loop_returns in Hd
        as (new & tail & -> & -> & Htail & [Hlo Hhi] & Hlast & Hearly).
      rewrite startseq_one_word in *. change ([] ++ new) with new.
      assert (Hsplit : length (split (startseq ++ space :: tail))
                       = 1 + length new).
      { rewrite split_length, ntok_app_space, Htail. reflexivity. }
      rewrite Hsplit.
      split; [lia|]. split; [lia|]. split; [reflexivity|].
      split; [destruct Hlast; [left; assumption | right; lia]|].
      intros j Hj. destruct (Hearly j Hj). split; [assumption | lia].
    + left. destruct (decode_loop_raises _ _ _ Hd) as [c' Hc']. eauto.
    + exfalso. eapply decode_loop_ends; [|exact Hd].
      rewrite startseq_one_word. exact Hf.
  - intro Hnext. apply decode_loop_total; [exact Hnext|].
    rewrite startseq_one_word. exact Hf.
Qed.

Lemma strip_sentinels_count (tail : str) :
  ntok false (strip_sentinels (startseq ++ space :: tail))
  <= ntok false tail.
Proof.
  unfold strip_sentinels.
  eapply Nat.le_trans; [apply replace_ntok; discriminate|].
  change (startseq ++ space :: tail) with (py "startseq " ++ tail).
  apply replace_prefix_ntok. discriminate.
Qed.

(** C3, as the code has it. With a vocabulary of whitespace-free words, the
    caption [sample_caption] returns has at most [max 1 (max_length - 1)]
    words, that is [max_length - 1] when [max_length >= 2]; and it does
    return one whenever every iteration finds its word. *)
Theorem sample_caption_length :
  (forall fuel c,
      sample fuel = Returned c ->
      length (split c) <= Nat.max 1 (max_length - 1)
      /\ (2 <= max_length -> length (split c) <= max_length - 1))
  /\ (forall fuel,
        (forall caption, exists w, next caption = Ok w) ->
        Nat.max 1 (max_length - 1) <= fuel ->
        exists c, sample fuel = Returned c).
Proof.
  split.
  - intros fuel c. unfold sample_caption.
    destruct (dloop fuel startseq []) as [[caption ws]|e|] eqn:Hd;
      try discriminate.
    intro H; injection H as <-.
    apply decode_loop_returns in Hd
      as (new & tail & _ & -> & Htail & [Hlo Hhi] & _).
    rewrite startseq_one_word in Hhi.
    pose proof (strip_sentinels_count tail) as Hs.
    rewrite split_length. lia.
  - intros fuel Hnext Hf. unfold sample_caption.
    destruct (decode_loop_total Hnext startseq []
                (fuel := fuel)) as (c & ws & Hd).
    + rewrite startseq_one_word. exact Hf.
    + rewrite Hd. eauto.
Qed.

End SingleWords.

(** C4, what the code does. When the first iteration picks [endseq], the
    loop stops with the caption "startseq endseq"; deleting "startseq "
    leaves "endseq", where " endseq" does not occur: [sample_caption]
    returns "endseq", not the empty string. *)
Theorem sample_caption_endseq_first (fuel : nat) :
  next startseq = Ok endseq ->
  sample (S fuel) = Returned (py "endseq").
Proof.
  intro H. unfold sample_caption.
  rewrite decode_loop_step, H.
  replace (str_eqb endseq endseq) with true by reflexivity.
  reflexivity.
Qed.


End DecoderFacts.

Module DecoderScenario.

Import Scenario.

Lemma words_are_tokens : single_word_vocabulary tokenizer.
Proof. repeat constructor. Qed.

(** The model that is certain of [dog] finds its word at every
    iteration. *)
Lemma dog_always_found (caption : str) :
  exists w,
    next_word_of greater (certain 3) tokenizer 4 [1] caption = Ok w.
Proof.
  unfold next_word_of.
  destruct (pad_sequences_ok (texts_to_sequences tokenizer caption)
              (m := 4) ltac:(lia)) as [padded Hp].
  rewrite Hp. pose proof (pad_sequences_length _ _ Hp) as Hlen.
  destruct padded as [|a [|b [|c [|d [|e padded]]]]]; try discriminate.
  eexists. reflexivity.
Qed.

Lemma cr_always_found (caption : str) :
  next_word_of greater (certain 1) cr_tokenizer 3 [1] caption = Ok [cr].
Proof.
  unfold next_word_of.
  destruct (pad_sequences_ok (texts_to_sequences cr_tokenizer caption)
              (m := 3) ltac:(lia)) as [padded Hp].
  rewrite Hp. pose proof (pad_sequences_length _ _ Hp) as Hlen.
  destruct padded as [|a [|b [|c [|d padded]]]]; try discriminate.
  reflexivity.
Qed.

(** Why the words have to be whitespace-free: when the model keeps
    selecting the carriage-return word, the caption never counts more than
    one word and the loop never stops. *)
Lemma whitespace_word_never_stops (fuel : nat) :
  forall (caption : str) (picked : list str),
    ntok false caption = 1 ->
    decode_loop greater (certain 1) cr_tokenizer 3 [1] fuel caption picked
    = OutOfFuel.
Proof.
  induction fuel as [|fuel IH]; intros caption picked Hc; [reflexivity|].
  rewrite decode_loop_step, cr_always_found.
  assert (Hn : ntok false (caption ++ space :: [cr]) = 1)
    by (rewrite ntok_app_space, Hc; reflexivity).
  rewrite split_length, Hn.
  replace (str_eqb [cr] endseq || (3 <=? 1)) with false by reflexivity.
  apply IH, Hn.
Qed.

End DecoderScenario.

(** The model certain of [dog], [max_length = 4]: the loop returns with
    three iterations of fuel. *)
Lemma decode_loop_stops_witness :
  exists caption picked,
    decode_loop Scenario.greater (Scenario.certain 3) Scenario.tokenizer 4
      [1] 3 startseq []
    = Returned (caption, picked).
Proof.
  apply (@decode_loop_stops nat nat Scenario.greater (Scenario.certain 3)
           Scenario.tokenizer 4 [1] DecoderScenario.words_are_tokens 3).
  - vm_compute. lia.
  - exact DecoderScenario.dog_always_found.
Defined.

(** The model certain of id 0, which [index_word] does not hold: the first
    iteration raises [KeyError], whatever the fuel; the loop reaches neither
    [endseq] nor the length bound. *)
Lemma unknown_id_raises :
  assoc Nat.eqb 0 (index_word Scenario.tokenizer) = None
  /\ next_word_of Scenario.greater (Scenario.certain 0) Scenario.tokenizer 4
       [1] startseq
     = Raise KeyError
  /\ (forall fuel,
        decode_loop Scenario.greater (Scenario.certain 0) Scenario.tokenizer
          4 [1] (S fuel) startseq []
        = Raised KeyError)
  /\ Scenario.decoder 0 4 4 = Raised KeyError.
Proof.
  split; [reflexivity|]. split; [reflexivity|]. split; [|reflexivity].
  intro fuel. rewrite decode_loop_step. reflexivity.
Qed.

(** The same model: the caption returned has three words. *)
Lemma sample_caption_length_witness :
  Scenario.decoder 3 4 3 = Returned (py "dog dog dog")
  /\ length (split (py "dog dog dog")) <= 3.
Proof.
  split; [vm_compute; reflexivity|].
  destruct (@sample_caption_length nat nat Scenario.greater
              (Scenario.certain 3) Scenario.tokenizer 4 [1]
              DecoderScenario.words_are_tokens) as [Hbound _].
  destruct (Hbound 3 (py "dog dog dog")) as [H _].
  - vm_compute. reflexivity.
  - exact H.
Defined.

(** With [max_length = 3] and the model certain of [dog], the loop stops
    on the length bound with "startseq dog dog"; the caption returned has
    two words, one more than [max_length - 2]. *)
Lemma length_bound_leaves_one_more :
  Scenario.decoder 3 3 3 = Returned (py "dog dog")
  /\ length (split (py "dog dog")) = 2
  /\ 3 - 2 < length (split (py "dog dog")).
Proof. vm_compute. repeat split; lia. Qed.

(** The model certain of [endseq] (id 2): the caption returned is
    "endseq". *)
Lemma sample_caption_endseq_first_witness :
  Scenario.decoder 2 4 1 = Returned (py "endseq").
Proof.
  apply (@sample_caption_endseq_first nat nat Scenario.greater
           (Scenario.certain 2) Scenario.tokenizer 4 [1] 0).
  vm_compute. reflexivity.
Defined.

(** C10. From the captions "a dog runs" and "a dog runs fast" with
    threshold 2: [a], [dog] and [runs] are counted twice and kept, [fast]
    is counted once and dropped, [vocab_size] is 4, and the tokenizer made
    with that size encodes the three kept words only. *)
Theorem vocabulary_of_two_captions :
  word_counts (create_tokenizer Scenario.two_captions None)
  = [(py "a", 2); (py "dog", 2); (py "runs", 2); (py "fast", 1)]
  /\ build_vocabulary Scenario.two_captions 2
     = (map py ["a"; "dog"; "runs"]%string, 4,
        create_tokenizer Scenario.two_captions (Some 4))
  /\ 4 = length (map py ["a"; "dog"; "runs"]%string) + 1
  /\ filter (in_vocabulary (create_tokenizer Scenario.two_captions (Some 4)))
            (map py ["a"; "dog"; "runs"; "fast"]%string)
     = map py ["a"; "dog"; "runs"]%string
  /\ texts_to_sequences (create_tokenizer Scenario.two_captions (Some 4))
       (py "a dog runs fast")
     = [1; 2; 3].
Proof. vm_compute. repeat split. Qed.

(** * The caption dictionary *)

Module CaptionDictionaryFacts.

Lemma split_sep_nonempty (sep : ascii) (s : str) : split_sep sep s <> [].
Proof.
  destruct s as [|c s]; simpl; [discriminate|].
  destruct (Ascii.eqb c sep); [discriminate|].
  destruct (split_sep sep s); discriminate.
Qed.

Lemma split_sep_absent (sep : ascii) (s : str) :
  Forall (fun c => c <> sep) s -> split_sep sep s = [s].
Proof.
  induction 1 as [|c s Hc _ IH]; simpl; [reflexivity|].
  apply Ascii.eqb_neq in Hc. rewrite Hc, IH. reflexivity.
Qed.

Lemma first_piece_absent (sep : ascii) (s : str) :
  Forall (fun c => c <> sep) s -> first_piece sep s = s.
Proof. intro H. unfold first_piece. rewrite split_sep_absent; auto. Qed.

Lemma first_piece_stem (sep : ascii) (stem rest : str) :
  Forall (fun c => c <> sep) stem ->
  first_piece sep (stem ++ sep :: rest) = stem.
Proof.
  unfold first_piece. induction 1 as [|c s Hc _ IH]; simpl.
  - rewrite Ascii.eqb_refl. reflexivity.
  - apply Ascii.eqb_neq in Hc. rewrite Hc.
    destruct (split_sep sep (s ++ sep :: rest)) as [|piece pieces] eqn:E.
    + exfalso. exact (split_sep_nonempty _ _ E).
    + rewrite IH. reflexivity.
Qed.

Lemma first_piece_has_no_sep (sep : ascii) (s : str) :
  Forall (fun c => c <> sep) (first_piece sep s).
Proof.
  unfold first_piece. induction s as [|c s IH]; simpl; [constructor|].
  destruct (Ascii.eqb c sep) eqn:E; [constructor|].
  destruct (split_sep sep s) as [|piece pieces] eqn:E2.
  - exfalso. exact (split_sep_nonempty _ _ E2).
  - constructor; [apply Ascii.eqb_neq, E | exact IH].
Qed.

(** *** One line *)

Lemma caption_line_cases (d d' : dict (list str)) (line : str) :
  caption_line d line = Ok d' ->
  (line_entry line = None /\ d' = d)
  \/ exists photo_id caption,
       line_entry line = Some (photo_id, caption)
       /\ d' = append_caption photo_id caption d.
Proof.
  unfold caption_line, line_entry.
  destruct line as [|c line].
  - simpl. intro H; injection H as <-. auto.
  - replace (length (c :: line) <? 1) with false by reflexivity.
    destruct (split (c :: line)) as [|first words]; simpl; [discriminate|].
    intro H; injection H as <-. right. eauto.
Qed.

Lemma caption_line_raises (d : dict (list str)) (line : str) (e : exn) :
  caption_line d line = Raise e ->
  e = IndexError /\ line <> [] /\ split line = [].
Proof.
  unfold caption_line. destruct line as [|c line]; [discriminate|].
  replace (length (c :: line) <? 1) with false by reflexivity.
  destruct (split (c :: line)) as [|first words]; simpl; [|discriminate].
  intro H; injection H as <-. repeat split. discriminate.
Qed.

Lemma caption_line_blank (d : dict (list str)) (line : str) :
  line <> [] -> split line = [] -> caption_line d line = Raise IndexError.
Proof.
  intros Hne Hs. unfold caption_line. destruct line as [|c line];
    [congruence|].
  replace (length (c :: line) <? 1) with false by reflexivity.
  rewrite Hs. reflexivity.
Qed.

Lemma caption_line_ok (d : dict (list str)) (line : str) :
  line = [] \/ split line <> [] -> exists d', caption_line d line = Ok d'.
Proof.
  intro H. unfold caption_line. destruct line as [|c line]; [simpl; eauto|].
  replace (length (c :: line) <? 1) with false by reflexivity.
  destruct H as [H|H]; [discriminate|].
  destruct (split (c :: line)); [congruence | simpl; eauto].
Qed.

(** *** The loop *)

Lemma lines_loop_raised (lines : list str) (e : exn) :
  lines_loop lines (Raise e) = Raise e.
Proof. induction lines as [|l lines IH]; simpl; auto. Qed.

Lemma lines_loop_cons (line : str) (lines : list str) (d : dict (list str)) :
  lines_loop (line :: lines) (Ok d) = lines_loop lines (caption_line d line).
Proof. reflexivity. Qed.

Lemma lines_loop_invariant (P : dict (list str) -> Prop) :
  (forall d line d', P d -> caption_line d line = Ok d' -> P d') ->
  forall lines d0 d, P d0 -> lines_loop lines (Ok d0) = Ok d -> P d.
Proof.
  intros Hstep. induction lines as [|line lines IH]; intros d0 d H0.
  - simpl. intro H; injection H as <-. exact H0.
  - rewrite lines_loop_cons.
    destruct (caption_line d0 line) as [d1|e] eqn:Hl.
    + apply IH. eapply Hstep; eassumption.
    + rewrite lines_loop_raised. discriminate.
Qed.

(** *** Keys and lists *)

Lemma append_caption_in_keys (k photo_id caption : str)
  (d : dict (list str)) :
  In k (keys (append_caption photo_id caption d))
  <-> k = photo_id \/ In k (keys d).
Proof.
  induction d as [|[k' l] d IH]; simpl.
  - intuition congruence.
  - destruct (str_eqb photo_id k') eqn:E; simpl.
    + apply str_eqb_eq in E. subst. intuition.
    + rewrite IH. intuition.
Qed.

Lemma append_caption_keys (photo_id caption : str) (d : dict (list str)) :
  NoDup (keys d) -> NoDup (keys (append_caption photo_id caption d)).
Proof.
  induction d as [|[k' l] d IH]; simpl; intro H.
  - repeat constructor. intros [].
  - inversion H as [|? ? Hnotin Hd]; subst.
    destruct (str_eqb photo_id k') eqn:E; simpl.
    + constructor; assumption.
    + constructor; [|apply IH, Hd].
      rewrite append_caption_in_keys. intros [Heq|Hin]; [|contradiction].
      assert (Hr : str_eqb photo_id k' = true)
        by (apply str_eqb_eq; congruence).
      congruence.
Qed.

Lemma append_caption_lists (photo_id caption : str) (d : dict (list str)) :
  Forall (fun entry => snd entry <> []) d ->
  Forall (fun entry => snd entry <> []) (append_caption photo_id caption d).
Proof.
  induction 1 as [|[k' l] d Hl Hd IH]; simpl.
  - repeat constructor. discriminate.
  - destruct (str_eqb photo_id k'); constructor; try assumption.
    simpl. destruct l; discriminate.
Qed.

Lemma lookup_append_caption (k photo_id caption : str)
  (d : dict (list str)) :
  lookup k (append_caption photo_id caption d)
  = if str_eqb k photo_id
    then Some (match lookup k d with Some l => l | None => [] end
               ++ [caption])
    else lookup k d.
Proof.
  unfold lookup. induction d as [|[k' l] d IH]; simpl.
  - destruct (str_eqb k photo_id); reflexivity.
  - destruct (str_eqb photo_id k') eqn:E; simpl.
    + apply str_eqb_eq in E. subst k'.
      destruct (str_eqb k photo_id); reflexivity.
    + destruct (str_eqb k k') eqn:E2.
      * apply str_eqb_eq in E2. subst k'.
        destruct (str_eqb k photo_id) eqn:E3; [|reflexivity].
        apply str_eqb_eq in E3. subst k.
        assert (str_eqb photo_id photo_id = true)
          by (apply str_eqb_eq; reflexivity).
        congruence.
      * exact IH.
Qed.

End CaptionDictionaryFacts.

Import CaptionDictionaryFacts.

Lemma lines_loop_lookup (k : str) (lines : list str) :
  forall d0 d,
    lines_loop lines (Ok d0) = Ok d ->
    lookup k d
    = match captions_of k lines with
      | [] => lookup k d0
      | l => Some (match lookup k d0 with Some l0 => l0 | None => [] end
                   ++ l)
      end.
Proof.
  induction lines as [|line lines IH]; intros d0 d.
  - simpl. intro H; injection H as <-. reflexivity.
  - rewrite lines_loop_cons.
    destruct (caption_line d0 line) as [d1|e] eqn:Hl.
    2:{ rewrite lines_loop_raised. discriminate. }
    intro H. rewrite (IH _ _ H). clear IH H.
    unfold captions_of. simpl.
    fold (captions_of k lines).
    apply caption_line_cases in Hl
      as [[-> ->]|(photo_id & caption & -> & ->)]; [reflexivity|].
    rewrite lookup_append_caption.
    destruct (str_eqb k photo_id); simpl; [|reflexivity].
    destruct (captions_of k lines); [reflexivity|].
    rewrite <- app_assoc. reflexivity.
Qed.

Lemma lines_loop_blank (lines : list str) :
  forall d0,
    Exists (fun line => line <> [] /\ split line = []) lines ->
    lines_loop lines (Ok d0) = Raise IndexError.
Proof.
  induction lines as [|line lines IH]; intros d0 H;
    [inversion H|].
  rewrite lines_loop_cons.
  destruct (caption_line d0 line) as [d1|e] eqn:Hl.
  - inversion H as [? ? [Hne Hs]|? ? Hrest]; subst.
    + rewrite (caption_line_blank d0 Hne Hs) in Hl. discriminate.
    + apply IH, Hrest.
  - apply caption_line_raises in Hl as [-> _]. apply lines_loop_raised.
Qed.

Lemma lines_loop_ok (lines : list str) :
  forall d0,
    Forall (fun line => line = [] \/ split line <> []) lines ->
    exists d, lines_loop lines (Ok d0) = Ok d.
Proof.
  induction lines as [|line lines IH]; intros d0 H; [simpl; eauto|].
  inversion H as [|? ? Hline Hrest]; subst.
  rewrite lines_loop_cons.
  destruct (caption_line_ok d0 Hline) as [d1 ->]. apply IH, Hrest.
Qed.

(** X1. The dictionary [caption_dictionary] returns has no key twice, no
    key with a dot, and at least one caption under every key. *)
Theorem caption_dictionary_well_formed (raw_caption : str)
  (d : dict (list str)) :
  caption_dictionary raw_caption = Ok d ->
  NoDup (keys d)
  /\ Forall (fun entry => snd entry <> []) d
  /\ Forall (fun k => Forall (fun c => c <> dot) k) (keys d).
Proof.
  unfold caption_dictionary.
  apply (lines_loop_invariant
           (fun d => NoDup (keys d)
                     /\ Forall (fun entry => snd entry <> []) d
                     /\ Forall (fun k => Forall (fun c => c <> dot) k)
                               (keys d))).
  - intros d0 line d1 (Hk & Hl & Hdot) Hline.
    apply caption_line_cases in Hline
      as [[_ ->]|(photo_id & caption & Hentry & ->)]; [auto|].
    split; [apply append_caption_keys, Hk|].
    split; [apply append_caption_lists, Hl|].
    apply Forall_forall. intros k Hin.
    apply append_caption_in_keys in Hin as [->|Hin].
    + unfold line_entry in Hentry.
      destruct (split line) as [|first words]; [discriminate|].
      injection Hentry as <- _. apply first_piece_has_no_sep.
    + rewrite Forall_forall in Hdot. auto.
  - repeat split; constructor.
Qed.

(** The caption file of the scenario gives two keys. *)
Lemma caption_dictionary_well_formed_witness :
  caption_dictionary Pipeline.raw_caption
  = Ok [ (py "a", [py "A dog runs ."; py "The dog , fast"]);
         (py "b", [py "Two cats sit"]) ]
  /\ NoDup (map py ["a"; "b"]%string).
Proof.
  split; [vm_compute; reflexivity|].
  apply (@caption_dictionary_well_formed Pipeline.raw_caption
           [ (py "a", [py "A dog runs ."; py "The dog , fast"]);
             (py "b", [py "Two cats sit"]) ]).
  vm_compute. reflexivity.
Defined.

(** X2. A line that is not empty but holds only whitespace makes
    [caption_dictionary] raise [IndexError] ([tmp[0]] of an empty list),
    wherever it stands; without such a line a dictionary is returned. *)
Theorem caption_dictionary_blank_line (raw_caption : str) :
  (Exists (fun line => line <> [] /\ split line = [])
          (split_sep newline raw_caption) ->
   caption_dictionary raw_caption = Raise IndexError)
  /\ (Forall (fun line => line = [] \/ split line <> [])
             (split_sep newline raw_caption) ->
      exists d, caption_dictionary raw_caption = Ok d).
Proof.
  unfold caption_dictionary. split.
  - apply lines_loop_blank.
  - apply lines_loop_ok.
Qed.

(** X3. Under every key the dictionary holds the captions of the lines
    with that key, all of them and in the order of the lines; a key no
    line has is absent. *)
Theorem caption_dictionary_groups (raw_caption : str) (d : dict (list str))
  (k : str) :
  caption_dictionary raw_caption = Ok d ->
  lookup k d
  = match captions_of k (split_sep newline raw_caption) with
    | [] => None
    | l => Some l
    end.
Proof.
  unfold caption_dictionary. intro H.
  rewrite (@lines_loop_lookup k _ _ _ H). reflexivity.
Qed.

Lemma caption_dictionary_groups_witness :
  captions_of (py "a") (split_sep newline Pipeline.raw_caption)
  = [py "A dog runs ."; py "The dog , fast"]
  /\ lookup (py "a")
       [ (py "a", [py "A dog runs ."; py "The dog , fast"]);
         (py "b", [py "Two cats sit"]) ]
     = Some [py "A dog runs ."; py "The dog , fast"].
Proof.
  split; [vm_compute; reflexivity|].
  rewrite (@caption_dictionary_groups Pipeline.raw_caption
             [ (py "a", [py "A dog runs ."; py "The dog , fast"]);
               (py "b", [py "Two cats sit"]) ] (py "a")).
  - vm_compute. reflexivity.
  - vm_compute. reflexivity.
Defined.

Lemma dataset_lines (text : str) :
  dataset text
  = map (first_piece dot)
        (filter (fun line => negb (length line <? 1))
                (split_sep newline text)).
Proof.
  unfold dataset.
  assert (H : forall lines ids,
             fold_left
               (fun ids line =>
                  if length line <? 1 then ids
                  else ids ++ [first_piece dot line]) lines ids
             = ids ++ map (first_piece dot)
                        (filter (fun line => negb (length line <? 1))
                                lines)).
  { induction lines as [|line lines IH]; intro ids; simpl.
    - rewrite app_nil_r. reflexivity.
    - rewrite IH. destruct (length line <? 1); simpl; [reflexivity|].
      rewrite <- app_assoc. reflexivity. }
  apply (H _ []).
Qed.

(** X4. The three tables get the same key for the same file name: with
    [stem] free of dots, the name [stem.ext] is listed by [dataset] as
    [stem], a caption line starting with that name files its caption (the
    words after the name, joined by single spaces) under [stem], and the
    identifier of [feature_extractions] is [stem]. *)
Theorem same_key_from_file_name (stem ext : str) :
  Forall (fun c => c <> dot) stem ->
  is_token (stem ++ dot :: ext) = true ->
  (forall text,
      In (stem ++ dot :: ext) (split_sep newline text) ->
      In stem (dataset text))
  /\ (forall d text,
        caption_line d ((stem ++ dot :: ext) ++ tab :: text)
        = Ok (append_caption stem (join (split text)) d))
  /\ first_piece dot (stem ++ dot :: ext) = stem.
Proof.
  intros Hstem Htok.
  pose proof (first_piece_stem ext Hstem) as Hkey.
  split; [|split; [|exact Hkey]].
  - intros text Hin. rewrite dataset_lines. rewrite <- Hkey.
    apply in_map, filter_In. split; [exact Hin|].
    destruct stem; reflexivity.
  - intros d text. unfold caption_line.
    replace (length ((stem ++ dot :: ext) ++ tab :: text) <? 1) with false
      by (destruct stem; reflexivity).
    rewrite (split_token_then (stem ++ dot :: ext) (tab :: text) Htok
               eq_refl).
    simpl. rewrite Hkey. reflexivity.
Qed.

Lemma same_key_from_file_name_witness :
  dataset Pipeline.train_text = [py "b"; py "a"]
  /\ In (py "a") (dataset Pipeline.train_text)
  /\ first_piece dot (py "a.jpg") = py "a".
Proof.
  split; [vm_compute; reflexivity|].
  destruct (@same_key_from_file_name (py "a") (py "jpg"))
    as (Hds & _ & Hkey).
  - repeat constructor; discriminate.
  - reflexivity.
  - split; [|exact Hkey].
    apply Hds. vm_compute. auto.
Defined.

(** * The loaders *)

Module LoaderFacts.

Lemma str_eqb_refl (k : str) : str_eqb k k = true.
Proof. apply str_eqb_eq. reflexivity. Qed.

Lemma str_eqb_neq (a b : str) : str_eqb a b = false <-> a <> b.
Proof.
  unfold str_eqb. destruct (list_eq_dec ascii_dec a b); split; congruence.
Qed.


Lemma dict_set_in_keys (V : Type) (k' k : str) (v : V) (d : dict V) :
  In k' (keys (dict_set k v d)) <-> k' = k \/ In k' (keys d).
Proof.
  induction d as [|[k0 v0] d IH]; simpl.
  - intuition congruence.
  - destruct (str_eqb k k0) eqn:E; simpl.
    + apply str_eqb_eq in E. subst. intuition.
    + rewrite IH. intuition.
Qed.

Lemma dict_set_keys (V : Type) (k : str) (v : V) (d : dict V) :
  NoDup (keys d) -> NoDup (keys (dict_set k v d)).
Proof.
  induction d as [|[k0 v0] d IH]; simpl; intro H.
  - repeat constructor. intros [].
  - inversion H as [|? ? Hnotin Hd]; subst.
    destruct (str_eqb k k0) eqn:E; simpl.
    + constructor; assumption.
    + constructor; [|apply IH, Hd].
      rewrite dict_set_in_keys. intros [Heq|Hin]; [|contradiction].
      apply str_eqb_neq in E. congruence.
Qed.

Lemma dict_set_same_keys (V W : Type) (k : str) (v : V) (w : W)
  (d : dict V) :
  forall d' : dict W,
    keys d = keys d' -> keys (dict_set k v d) = keys (dict_set k w d').
Proof.
  induction d as [|[k0 v0] d IH]; intros [|[k1 w1] d'] H;
    simpl in H; try discriminate; [reflexivity|].
  injection H as <- H. simpl.
  destruct (str_eqb k k0); simpl; f_equal; auto.
Qed.

Lemma lookup_in_keys (V : Type) (k : str) (d : dict V) (v : V) :
  lookup k d = Some v -> In k (keys d).
Proof.
  unfold lookup. induction d as [|[k0 v0] d IH]; simpl; [discriminate|].
  destruct (str_eqb k k0) eqn:E.
  - apply str_eqb_eq in E. auto.
  - auto.
Qed.


(** *** The comprehension *)

Lemma select_loop_raised (V : Type) (stored : dict V) (ids : list str)
  (e : exn) :
  select_loop stored ids (Raise e) = Raise e.
Proof. induction ids as [|k ids IH]; simpl; auto. Qed.

Lemma select_loop_cons (V : Type) (stored : dict V) (k : str)
  (ids : list str) (d : dict V) :
  select_loop stored (k :: ids) (Ok d)
  = select_loop stored ids
      (v <- of_option KeyError (lookup k stored) ;; Ok (dict_set k v d)).
Proof. reflexivity. Qed.

Lemma select_loop_step (V : Type) (stored : dict V) (k : str)
  (ids : list str) (d0 d : dict V) :
  select_loop stored (k :: ids) (Ok d0) = Ok d ->
  exists v, lookup k stored = Some v
            /\ select_loop stored ids (Ok (dict_set k v d0)) = Ok d.
Proof.
  rewrite select_loop_cons.
  destruct (lookup k stored) as [v|]; simpl.
  - eauto.
  - rewrite select_loop_raised. discriminate.
Qed.

Lemma select_loop_keys (V : Type) (stored : dict V) (ids : list str) :
  forall d0 d,
    select_loop stored ids (Ok d0) = Ok d ->
    (forall k, In k (keys d) <-> In k (keys d0) \/ In k ids)
    /\ (NoDup (keys d0) -> NoDup (keys d)).
Proof.
  induction ids as [|id ids IH]; intros d0 d H.
  - simpl in H. injection H as <-. split; [|auto].
    intro k. simpl. tauto.
  - apply select_loop_step in H as (v & _ & H).
    destruct (IH _ _ H) as [Hin Hnd]. split.
    + intro k. rewrite Hin, dict_set_in_keys. simpl. intuition.
    + intro H0. apply Hnd, dict_set_keys, H0.
Qed.


Lemma select_loop_same_keys (V W : Type) (stored : dict V)
  (stored' : dict W) (ids : list str) :
  forall d0 d0' d d',
    keys d0 = keys d0' ->
    select_loop stored ids (Ok d0) = Ok d ->
    select_loop stored' ids (Ok d0') = Ok d' ->
    keys d = keys d'.
Proof.
  induction ids as [|id ids IH]; intros d0 d0' d d' Hk H H'.
  - simpl in H, H'. injection H as <-. injection H' as <-. exact Hk.
  - apply select_loop_step in H as (v & _ & H).
    apply select_loop_step in H' as (w & _ & H').
    eapply IH; [|exact H|exact H'].
    apply dict_set_same_keys, Hk.
Qed.

Lemma select_loop_missing (V : Type) (stored : dict V) (ids : list str) :
  forall d0,
    Exists (fun k => lookup k stored = None) ids ->
    select_loop stored ids (Ok d0) = Raise KeyError.
Proof.
  induction ids as [|id ids IH]; intros d0 H; [inversion H|].
  rewrite select_loop_cons.
  destruct (lookup id stored) as [v|] eqn:Hv; simpl.
  - inversion H as [? ? Hid|? ? Hrest]; subst; [congruence|].
    apply IH, Hrest.
  - apply select_loop_raised.
Qed.

Lemma select_loop_present (V : Type) (stored : dict V) (ids : list str) :
  forall d0,
    Forall (fun k => lookup k stored <> None) ids ->
    exists d, select_loop stored ids (Ok d0) = Ok d.
Proof.
  induction ids as [|id ids IH]; intros d0 H; [simpl; eauto|].
  inversion H as [|? ? Hid Hrest]; subst.
  rewrite select_loop_cons.
  destruct (lookup id stored) as [v|]; [|congruence].
  simpl. apply IH, Hrest.
Qed.

(** *** The wrapping *)

Lemma in_place_loop (f : str -> str) (done todo : list str) :
  fold_left
    (fun cl i =>
       match nth_error cl i with
       | Some caption => set_item cl i (f caption)
       | None => cl
       end)
    (seq (length done) (length todo)) (done ++ todo)
  = done ++ map f todo.
Proof.
  revert done; induction todo as [|c todo IH]; intro done; simpl.
  - reflexivity.
  - rewrite nth_error_app2, Nat.sub_diag by lia. simpl.
    rewrite set_item_middle.
    specialize (IH (done ++ [f c])).
    rewrite length_app, Nat.add_1_r, <- app_assoc in IH. simpl in IH.
    rewrite IH, <- app_assoc. reflexivity.
Qed.

Lemma wrap_caption_list_map (caption_list : list str) :
  wrap_caption_list caption_list = map wrap_caption caption_list.
Proof. exact (in_place_loop wrap_caption [] caption_list). Qed.

Lemma join_app_last (ts : list str) (w : str) :
  ts <> [] -> join ts ++ space :: w = join (ts ++ [w]).
Proof.
  induction ts as [|t ts IH]; [congruence|]. intros _.
  destruct ts as [|t2 ts]; [reflexivity|].
  change (join (t :: t2 :: ts)) with (t ++ space :: join (t2 :: ts)).
  change ((t :: t2 :: ts) ++ [w]) with (t :: (t2 :: ts) ++ [w]).
  assert (H : join (t :: (t2 :: ts) ++ [w])
              = t ++ space :: join ((t2 :: ts) ++ [w])) by reflexivity.
  rewrite H, <- IH by discriminate.
  rewrite <- app_assoc. reflexivity.
Qed.

(** The words of a wrapped caption: those of the caption between the two
    sentinels, also when the caption has no word. *)
Lemma wrap_caption_split (caption : str) :
  split (wrap_caption caption)
  = py "startseq" :: split caption ++ [py "endseq"].
Proof.
  unfold wrap_caption.
  change (py "startseq " ++ join (split caption) ++ py " endseq")
    with (py "startseq"
          ++ space :: (join (split caption) ++ space :: py "endseq")).
  rewrite (split_token_then (py "startseq")
             (space :: (join (split caption) ++ space :: py "endseq"))
             eq_refl isspace_space).
  f_equal. cbn [split]. rewrite isspace_space.
  pose proof (split_tokens caption) as Htok.
  destruct (split caption) as [|t ts] eqn:E.
  - reflexivity.
  - rewrite join_app_last by discriminate.
    apply split_join. apply Forall_app. split; [exact Htok|].
    repeat constructor.
Qed.

End LoaderFacts.

Import LoaderFacts.

Lemma load_captions_inv (stored : dict (list str)) (ids : list str)
  (wrapping : bool) (cd : dict (list str)) :
  load_captions stored ids wrapping = Ok cd ->
  exists d,
    select stored ids = Ok d
    /\ cd = if wrapping
            then map (fun entry => (fst entry, map wrap_caption (snd entry)))
                     d
            else d.
Proof.
  unfold load_captions. intro H.
  apply bind_ok in H as (d & Hd & H). injection H as <-.
  exists d. split; [exact Hd|].
  destruct wrapping; [|reflexivity].
  apply map_ext. intro e. rewrite wrap_caption_list_map. reflexivity.
Qed.

Lemma load_captions_keys (wrapping : bool) (cd d : dict (list str)) :
  cd = (if wrapping
        then map (fun entry => (fst entry, map wrap_caption (snd entry))) d
        else d) ->
  keys cd = keys d.
Proof.
  intros ->. destruct wrapping; [|reflexivity].
  unfold keys. rewrite map_map. reflexivity.
Qed.


(** X6. Both loaders raise [KeyError] when an identifier of the list has
    no stored entry, and return a dictionary when every identifier has
    one. *)
Theorem loaders_missing_key (Row : Type) (stored_captions : dict (list str))
  (stored_features : dict (list Row)) (ids : list str) (wrapping : bool) :
  (Exists (fun k => lookup k stored_captions = None) ids ->
   load_captions stored_captions ids wrapping = Raise KeyError)
  /\ (Forall (fun k => lookup k stored_captions <> None) ids ->
      exists cd, load_captions stored_captions ids wrapping = Ok cd)
  /\ (Exists (fun k => lookup k stored_features = None) ids ->
      load_features stored_features ids = Raise KeyError)
  /\ (Forall (fun k => lookup k stored_features <> None) ids ->
      exists fd, load_features stored_features ids = Ok fd).
Proof.
  unfold load_captions, load_features, select. repeat split.
  - intro H. erewrite select_loop_missing by exact H. reflexivity.
  - intro H. edestruct select_loop_present as [d Hd]; [exact H|].
    rewrite Hd. simpl. eauto.
  - apply select_loop_missing.
  - apply select_loop_present.
Qed.




(** * The maximum length of the main script *)

Module MaxLengthFacts.

Lemma caption_to_list_map (g : str -> str) (d : dict (list str)) :
  caption_to_list (map (fun entry => (fst entry, map g (snd entry))) d)
  = map g (caption_to_list d).
Proof.
  unfold caption_to_list. induction d as [|e d IH]; simpl; [reflexivity|].
  rewrite IH, map_app. reflexivity.
Qed.

Lemma list_max_in (l : list nat) : l <> [] -> In (list_max l) l.
Proof.
  induction l as [|x l IH]; [congruence|]. intros _.
  destruct l as [|y l].
  - simpl. left. lia.
  - change (list_max (x :: y :: l)) with (Nat.max x (list_max (y :: l))).
    destruct (Nat.max_spec x (list_max (y :: l))) as [[_ E]|[_ E]];
      rewrite E.
    + right. apply IH. discriminate.
    + left. reflexivity.
Qed.

Lemma wrapped_captions_list (stored : dict (list str)) (ids : list str)
  (cd : dict (list str)) :
  load_captions stored ids true = Ok cd ->
  exists d, select stored ids = Ok d
            /\ caption_to_list cd = map wrap_caption (caption_to_list d).
Proof.
  intro H. apply load_captions_inv in H as (d & Hd & ->).
  exists d. split; [exact Hd | apply caption_to_list_map].
Qed.

Lemma wrap_caption_length (caption : str) :
  length (split (wrap_caption caption)) = length (split caption) + 2.
Proof. rewrite wrap_caption_split. simpl. rewrite length_app. simpl. lia. Qed.

(** The value of [max_length] for a wrapped dictionary with a caption:
    one less than the longest word count, which is at least 2. *)
Lemma script_max_length_value (stored : dict (list str)) (ids : list str)
  (cd : dict (list str)) :
  load_captions stored ids true = Ok cd ->
  caption_to_list cd <> [] ->
  exists m,
    script_max_length cd = Ok (Z.of_nat m)
    /\ 1 <= m
    /\ Forall (fun c => length (split c) <= S m) (caption_to_list cd)
    /\ Exists (fun c => length (split c) = S m) (caption_to_list cd).
Proof.
  intros H Hne.
  destruct (wrapped_captions_list _ _ H) as (d & _ & Hcd).
  set (lens := map (fun c => length (split c)) (caption_to_list cd)).
  assert (Hlens : lens <> []).
  { unfold lens. destruct (caption_to_list cd); [congruence|discriminate]. }
  assert (Hin : In (list_max lens)
                   (map (fun c => length (split c)) (caption_to_list cd)))
    by exact (list_max_in Hlens).
  assert (Hall : Forall (fun k => k <= list_max lens) lens)
    by (apply list_max_le; lia).
  assert (Hbig : 2 <= list_max lens).
  { apply in_map_iff in Hin as (c & Hc & Hcin).
    rewrite Hcd in Hcin. apply in_map_iff in Hcin as (c0 & <- & _).
    rewrite wrap_caption_length in Hc. lia. }
  exists (list_max lens - 1). split; [|split; [lia|split]].
  - assert (Hs : script_max_length cd
                 = Ok (Z.of_nat (list_max lens) - 1)%Z).
    { unfold script_max_length, lens.
      destruct (caption_to_list cd); [congruence | reflexivity]. }
    rewrite Hs. f_equal. lia.
  - apply Forall_forall. intros c Hc.
    rewrite Forall_forall in Hall.
    specialize (Hall (length (split c))
                  (in_map (fun c => length (split c)) _ _ Hc)).
    lia.
  - apply Exists_exists.
    apply in_map_iff in Hin as (c & Hc & Hcin).
    exists c. split; [exact Hcin | lia].
Qed.

End MaxLengthFacts.

Import MaxLengthFacts.

(** X8. For a dictionary loaded with wrapping, the [max_length] of the
    main script is one less than the word count of its longest caption and
    at least 1; every caption has at most [max_length + 1] words and one
    has exactly that many.  For a dictionary without caption, [max] of the
    empty list raises [ValueError]. *)
Theorem script_max_length_wrapped (stored : dict (list str))
  (ids : list str) (cd : dict (list str)) :
  load_captions stored ids true = Ok cd ->
  (caption_to_list cd = [] -> script_max_length cd = Raise ValueError)
  /\ (caption_to_list cd <> [] ->
      exists m,
        script_max_length cd = Ok (Z.of_nat m)
        /\ 1 <= m
        /\ Forall (fun c => length (split c) <= S m) (caption_to_list cd)
        /\ Exists (fun c => length (split c) = S m) (caption_to_list cd)).
Proof.
  intro H. split.
  - intro E. unfold script_max_length. rewrite E. reflexivity.
  - apply (script_max_length_value _ _ H).
Qed.

Lemma script_max_length_wrapped_witness :
  script_max_length
    [ (py "b", [py "startseq two cats sit endseq"]);
      (py "a", [py "startseq dog runs endseq";
                py "startseq the dog fast endseq"]) ]
  = Ok 4%Z
  /\ exists m,
       script_max_length
         [ (py "b", [py "startseq two cats sit endseq"]);
           (py "a", [py "startseq dog runs endseq";
                     py "startseq the dog fast endseq"]) ]
       = Ok (Z.of_nat m)
       /\ 1 <= m.
Proof.
  split; [vm_compute; reflexivity|].
  edestruct (@script_max_length_wrapped Pipeline.stored_captions
               (dataset Pipeline.train_text)) as [_ Hm].
  - vm_compute. reflexivity.
  - destruct Hm as (m & Hm & Hpos & _); [discriminate|].
    exists m. split; [exact Hm | exact Hpos].
Defined.

(** * Training captions and the maximum length *)

Module FitFacts.

(** What [text_to_word_sequence] makes of a space or a letter: a space
    stays, a letter becomes a character that is not whitespace. *)
Lemma keras_char (c : ascii) :
  c = space \/ isalpha_char c = true ->
  isspace (if is_filtered (lower_char c) then space else lower_char c)
  = isspace c
  /\ (isspace c = true ->
      (if is_filtered (lower_char c) then space else lower_char c) = space).
Proof.
  destruct c as [[] [] [] [] [] [] [] []]; vm_compute;
    intros [H|H]; try discriminate; split; try reflexivity;
    intro; try discriminate; reflexivity.
Qed.

Lemma ntok_map (g : ascii -> ascii) (s : str) :
  Forall (fun c => isspace (g c) = isspace c) s ->
  forall b, ntok b (map g s) = ntok b s.
Proof.
  induction 1 as [|c s Hc _ IH]; intro b; simpl; [reflexivity|].
  rewrite Hc. destruct (isspace c); rewrite IH; reflexivity.
Qed.

(** Splitting on the space and dropping the empty pieces counts the words,
    when the space is the only whitespace of the string. *)
Lemma split_sep_space_count (s : str) :
  Forall (fun c => isspace c = true -> c = space) s ->
  match split_sep space s with
  | [] => False
  | w :: ws =>
      length (filter (fun i => negb (length i =? 0)) ws) = ntok true s
      /\ length (filter (fun i => negb (length i =? 0)) (w :: ws))
         = ntok false s
  end.
Proof.
  induction 1 as [|c s Hc _ IH]; [simpl; auto|].
  cbn [split_sep ntok].
  destruct (split_sep space s) as [|w ws]; [contradiction|].
  destruct IH as [IH1 IH2].
  destruct (isspace c) eqn:E.
  - rewrite (Hc eq_refl), Ascii.eqb_refl. simpl in *. auto.
  - assert (Hne : Ascii.eqb c space = false).
    { apply Ascii.eqb_neq. intros ->. discriminate. }
    rewrite Hne. simpl in *. rewrite IH1. auto.
Qed.

Lemma text_to_word_sequence_length (s : str) :
  letters_and_spaces s ->
  length (text_to_word_sequence s) = length (split s).
Proof.
  intro H. unfold text_to_word_sequence, lower. rewrite map_map.
  set (g := fun c => if is_filtered (lower_char c) then space
                     else lower_char c).
  assert (Hsp : Forall (fun c => isspace c = true -> c = space) (map g s)).
  { apply Forall_forall. intros c' Hin.
    apply in_map_iff in Hin as (c & <- & Hin).
    unfold letters_and_spaces in H. rewrite Forall_forall in H.
    destruct (keras_char (H c Hin)) as [E1 E2].
    intro Hs. apply E2. rewrite <- E1. exact Hs. }
  pose proof (split_sep_space_count Hsp) as Hcount.
  destruct (split_sep space (map g s)) as [|w ws]; [contradiction|].
  destruct Hcount as [_ Hcount].
  transitivity (ntok false (map g s)); [exact Hcount|].
  rewrite split_length.
  apply ntok_map. eapply Forall_impl; [|exact H].
  intros c Hc. apply (keras_char Hc).
Qed.

Lemma letters_and_spaces_join (ts : list str) :
  Forall (fun t => isalpha t = true) ts -> letters_and_spaces (join ts).
Proof.
  unfold letters_and_spaces.
  induction 1 as [|t ts Ht Hts IH]; [constructor|].
  assert (Hl : Forall (fun c => c = space \/ isalpha_char c = true) t).
  { apply isalpha_forall in Ht. rewrite forallb_forall in Ht.
    apply Forall_forall. auto. }
  destruct ts as [|t2 ts]; [exact Hl|].
  change (join (t :: t2 :: ts)) with (t ++ space :: join (t2 :: ts)).
  apply Forall_app. split; [exact Hl|]. constructor; auto.
Qed.

Lemma split_clean_caption (caption : str) :
  split (clean_caption caption) = clean_tokens caption.
Proof.
  unfold clean_caption. apply split_join.
  eapply Forall_impl; [|apply clean_tokens_cleaned].
  intros t (_ & _ & _ & Ha). apply isalpha_is_token, Ha.
Qed.

Lemma letters_and_spaces_wrap (caption : str) :
  letters_and_spaces (wrap_caption (clean_caption caption)).
Proof.
  unfold wrap_caption. rewrite split_clean_caption.
  unfold letters_and_spaces. apply Forall_app. split.
  - repeat constructor; right; reflexivity.
  - apply Forall_app. split.
    + apply letters_and_spaces_join.
      eapply Forall_impl; [|apply clean_tokens_cleaned].
      intros t (_ & _ & _ & Ha). exact Ha.
    + constructor; [left; reflexivity|].
      repeat constructor; right; reflexivity.
Qed.

Lemma texts_to_sequences_length (t : Tokenizer) (text : str) :
  length (texts_to_sequences t text) <= length (text_to_word_sequence text).
Proof.
  rewrite texts_to_sequences_filter, length_map. apply filter_length_le.
Qed.

Lemma pad_sequences_short (m : nat) (s : list nat) :
  1 <= m -> length s <= m ->
  pad_sequences m s = Ok (repeat 0 (m - length s) ++ s).
Proof.
  intros Hm Hs. destruct (pad_sequences_ok s Hm) as [p Hp].
  rewrite Hp. f_equal.
  rewrite (pad_sequences_keep_last _ _ Hp). apply keep_last_short, Hs.
Qed.

(** *** Where the loaded captions come from *)

Lemma dict_set_entries (V : Type) (P : str -> V -> Prop) (k : str) (v : V)
  (d : dict V) :
  P k v ->
  Forall (fun entry => P (fst entry) (snd entry)) d ->
  Forall (fun entry => P (fst entry) (snd entry)) (dict_set k v d).
Proof.
  intros Hkv. induction 1 as [|[k0 v0] d H0 Hd IH]; simpl.
  - repeat constructor. exact Hkv.
  - destruct (str_eqb k k0) eqn:E.
    + apply str_eqb_eq in E. subst k0. constructor; assumption.
    + constructor; assumption.
Qed.

Lemma select_loop_entries (V : Type) (stored : dict V) (ids : list str) :
  forall d0 d,
    Forall (fun entry => lookup (fst entry) stored = Some (snd entry)) d0 ->
    select_loop stored ids (Ok d0) = Ok d ->
    Forall (fun entry => lookup (fst entry) stored = Some (snd entry)) d.
Proof.
  induction ids as [|id ids IH]; intros d0 d H0 H.
  - simpl in H. injection H as <-. exact H0.
  - apply select_loop_step in H as (v & Hv & H).
    eapply IH; [|exact H].
    apply (dict_set_entries (fun k v => lookup k stored = Some v));
      assumption.
Qed.

Lemma select_captions (stored d : dict (list str)) (ids : list str)
  (caption : str) :
  select stored ids = Ok d ->
  In caption (caption_to_list d) -> In caption (caption_to_list stored).
Proof.
  unfold select. intros H Hin.
  apply (select_loop_entries stored ids (d0 := [])) in H; [|constructor].
  unfold caption_to_list in *.
  apply in_flat_map in Hin as ([k l] & He & Hc). simpl in Hc.
  rewrite Forall_forall in H. specialize (H _ He). simpl in H.
  apply assoc_in in H as [k' Hk'].
  apply in_flat_map. exists (k', l). auto.
Qed.

End FitFacts.

Import FitFacts.

(** X9. With the captions cleaned, loaded with wrapping, and [max_length]
    computed by the main script from them, the encoding of every caption
    of the dictionary, by any tokenizer, has at most [max_length + 1] ids:
    its training example is padded with zeros on the left and nothing of it
    is cut off. *)
Theorem training_captions_fit (raw : dict (list str)) (ids : list str)
  (cd : dict (list str)) (m : nat) (t : Tokenizer) (caption : str) :
  load_captions (cleaning raw) ids true = Ok cd ->
  script_max_length cd = Ok (Z.of_nat m) ->
  In caption (caption_to_list cd) ->
  length (texts_to_sequences t caption) <= S m
  /\ shift_and_pad m (texts_to_sequences t caption)
     = Ok (repeat 0 (m - length (removelast (texts_to_sequences t caption)))
           ++ removelast (texts_to_sequences t caption),
           repeat 0 (m - length (tl (texts_to_sequences t caption)))
           ++ tl (texts_to_sequences t caption)).
Proof.
  intros Hload Hmax Hin.
  assert (Hne : caption_to_list cd <> [])
    by (destruct (caption_to_list cd); [contradiction | discriminate]).
  destruct (script_max_length_value _ _ Hload Hne)
    as (m' & Hm' & Hpos & Hall & _).
  rewrite Hm' in Hmax. injection Hmax as Hmm.
  apply Nat2Z.inj in Hmm. subst m'.
  destruct (wrapped_captions_list _ _ Hload) as (d & Hd & Hcd).
  assert (Hlen : length (texts_to_sequences t caption) <= S m).
  { rewrite Forall_forall in Hall. specialize (Hall _ Hin).
    rewrite Hcd in Hin. apply in_map_iff in Hin as (c1 & <- & Hc1).
    eapply select_captions in Hc1; [|exact Hd].
    rewrite cleaning_map in Hc1.
    rewrite (caption_to_list_map clean_caption) in Hc1.
    apply in_map_iff in Hc1 as (c0 & <- & _).
    eapply Nat.le_trans; [apply texts_to_sequences_length|].
    rewrite text_to_word_sequence_length
      by apply letters_and_spaces_wrap.
    exact Hall. }
  split; [exact Hlen|].
  unfold shift_and_pad.
  rewrite !pad_sequences_short;
    rewrite ?length_removelast, ?length_tl; try lia.
  reflexivity.
Qed.

Lemma training_captions_fit_witness :
  length (texts_to_sequences Scenario.tokenizer
            (py "startseq the dog fast endseq")) <= 5.
Proof.
  apply (@training_captions_fit
           [ (py "a", [py "A dog runs ."; py "The dog , fast"]);
             (py "b", [py "Two cats sit"]) ]
           (dataset Pipeline.train_text)
           [ (py "b", [py "startseq two cats sit endseq"]);
             (py "a", [py "startseq dog runs endseq";
                       py "startseq the dog fast endseq"]) ]
           4 Scenario.tokenizer (py "startseq the dog fast endseq")).
  - vm_compute. reflexivity.
  - vm_compute. reflexivity.
  - vm_compute. auto.
Defined.

(** * The tokenizer: counts, ids and the frequency threshold *)

Module TokenizerFacts.

Import LoaderFacts.

(** *** Counting *)

Lemma count_word_words (w : str) (wc : list (str * nat)) :
  map fst (count_word w wc)
  = if existsb (str_eqb w) (map fst wc) then map fst wc
    else map fst wc ++ [w].
Proof.
  induction wc as [|[w' c] wc IH]; simpl; [reflexivity|].
  destruct (str_eqb w w'); simpl; [reflexivity|].
  rewrite IH. destruct (existsb (str_eqb w) (map fst wc)); reflexivity.
Qed.

Lemma count_word_nodup (w : str) (wc : list (str * nat)) :
  NoDup (map fst wc) -> NoDup (map fst (count_word w wc)).
Proof.
  intro H. rewrite count_word_words.
  destruct (existsb (str_eqb w) (map fst wc)) eqn:E; [exact H|].
  apply (Permutation_NoDup (l := w :: map fst wc)).
  - apply Permutation_cons_append.
  - constructor; [|exact H]. intro Hin.
    assert (Ht : existsb (str_eqb w) (map fst wc) = true).
    { apply existsb_exists. exists w. split; [exact Hin|].
      apply str_eqb_refl. }
    congruence.
Qed.

Lemma count_word_positive (w : str) (wc : list (str * nat)) :
  Forall (fun e => 1 <= snd e) wc ->
  Forall (fun e => 1 <= snd e) (count_word w wc).
Proof.
  induction 1 as [|[w' c] wc Hc Hwc IH]; simpl.
  - repeat constructor.
  - destruct (str_eqb w w'); constructor; simpl in *; auto.
Qed.

Lemma count_word_count_of (k w : str) (wc : list (str * nat)) :
  count_of k (count_word w wc)
  = count_of k wc + (if str_eqb k w then 1 else 0).
Proof.
  unfold count_of.
  induction wc as [|[w' c] wc IH]; simpl.
  - destruct (str_eqb k w); reflexivity.
  - destruct (str_eqb w w') eqn:E; simpl.
    + apply str_eqb_eq in E. subst w'.
      destruct (str_eqb k w); lia.
    + destruct (str_eqb k w') eqn:E'; [|exact IH].
      apply str_eqb_eq in E'. subst w'.
      assert (Hkw : str_eqb k w = false).
      { apply str_eqb_neq. intros ->. rewrite str_eqb_refl in E.
        discriminate. }
      rewrite Hkw. lia.
Qed.

Lemma count_words_ok (ws seen : list str) (wc : list (str * nat)) :
  counts_ok seen wc ->
  counts_ok (seen ++ ws) (fold_left (fun wc w => count_word w wc) ws wc).
Proof.
  revert seen wc.
  induction ws as [|w ws IH]; intros seen wc H; simpl.
  - rewrite app_nil_r. exact H.
  - replace (seen ++ w :: ws) with ((seen ++ [w]) ++ ws)
      by (rewrite <- app_assoc; reflexivity).
    apply IH. destruct H as (H1 & H2 & H3).
    split; [apply count_word_nodup, H1|].
    split; [apply count_word_positive, H2|].
    intro k. rewrite count_word_count_of, H3. unfold occurrences.
    rewrite filter_app, length_app. simpl.
    destruct (str_eqb k w); reflexivity.
Qed.

Lemma count_texts_loop (texts : list str) :
  forall seen wc,
    counts_ok seen wc ->
    counts_ok (seen ++ flat_map text_to_word_sequence texts)
      (fold_left
         (fun wc text => fold_left (fun wc w => count_word w wc)
                                   (text_to_word_sequence text) wc)
         texts wc).
Proof.
  induction texts as [|text texts IH]; intros seen wc H; simpl.
  - rewrite app_nil_r. exact H.
  - rewrite app_assoc. apply IH, count_words_ok, H.
Qed.

Lemma count_texts_ok (texts : list str) :
  counts_ok (flat_map text_to_word_sequence texts) (count_texts texts).
Proof.
  apply (count_texts_loop texts (seen := []) (wc := [])).
  split; [constructor|]. split; [constructor|]. reflexivity.
Qed.

Lemma assoc_nodup (V : Type) (k : str) (v : V) (d : list (str * V)) :
  NoDup (map fst d) -> In (k, v) d -> assoc str_eqb k d = Some v.
Proof.
  induction d as [|[k' v'] d IH]; simpl; [tauto|].
  intros Hnd [Heq|Hin].
  - injection Heq as -> ->. rewrite str_eqb_refl. reflexivity.
  - inversion Hnd as [|? ? Hnot Hnd']; subst.
    destruct (str_eqb k k') eqn:E; [|auto].
    apply str_eqb_eq in E. subst k'. exfalso. apply Hnot.
    apply in_map_iff. exists (k, v). auto.
Qed.

Lemma assoc_member (V : Type) (k : str) (v : V) (d : list (str * V)) :
  assoc str_eqb k d = Some v -> In (k, v) d.
Proof.
  induction d as [|[k' v'] d IH]; simpl; [discriminate|].
  destruct (str_eqb k k') eqn:E; [|auto].
  apply str_eqb_eq in E. subst k'. intro H; injection H as ->. auto.
Qed.

(** *** The sort *)

Lemma insert_desc_perm (x : str * nat) (l : list (str * nat)) :
  Permutation (insert_desc x l) (x :: l).
Proof.
  induction l as [|y l IH]; simpl; [reflexivity|].
  destruct (snd y <=? snd x); [reflexivity|].
  rewrite IH. apply perm_swap.
Qed.

Lemma sort_desc_perm (l : list (str * nat)) : Permutation (sort_desc l) l.
Proof.
  induction l as [|x l IH]; [reflexivity|].
  change (sort_desc (x :: l)) with (insert_desc x (sort_desc l)).
  rewrite insert_desc_perm, IH. reflexivity.
Qed.

Lemma insert_desc_sorted (x : str * nat) (l : list (str * nat)) :
  StronglySorted (fun a b => snd b <= snd a) l ->
  StronglySorted (fun a b => snd b <= snd a) (insert_desc x l).
Proof.
  induction l as [|y l IH]; simpl; intro H.
  - repeat constructor.
  - inversion H as [|? ? Hl Hy]; subst.
    destruct (snd y <=? snd x) eqn:E.
    + apply Nat.leb_le in E. constructor; [exact H|].
      constructor; [exact E|].
      eapply Forall_impl; [|exact Hy]. simpl. intros; lia.
    + apply Nat.leb_gt in E. constructor; [apply IH, Hl|].
      eapply Permutation_Forall;
        [symmetry; apply insert_desc_perm|].
      constructor; [lia | exact Hy].
Qed.

Lemma sort_desc_sorted (l : list (str * nat)) :
  StronglySorted (fun a b => snd b <= snd a) (sort_desc l).
Proof.
  induction l as [|x l IH]; [constructor|].
  change (sort_desc (x :: l)) with (insert_desc x (sort_desc l)).
  apply insert_desc_sorted, IH.
Qed.

(** In a list sorted by descending count, the entries with at least
    [m] are a prefix. *)
Lemma threshold_prefix (m : nat) (l : list (str * nat)) :
  StronglySorted (fun a b => snd b <= snd a) l ->
  filter (fun wc => m <=? snd wc) l
  = firstn (length (filter (fun wc => m <=? snd wc) l)) l.
Proof.
  induction 1 as [|y l Hl IH Hy]; [reflexivity|].
  simpl. destruct (m <=? snd y) eqn:E; simpl.
  - f_equal. exact IH.
  - apply Nat.leb_gt in E.
    assert (Hnone : filter (fun wc => m <=? snd wc) l = []).
    { clear IH Hl. induction Hy as [|z l Hz _ IH]; [reflexivity|].
      simpl. destruct (m <=? snd z) eqn:E'; [|exact IH].
      apply Nat.leb_le in E'. lia. }
    rewrite Hnone. reflexivity.
Qed.

Lemma filter_perm (A : Type) (f : A -> bool) (l l' : list A) :
  Permutation l l' -> Permutation (filter f l) (filter f l').
Proof.
  induction 1 as [|x l l' _ IH|x y l|l l' l'' _ IH1 _ IH2]; simpl.
  - reflexivity.
  - destruct (f x); [constructor|]; exact IH.
  - destruct (f x), (f y); try reflexivity. apply perm_swap.
  - etransitivity; eassumption.
Qed.

(** *** Ids *)

Lemma word_index_position (ws : list str) :
  NoDup ws ->
  forall a w i,
    assoc str_eqb w (combine ws (seq a (length ws))) = Some i
    <-> a <= i /\ nth_error ws (i - a) = Some w.
Proof.
  induction 1 as [|x ws Hx Hnd IH]; intros a w i; simpl.
  - split; [discriminate|]. intros [_ H].
    destruct (i - a); discriminate.
  - destruct (str_eqb w x) eqn:E.
    + apply str_eqb_eq in E. subst x. split.
      * intro H; injection H as ->. rewrite Nat.sub_diag. auto.
      * intros [Hle H]. destruct (i - a) as [|j] eqn:Ej.
        -- f_equal. lia.
        -- simpl in H. apply nth_error_In in H. contradiction.
    + apply str_eqb_neq in E. rewrite IH. split.
      * intros [Hle H]. split; [lia|].
        replace (i - a) with (S (i - S a)) by lia. exact H.
      * intros [Hle H]. destruct (i - a) as [|j] eqn:Ej.
        -- simpl in H. congruence.
        -- simpl in H. split; [lia|].
           replace (i - S a) with j by lia. exact H.
Qed.

Lemma index_word_position (ws : list str) :
  forall a w i,
    assoc Nat.eqb i
      (map (fun wc : str * nat => (snd wc, fst wc))
           (combine ws (seq a (length ws)))) = Some w
    <-> a <= i /\ nth_error ws (i - a) = Some w.
Proof.
  induction ws as [|x ws IH]; intros a w i; simpl.
  - split; [discriminate|]. intros [_ H].
    destruct (i - a); discriminate.
  - destruct (i =? a) eqn:E.
    + apply Nat.eqb_eq in E. subst i. rewrite Nat.sub_diag. simpl.
      split; [auto|tauto].
    + apply Nat.eqb_neq in E. rewrite IH. split.
      * intros [Hle H]. split; [lia|].
        replace (i - a) with (S (i - S a)) by lia. exact H.
      * intros [Hle H]. destruct (i - a) as [|j] eqn:Ej; [lia|].
        simpl in H. split; [lia|].
        replace (i - S a) with j by lia. exact H.
Qed.

Lemma sorted_words_nodup (texts : list str) :
  NoDup (map fst (sort_desc (count_texts texts))).
Proof.
  eapply Permutation_NoDup.
  - symmetry. apply Permutation_map, sort_desc_perm.
  - apply count_texts_ok.
Qed.

Lemma sorted_words_length (texts : list str) :
  length (map fst (sort_desc (count_texts texts)))
  = length (count_texts texts).
Proof.
  rewrite length_map. apply Permutation_length, sort_desc_perm.
Qed.

(** Word to id and id to word are inverse to each other, and the ids are
    [1 .. number of words]. *)
Lemma tokenizer_ids (texts : list str) (nv : option nat) (w : str)
  (i : nat) :
  let t := fit_on_texts nv texts in
  (assoc str_eqb w (word_index t) = Some i
   <-> assoc Nat.eqb i (index_word t) = Some w)
  /\ (assoc Nat.eqb i (index_word t) = Some w ->
      1 <= i <= length (word_counts t))
  /\ (1 <= i <= length (word_counts t) ->
      exists w', assoc Nat.eqb i (index_word t) = Some w').
Proof.
  simpl.
  pose proof (sorted_words_nodup texts) as Hnd.
  pose proof (sorted_words_length texts) as Hlen.
  set (ws := map fst (sort_desc (count_texts texts))) in *.
  split; [|split].
  - rewrite (word_index_position Hnd), index_word_position. reflexivity.
  - rewrite index_word_position. intros [Hle H].
    assert (i - 1 < length ws) by (apply nth_error_Some; congruence).
    lia.
  - intro Hi.
    destruct (nth_error ws (i - 1)) as [w'|] eqn:E.
    + exists w'. apply index_word_position. split; [lia | exact E].
    + apply nth_error_None in E. lia.
Qed.

(** *** The threshold *)

Lemma frequent_words_loop (m : nat) (wc : list (str * nat))
  (words : list str) :
  fold_left
    (fun words wc => if m <=? snd wc then words ++ [fst wc] else words)
    wc words
  = words ++ map fst (filter (fun wc => m <=? snd wc) wc).
Proof.
  revert words. induction wc as [|x wc IH]; intro words; simpl.
  - rewrite app_nil_r. reflexivity.
  - rewrite IH. destruct (m <=? snd x); [|reflexivity].
    simpl. rewrite <- app_assoc. reflexivity.
Qed.

Lemma frequent_words_filter (t : Tokenizer) (m : nat) :
  frequent_words t m
  = map fst (filter (fun wc => m <=? snd wc) (word_counts t)).
Proof. unfold frequent_words. apply frequent_words_loop. Qed.

Lemma in_firstn (A : Type) (x : A) (k : nat) (l : list A) :
  In x (firstn k l) <-> exists j, j < k /\ nth_error l j = Some x.
Proof.
  revert l. induction k as [|k IH]; intro l.
  - simpl. split; [tauto|]. intros (j & Hj & _). lia.
  - destruct l as [|y l]; simpl.
    + split; [tauto|]. intros (j & _ & H). destruct j; discriminate.
    + rewrite IH. split.
      * intros [->|(j & Hj & H)].
        -- exists 0. split; [lia | reflexivity].
        -- exists (S j). split; [lia | exact H].
      * intros (j & Hj & H). destruct j as [|j].
        -- injection H as ->. auto.
        -- right. exists j. split; [lia | exact H].
Qed.

Lemma frequent_words_counts (texts : list str) (nv : option nat)
  (m : nat) (w : str) :
  In w (frequent_words (fit_on_texts nv texts) m)
  <-> 1 <= occurrences w (flat_map text_to_word_sequence texts)
      /\ m <= occurrences w (flat_map text_to_word_sequence texts).
Proof.
  rewrite frequent_words_filter. simpl.
  destruct (count_texts_ok texts) as (Hnd & Hpos & Hocc).
  rewrite <- (Hocc w). unfold count_of. split.
  - intro H. apply in_map_iff in H as ([w' c] & Hw & H). simpl in Hw.
    subst w'. apply filter_In in H as [Hin Hc]. simpl in Hc.
    apply Nat.leb_le in Hc.
    rewrite (@assoc_nodup _ w c _ Hnd Hin).
    rewrite Forall_forall in Hpos. specialize (Hpos _ Hin). simpl in Hpos.
    lia.
  - destruct (assoc str_eqb w (count_texts texts)) as [c|] eqn:E;
      [|lia].
    intros [_ Hm]. apply assoc_member in E.
    apply in_map_iff. exists (w, c). split; [reflexivity|].
    apply filter_In. split; [exact E|]. apply Nat.leb_le, Hm.
Qed.

(** The tokenizer made again with [num_words = len(words) + 1] encodes the
    words of [words] and no other. *)
Lemma threshold_vocabulary (texts : list str) (nv : option nat) (m : nat)
  (w : str) :
  let words := frequent_words (fit_on_texts nv texts) m in
  in_vocabulary (fit_on_texts (Some (length words + 1)) texts) w = true
  <-> In w words.
Proof.
  intro words. subst words. rewrite frequent_words_filter.
  unfold in_vocabulary, beyond_num_words. simpl.
  set (wc := count_texts texts).
  set (thr := fun e : str * nat => m <=? snd e).
  assert (Hk : length (map fst (filter thr wc))
               = length (filter thr (sort_desc wc))).
  { rewrite length_map. apply Permutation_length, filter_perm.
    symmetry. apply sort_desc_perm. }
  assert (Hin : In w (map fst (filter thr wc))
                <-> In w (firstn (length (filter thr (sort_desc wc)))
                            (map fst (sort_desc wc)))).
  { rewrite firstn_map.
    unfold thr at 2. rewrite <- (threshold_prefix m (sort_desc_sorted wc)).
    fold thr. split; apply Permutation_in, Permutation_map, filter_perm;
      [symmetry|]; apply sort_desc_perm. }
  rewrite Hin, Hk, in_firstn.
  set (k := length (filter thr (sort_desc wc))).
  pose proof (sorted_words_nodup texts) as Hnd. fold wc in Hnd.
  destruct (assoc str_eqb w
              (combine (map fst (sort_desc wc))
                 (seq 1 (length (map fst (sort_desc wc)))))) as [i|] eqn:E.
  - apply (word_index_position Hnd) in E as [Hle Hi].
    replace (k + 1 =? 0) with false by (symmetry; apply Nat.eqb_neq; lia).
    simpl. rewrite Bool.negb_true_iff, Nat.leb_gt. split.
    + intro Hlt. exists (i - 1). split; [lia | exact Hi].
    + intros (j & Hj & Hw).
      assert (Hj' : assoc str_eqb w
                      (combine (map fst (sort_desc wc))
                         (seq 1 (length (map fst (sort_desc wc)))))
                    = Some (S j)).
      { apply (word_index_position Hnd). split; [lia|].
        replace (S j - 1) with j by lia. exact Hw. }
      assert (Hi' : assoc str_eqb w
                      (combine (map fst (sort_desc wc))
                         (seq 1 (length (map fst (sort_desc wc)))))
                    = Some i).
      { apply (word_index_position Hnd). auto. }
      rewrite Hj' in Hi'. injection Hi' as <-. lia.
  - split; [discriminate|]. intros (j & Hj & Hw).
    assert (Hj' : assoc str_eqb w
                    (combine (map fst (sort_desc wc))
                       (seq 1 (length (map fst (sort_desc wc)))))
                  = Some (S j)).
    { apply (word_index_position Hnd). split; [lia|].
      replace (S j - 1) with j by lia. exact Hw. }
    congruence.
Qed.

End TokenizerFacts.

Import TokenizerFacts.

(** X10. In every tokenizer made by [create_tokenizer], [word_index] and
    [index_word] are inverse to each other, the ids are exactly
    [1 .. len(word_counts)], and the padding id 0 is the id of no word. *)
Theorem word_index_round_trip (caption_dict : dict (list str))
  (num_vocab : option nat) (w : str) (i : nat) :
  (assoc str_eqb w (word_index (create_tokenizer caption_dict num_vocab))
   = Some i
   <-> assoc Nat.eqb i (index_word (create_tokenizer caption_dict num_vocab))
       = Some w)
  /\ (assoc Nat.eqb i (index_word (create_tokenizer caption_dict num_vocab))
      = Some w ->
      1 <= i <= length (word_counts (create_tokenizer caption_dict num_vocab)))
  /\ (1 <= i <= length (word_counts (create_tokenizer caption_dict num_vocab))
      -> exists w',
        assoc Nat.eqb i (index_word (create_tokenizer caption_dict num_vocab))
        = Some w')
  /\ assoc Nat.eqb 0 (index_word (create_tokenizer caption_dict num_vocab))
     = None.
Proof.
  unfold create_tokenizer.
  destruct (tokenizer_ids (caption_to_list caption_dict) num_vocab w i)
    as (H1 & H2 & H3).
  split; [exact H1|]. split; [exact H2|]. split; [exact H3|].
  destruct (assoc Nat.eqb 0
              (index_word (fit_on_texts num_vocab
                             (caption_to_list caption_dict))))
    as [w0|] eqn:E; [|reflexivity].
  apply (tokenizer_ids (caption_to_list caption_dict) num_vocab w0 0) in E.
  lia.
Qed.

(** X11. Encoding a text with [texts_to_sequences] and looking every id up
    in [index_word] gives back the words of the text that are in the
    vocabulary, in order (lower-cased and stripped of punctuation by the
    tokenizer); no lookup fails. *)
Theorem decoding_an_encoding (caption_dict : dict (list str))
  (num_vocab : option nat) (text : str) :
  map (fun i =>
         assoc Nat.eqb i
           (index_word (create_tokenizer caption_dict num_vocab)))
      (texts_to_sequences (create_tokenizer caption_dict num_vocab) text)
  = map Some
      (filter (in_vocabulary (create_tokenizer caption_dict num_vocab))
              (text_to_word_sequence text)).
Proof.
  rewrite texts_to_sequences_filter, map_map.
  apply map_ext_in. intros w Hin.
  apply filter_In in Hin as [_ Hv].
  unfold in_vocabulary in Hv. unfold word_id.
  destruct (assoc str_eqb w
              (word_index (create_tokenizer caption_dict num_vocab)))
    as [i|] eqn:E; [|discriminate].
  apply (tokenizer_ids (caption_to_list caption_dict) num_vocab w i).
  exact E.
Qed.

(** X12. The vocabulary of the main script: [words] holds each word that
    occurs in the captions at least [min_freq] times (and at least once),
    once; the tokenizer made again with [num_vocab = vocab_size] encodes
    exactly the words of [words]; and every id it produces is between 1
    and [vocab_size - 1]. *)
Theorem vocabulary_keeps_frequent_words (caption_dict : dict (list str))
  (min_freq : nat) (words : list str) (vocab_size : nat) (tok : Tokenizer)
  (w : str) :
  build_vocabulary caption_dict min_freq = (words, vocab_size, tok) ->
  (In w words
   <-> 1 <= occurrences w (corpus_words caption_dict)
       /\ min_freq <= occurrences w (corpus_words caption_dict))
  /\ (in_vocabulary tok w = true <-> In w words)
  /\ NoDup words
  /\ vocab_size = length words + 1
  /\ (forall text,
        Forall (fun i => 1 <= i < vocab_size) (texts_to_sequences tok text)).
Proof.
  unfold build_vocabulary, create_tokenizer.
  intro H. injection H as <- <- <-.
  set (texts := caption_to_list caption_dict).
  split; [apply frequent_words_counts|].
  split; [apply threshold_vocabulary|].
  split.
  { rewrite frequent_words_filter. simpl.
    destruct (count_texts_ok texts) as (Hnd & _ & _).
    revert Hnd. generalize (count_texts texts).
    induction l as [|x l IH]; simpl; intro Hnd; [constructor|].
    inversion Hnd as [|? ? Hx Hl]; subst.
    destruct (min_freq <=? snd x); [|auto].
    simpl. constructor; [|auto].
    intro Hin. apply Hx. apply in_map_iff in Hin as (e & He & Hin).
    apply filter_In in Hin as [Hin _]. apply in_map_iff. eauto. }
  split; [reflexivity|].
  intro text.
  set (v := length (frequent_words (fit_on_texts None texts) min_freq) + 1).
  pose proof (@texts_to_sequences_bound (fit_on_texts (Some v) texts) v text
                eq_refl) as Hb.
  assert (Hv : 0 < v) by (unfold v; lia).
  specialize (Hb Hv).
  rewrite texts_to_sequences_filter in *.
  apply Forall_forall. intros i Hi.
  rewrite Forall_forall in Hb. split; [|apply Hb, Hi].
  apply in_map_iff in Hi as (w' & <- & Hw').
  apply filter_In in Hw' as [_ Hw']. unfold in_vocabulary in Hw'.
  unfold word_id.
  destruct (assoc str_eqb w' (word_index (fit_on_texts (Some v) texts)))
    as [i|] eqn:E; [|discriminate].
  apply (tokenizer_ids texts (Some v) w' i) in E.
  apply (tokenizer_ids texts (Some v) w' i) in E. lia.
Qed.

Lemma vocabulary_keeps_frequent_words_witness :
  in_vocabulary Scenario.tokenizer (py "dog") = true
  <-> In (py "dog") (frequent_words
                       (create_tokenizer Scenario.captions None) 2).
Proof.
  apply (@vocabulary_keeps_frequent_words Scenario.captions 2
           (frequent_words (create_tokenizer Scenario.captions None) 2)
           Scenario.vocab_size Scenario.tokenizer (py "dog")).
  vm_compute. reflexivity.
Defined.

(** X13. The decoder cannot turn the padding id into a word: with a
    tokenizer made by [create_tokenizer], an iteration of [sample_caption]
    whose arg-max is id 0 raises [KeyError], and the call ends there. *)
Theorem padding_id_raises (Row Prob : Type) (gtb : Prob -> Prob -> bool)
  (predict : list Row -> list nat -> list (list Prob))
  (caption_dict : dict (list str)) (num_vocab : option nat)
  (max_length : nat) (feature : list Row) (caption : str)
  (padded : list nat) (pred_Y : list Prob) :
  pad_sequences max_length
    (texts_to_sequences (create_tokenizer caption_dict num_vocab) caption)
  = Ok padded ->
  nth_error (rev (predict feature padded)) 0 = Some pred_Y ->
  argmax gtb pred_Y = Ok 0 ->
  next_word_of gtb predict (create_tokenizer caption_dict num_vocab)
    max_length feature caption = Raise KeyError
  /\ (forall fuel picked,
        decode_loop gtb predict (create_tokenizer caption_dict num_vocab)
          max_length feature (S fuel) caption picked = Raised KeyError)
  /\ (caption = startseq ->
      forall fuel,
        sample_caption gtb predict
          (create_tokenizer caption_dict num_vocab) max_length feature
          (S fuel) = Raised KeyError).
Proof.
  intros Hpad Hrow Hmax.
  assert (Hnext : next_word_of gtb predict
                    (create_tokenizer caption_dict num_vocab)
                    max_length feature caption = Raise KeyError).
  { unfold next_word_of. rewrite Hpad. cbn [bind]. rewrite Hrow.
    cbn [bind of_option]. rewrite Hmax. cbn [bind].
    unfold create_tokenizer.
    destruct (assoc Nat.eqb 0
                (index_word (fit_on_texts num_vocab
                               (caption_to_list caption_dict))))
      as [w0|] eqn:E; [|reflexivity].
    apply (tokenizer_ids (caption_to_list caption_dict) num_vocab w0 0)
      in E.
    lia. }
  split; [exact Hnext|].
  split.
  - intros fuel picked. rewrite decode_loop_step, Hnext. reflexivity.
  - intros -> fuel. unfold sample_caption.
    rewrite decode_loop_step, Hnext. reflexivity.
Qed.

Lemma padding_id_raises_witness :
  next_word_of Scenario.greater (Scenario.certain 0)
    (create_tokenizer Scenario.captions (Some 7)) 4 [1] startseq
  = Raise KeyError.
Proof.
  apply (@padding_id_raises nat nat Scenario.greater (Scenario.certain 0)
           Scenario.captions (Some 7) 4 [1] startseq [0; 0; 0; 1]
           (one_hot 7 0)).
  - vm_compute. reflexivity.
  - vm_compute. reflexivity.
  - vm_compute. reflexivity.
Defined.

(** * Inputs and targets of one example *)

Module ExampleFacts.

Lemma combine_skipn (A B : Type) (n : nat) :
  forall (l : list A) (l' : list B),
    combine (skipn n l) (skipn n l') = skipn n (combine l l').
Proof.
  induction n as [|n IH]; intros l l'; [reflexivity|].
  destruct l as [|x l]; [reflexivity|].
  destruct l' as [|y l']; simpl.
  - destruct (skipn n l); reflexivity.
  - apply IH.
Qed.

Lemma combine_padded (m : nat) (a b : list nat) :
  combine (repeat 0 m ++ a) (repeat 0 m ++ b)
  = repeat (0, 0) m ++ combine a b.
Proof. induction m as [|m IH]; simpl; [|rewrite IH]; reflexivity. Qed.

Lemma combine_keep_last (m : nat) (a b : list nat) :
  length a = length b ->
  combine (keep_last m (repeat 0 m ++ a)) (keep_last m (repeat 0 m ++ b))
  = keep_last m (repeat (0, 0) m ++ combine a b).
Proof.
  intro H. unfold keep_last.
  rewrite !length_app, !repeat_length, length_combine, <- H, Nat.min_id.
  rewrite combine_skipn, combine_padded. reflexivity.
Qed.

(** The pairs of [encoded[:-1]] and [encoded[1:]] are the pairs of
    neighbours of [encoded]. *)
Lemma shifted_pairs (encoded : list nat) :
  forall j a b,
    nth_error (combine (removelast encoded) (tl encoded)) j = Some (a, b)
    <-> nth_error encoded j = Some a /\ nth_error encoded (S j) = Some b.
Proof.
  induction encoded as [|x encoded IH]; intros j a b.
  - simpl. destruct j; simpl; split; try discriminate; intros [H _];
      discriminate.
  - destruct encoded as [|y encoded].
    + split.
      * simpl. destruct j; discriminate.
      * intros [_ H]. simpl in H. destruct j; discriminate.
    + change (combine (removelast (x :: y :: encoded)) (tl (x :: y :: encoded)))
        with ((x, y) :: combine (removelast (y :: encoded))
                                (tl (y :: encoded))).
      destruct j as [|j].
      * simpl. split.
        -- intro H; injection H as -> ->. auto.
        -- intros [H1 H2]. congruence.
      * change (nth_error ((x, y) :: combine (removelast (y :: encoded))
                                             (tl (y :: encoded))) (S j))
          with (nth_error (combine (removelast (y :: encoded))
                                   (tl (y :: encoded))) j).
        rewrite IH. reflexivity.
Qed.

Lemma one_hot_from (y n : nat) :
  forall a,
    list_sum (map (fun j => if j =? y then 1 else 0) (seq a n))
    = (if (a <=? y) && (y <? a + n) then 1 else 0).
Proof.
  induction n as [|n IH]; intro a; simpl.
  - destruct (Nat.leb_spec a y), (Nat.ltb_spec y (a + 0)); simpl; lia.
  - rewrite IH.
    destruct (Nat.eqb_spec a y), (Nat.leb_spec a y),
      (Nat.leb_spec (S a) y), (Nat.ltb_spec y (S a + n)),
      (Nat.ltb_spec y (a + S n)); simpl; lia.
Qed.

Lemma one_hot_row (n y : nat) :
  y < n ->
  length (one_hot n y) = n
  /\ list_sum (one_hot n y) = 1
  /\ forall j, j < n -> nth_error (one_hot n y) j
                        = Some (if j =? y then 1 else 0).
Proof.
  intro H. unfold one_hot. split; [|split].
  - rewrite length_map, length_seq. reflexivity.
  - rewrite one_hot_from. simpl.
    destruct (Nat.ltb_spec y n); [reflexivity | lia].
  - intros j Hj. rewrite nth_error_map, nth_error_seq.
    destruct (Nat.ltb_spec j n); [reflexivity | lia].
Qed.

End ExampleFacts.

Import ExampleFacts.

(** X14. In every example the generator makes, the target of a timestep is
    the id that follows the timestep's input id in the encoded caption: the
    (input, target) pairs are the last [max_length] of [max_length] pairs
    (0, 0) followed by the pairs of neighbours of the encoding. *)
Theorem targets_follow_inputs (Row : Type) (features : dict (list Row))
  (tokenizer : Tokenizer) (max_length vocab_size : nat)
  (photo_id caption : str) (ex : example Row) :
  make_example features tokenizer max_length vocab_size photo_id caption
  = Ok ex ->
  exists padded_Y,
    to_categorical padded_Y vocab_size = Ok (ex_Y ex)
    /\ combine (ex_text ex) padded_Y
       = keep_last max_length
           (repeat (0, 0) max_length
            ++ combine (removelast (texts_to_sequences tokenizer caption))
                       (tl (texts_to_sequences tokenizer caption)))
    /\ forall j a b,
         nth_error
           (combine (removelast (texts_to_sequences tokenizer caption))
                    (tl (texts_to_sequences tokenizer caption))) j
         = Some (a, b)
         <-> nth_error (texts_to_sequences tokenizer caption) j = Some a
             /\ nth_error (texts_to_sequences tokenizer caption) (S j)
                = Some b.
Proof.
  intro H. apply make_example_inv in H as (padded_Y & H1 & H2 & HY).
  exists padded_Y. split; [exact HY|]. split; [|apply shifted_pairs].
  rewrite (pad_sequences_keep_last _ _ H1), (pad_sequences_keep_last _ _ H2).
  apply combine_keep_last. rewrite length_removelast, length_tl.
  reflexivity.
Qed.

Lemma targets_follow_inputs_witness :
  exists padded_Y,
    to_categorical padded_Y 7 = Ok (map (one_hot 7) [0; 3; 4; 2])
    /\ combine [0; 1; 3; 4] padded_Y = [(0, 0); (1, 3); (3, 4); (4, 2)].
Proof.
  destruct (@targets_follow_inputs nat Scenario.features Scenario.tokenizer
              4 7 (py "p1") (py "startseq dog runs endseq")
              {| ex_photo := py "p1"; ex_img := 1;
                 ex_text := [0; 1; 3; 4];
                 ex_Y := map (one_hot 7) [0; 3; 4; 2] |} eq_refl)
    as (padded_Y & HY & Hc & _).
  exists padded_Y. split; [exact HY | exact Hc].
Defined.

(** X15. With [vocab_size >= 1], the target array of every example has
    [max_length] rows, one per target id; every target id is below
    [vocab_size], and its row has [vocab_size] entries that sum to 1, with
    the 1 at the position of the id and 0 elsewhere. *)
Theorem targets_are_one_hot (Row : Type) (features : dict (list Row))
  (tokenizer : Tokenizer) (max_length vocab_size : nat)
  (photo_id caption : str) (ex : example Row) :
  0 < vocab_size ->
  make_example features tokenizer max_length vocab_size photo_id caption
  = Ok ex ->
  length (ex_Y ex) = max_length
  /\ Forall2
       (fun row y =>
          y < vocab_size
          /\ length row = vocab_size
          /\ list_sum row = 1
          /\ forall j, j < vocab_size ->
                       nth_error row j = Some (if j =? y then 1 else 0))
       (ex_Y ex)
       (keep_last max_length
          (repeat 0 max_length
           ++ tl (texts_to_sequences tokenizer caption))).
Proof.
  intros Hv H. apply make_example_inv in H as (padded_Y & _ & H2 & HY).
  pose proof (pad_sequences_length _ _ H2) as Hlen.
  rewrite <- (pad_sequences_keep_last _ _ H2).
  unfold to_categorical in HY.
  destruct (Nat.eqb_spec vocab_size 0) as [|_]; [lia|]. simpl in HY.
  destruct (forallb (fun v => v <? vocab_size) padded_Y) eqn:E;
    [|discriminate].
  injection HY as <-. rewrite length_map. split; [exact Hlen|].
  rewrite forallb_forall in E. clear Hlen H2.
  induction padded_Y as [|y padded_Y IH]; simpl; constructor.
  - assert (Hy : y < vocab_size) by (apply Nat.ltb_lt, E; simpl; auto).
    split; [exact Hy|]. apply one_hot_row, Hy.
  - apply IH. intros v Hin. apply E. simpl. auto.
Qed.

Lemma targets_are_one_hot_witness :
  length (map (one_hot 7) [0; 3; 4; 2]) = 4.
Proof.
  apply (@targets_are_one_hot nat Scenario.features Scenario.tokenizer
           4 7 (py "p1") (py "startseq dog runs endseq")
           {| ex_photo := py "p1"; ex_img := 1;
              ex_text := [0; 1; 3; 4];
              ex_Y := map (one_hot 7) [0; 3; 4; 2] |}).
  - lia.
  - vm_compute. reflexivity.
Defined.

(** * What a pass of the generator needs *)

Lemma Forall2_member (A B : Type) (P : A -> B -> Prop) (l : list A)
  (l' : list B) (b : B) :
  Forall2 P l l' -> In b l' -> exists a, In a l /\ P a b.
Proof.
  induction 1 as [|a0 b0 l l' H0 _ IH]; simpl; [tauto|].
  intros [<-|Hin]; [eauto|].
  destruct (IH Hin) as (a & Ha & HP). eauto.
Qed.

Section GeneratorEdges.

Variables R Row : Type.
Variable choice_perm : nat -> R -> list nat * R.
Variable choice_one : nat -> R -> nat * R.
Variable caption_dict : dict (list str).
Variable features : dict (list Row).
Variable tokenizer : Tokenizer.
Variables max_length vocab_size num_photos : nat.

Local Abbreviation epoch' :=
  (run_epoch choice_perm choice_one caption_dict features tokenizer
     max_length vocab_size num_photos).

Lemma make_example_feature (photo_id caption : str) (ex : example Row) :
  make_example features tokenizer max_length vocab_size photo_id caption
  = Ok ex ->
  exists feature,
    lookup photo_id features = Some feature
    /\ nth_error feature 0 = Some (ex_img ex).
Proof.
  unfold make_example. intro H.
  apply bind_ok in H as (padded & _ & H).
  apply bind_ok in H as (padded_Y & _ & H).
  apply bind_ok in H as (feature & Hf & H). apply of_option_ok in Hf.
  apply bind_ok in H as (row & Hr & H). apply of_option_ok in Hr.
  injection H as <-. simpl. eauto.
Qed.

(** X16. A pass of [generate_dataset] reaches its [break] only if the
    dictionary is not empty, [num_photos] is not 0, and every photo id of
    the dictionary has at least one caption and a feature array with a
    first row; the image of every example is that first row. *)
Theorem completed_pass_needs (fuel : nat) (r r' : R)
  (bs : list (batch Row)) :
  (forall n r, Permutation (fst (choice_perm n r)) (seq 0 n)) ->
  epoch' fuel r = (bs, Returned r') ->
  0 < length (photo_ids caption_dict)
  /\ 0 < num_photos
  /\ Forall
       (fun photo_id =>
          (exists caption_list,
              lookup photo_id caption_dict = Some caption_list
              /\ caption_list <> [])
          /\ exists feature row,
              lookup photo_id features = Some feature
              /\ nth_error feature 0 = Some row
              /\ exists ex, In ex (concat bs)
                            /\ ex_photo ex = photo_id /\ ex_img ex = row)
       (photo_ids caption_dict).
Proof.
  intros Hperm H.
  edestruct run_epoch_examples as (Hn & Hp & Hmade); [exact H|].
  edestruct epoch_visits as (Hids & _); [exact Hperm | exact H |].
  split; [exact Hn|]. split; [exact Hp|].
  apply Forall_forall. intros photo_id Hin.
  apply (Permutation_in _ (Permutation_sym Hids)) in Hin.
  change (concat (map (@batch_photos Row) bs))
    with (concat (map (map (@ex_photo Row)) bs)) in Hin.
  rewrite <- concat_map in Hin.
  apply in_map_iff in Hin as (ex & Hph & Hex).
  destruct (@Forall2_member _ _ _ _ _ ex Hmade Hex) as (i & _ & Hi).
  destruct Hi as (s1 & caption_list & caption & _ & _ & Hl & Hc & Hmk).
  rewrite Hph in *.
  split.
  - exists caption_list. split; [exact Hl|].
    intros ->. contradiction.
  - destruct (make_example_feature _ _ Hmk) as (feature & Hf & Hrow).
    exists feature, (ex_img ex). eauto 6.
Qed.

(** X17. The two degenerate calls of [generate_dataset] yield nothing: with
    an empty dictionary the first [s[count]] raises [IndexError]; with
    [num_photos = 0] the first pass raises before any [yield], and what it
    raises is [ZeroDivisionError] when the first example could be made. *)
Theorem degenerate_arguments (fuel : nat) (r : R) :
  (caption_dict = [] -> fst (choice_perm 0 r) = [] ->
   epoch' (S fuel) r = ([], Raised IndexError))
  /\ (num_photos = 0 ->
      exists e,
        epoch' (S fuel) r = ([], Raised e)
        /\ forall ex r1,
             visit choice_one caption_dict features tokenizer max_length
               vocab_size
               (fst (choice_perm (length (photo_ids caption_dict)) r))
               (snd (choice_perm (length (photo_ids caption_dict)) r)) 0
             = Ok (ex, r1) ->
             e = ZeroDivisionError).
Proof.
  split.
  - intros Hd Hs. unfold run_epoch. rewrite inner_loop_step.
    unfold visit. rewrite Hd. simpl. rewrite Hs. reflexivity.
  - intro Hz. unfold run_epoch. rewrite inner_loop_step.
    destruct (visit choice_one caption_dict features tokenizer max_length
                vocab_size
                (fst (choice_perm (length (photo_ids caption_dict)) r))
                (snd (choice_perm (length (photo_ids caption_dict)) r)) 0)
      as [[ex r1]|e] eqn:Hv.
    + rewrite Hz. simpl. exists ZeroDivisionError. split; reflexivity.
    + exists e. split; [reflexivity | discriminate].
Qed.

End GeneratorEdges.

Lemma completed_pass_needs_witness :
  0 < length (photo_ids Scenario.captions).
Proof.
  apply (@completed_pass_needs nat nat Scenario.choice_perm
           Scenario.choice_one Scenario.captions Scenario.features
           Scenario.tokenizer 4 7 2 5 0 11
           (fst (run_epoch Scenario.choice_perm Scenario.choice_one
                   Scenario.captions Scenario.features Scenario.tokenizer
                   4 7 2 5 0))).
  - apply ScenarioFacts.draws_permutation.
  - vm_compute. reflexivity.
Defined.

(** * The caption returned by [sample_caption] *)

Module StripFacts.

Import LoaderFacts.

Lemma join_spaced (w : str) (ws : list str) :
  join (w :: ws) = w ++ spaced ws.
Proof.
  revert w. induction ws as [|w2 ws IH]; intro w.
  - simpl. rewrite app_nil_r. reflexivity.
  - change (join (w :: w2 :: ws)) with (w ++ space :: join (w2 :: ws)).
    rewrite IH. reflexivity.
Qed.

Lemma spaced_ends (ws : list str) :
  spaced ws = [] \/ exists t, spaced ws = space :: t.
Proof. destruct ws as [|w ws]; simpl; eauto. Qed.

(** *** Where [replace] finds nothing *)

Lemma replace_scan_empty (fuel : nat) (old new : str) :
  replace_scan fuel old new [] = [].
Proof. destruct fuel; reflexivity. Qed.

Lemma replace_scan_nomatch (old new rest : str) :
  forall (s : str) (fuel : nat),
    (forall a b, s = a ++ b -> b <> [] ->
                 starts_with old (b ++ rest) = false) ->
    length s <= fuel ->
    replace_scan fuel old new (s ++ rest)
    = s ++ replace_scan (fuel - length s) old new rest.
Proof.
  induction s as [|c s IH]; intros fuel Hfree Hlen.
  - simpl. rewrite Nat.sub_0_r. reflexivity.
  - destruct fuel as [|fuel]; [simpl in Hlen; lia|].
    pose proof (Hfree [] (c :: s) eq_refl ltac:(discriminate)) as Hc.
    change ((c :: s) ++ rest) with (c :: (s ++ rest)) in *.
    cbn [replace_scan]. rewrite Hc.
    change (S fuel - length (c :: s)) with (fuel - length s).
    change ((c :: s) ++ replace_scan (fuel - length s) old new rest)
      with (c :: (s ++ replace_scan (fuel - length s) old new rest)).
    f_equal. apply IH; [|simpl in Hlen; lia].
    intros a b -> Hb. apply (Hfree (c :: a) b); [reflexivity | exact Hb].
Qed.

Lemma replace_absent (old s : str) :
  old <> [] ->
  (forall a b, s = a ++ b -> b <> [] -> starts_with old (b ++ []) = false) ->
  replace old [] s = s.
Proof.
  intros Hold Hfree. destruct old as [|c old]; [congruence|].
  unfold replace. rewrite <- (app_nil_r s) at 2.
  rewrite (@replace_scan_nomatch (c :: old) [] [] s (length s) Hfree
             (le_n _)).
  rewrite replace_scan_empty. apply app_nil_r.
Qed.

Lemma replace_prefix_once (old s : str) :
  old <> [] ->
  (forall a b, s = a ++ b -> b <> [] -> starts_with old (b ++ []) = false) ->
  replace old [] (old ++ s) = s.
Proof.
  intros Hold Hfree.
  assert (Hr : replace old [] (old ++ s)
               = replace_scan (S (length (old ++ s) - 1)) old []
                   (old ++ s)).
  { destruct old as [|c old]; [congruence|]. unfold replace.
    f_equal. simpl. lia. }
  rewrite Hr, replace_scan_prefix by exact Hold.
  assert (Hlen : length s <= length (old ++ s) - 1).
  { rewrite length_app. destruct old; [congruence | simpl; lia]. }
  set (fuel := length (old ++ s) - 1) in *.
  rewrite <- (app_nil_r s) at 1.
  rewrite (@replace_scan_nomatch old [] [] s fuel Hfree Hlen).
  rewrite replace_scan_empty. apply app_nil_r.
Qed.

Lemma replace_suffix_once (old s : str) :
  old <> [] ->
  (forall a b, s = a ++ b -> b <> [] ->
               starts_with old (b ++ old) = false) ->
  replace old [] (s ++ old) = s.
Proof.
  intros Hold Hfree.
  assert (Hr : replace old [] (s ++ old)
               = replace_scan (length (s ++ old)) old [] (s ++ old)).
  { destruct old as [|c old]; [congruence | reflexivity]. }
  assert (Hlen : length s <= length (s ++ old))
    by (rewrite length_app; lia).
  assert (Hfuel : length (s ++ old) - length s = S (length old - 1)).
  { rewrite length_app. destruct old; [congruence | simpl; lia]. }
  rewrite Hr, (@replace_scan_nomatch old [] old s _ Hfree Hlen), Hfuel.
  assert (Hlast : replace_scan (S (length old - 1)) old [] (old ++ []) = [])
    by (rewrite replace_scan_prefix by exact Hold;
        apply replace_scan_empty).
  rewrite app_nil_r in Hlast. rewrite Hlast. apply app_nil_r.
Qed.

(** *** A pattern with a space meets the words only at their borders *)

Lemma match_before_space (p : str) :
  Forall (fun c => c <> space) p ->
  forall u t,
    Forall (fun c => c <> space) u ->
    t = [] \/ (exists t', t = space :: t') ->
    starts_with (p ++ [space]) (u ++ t) = true -> u = p.
Proof.
  induction 1 as [|a p Ha Hp IH]; intros u t Hu Ht H.
  - destruct u as [|c u]; [reflexivity|].
    cbn [starts_with app] in H. apply andb_true_iff in H as [H _].
    apply Ascii.eqb_eq in H. inversion Hu; subst. congruence.
  - destruct u as [|c u].
    + destruct Ht as [->|[t' ->]]; cbn [starts_with app] in H; [discriminate|].
      apply andb_true_iff in H as [H _]. apply Ascii.eqb_eq in H.
      congruence.
    + cbn [starts_with app] in H. apply andb_true_iff in H as [Hac H].
      apply Ascii.eqb_eq in Hac. subst c.
      inversion Hu; subst. f_equal. eapply IH; eassumption.
Qed.

Lemma match_in_word (q : str) :
  Forall (fun c => c <> space) q ->
  forall w t,
    t = [] \/ (exists t', t = space :: t') ->
    starts_with q (w ++ t) = true -> starts_with q w = true.
Proof.
  induction 1 as [|a q Ha Hq IH]; intros w t Ht H; [reflexivity|].
  destruct w as [|c w].
  - destruct Ht as [->|[t' ->]]; cbn [starts_with app] in H; [discriminate|].
    apply andb_true_iff in H as [H _]. apply Ascii.eqb_eq in H.
    congruence.
  - cbn [starts_with app] in H. apply andb_true_iff in H as [Hac H].
    cbn [starts_with]. rewrite Hac. eapply IH; eassumption.
Qed.

Lemma token_no_space (w : str) :
  is_token w = true -> Forall (fun c => c <> space) w.
Proof.
  intro H. apply is_token_forall in H. rewrite forallb_forall in H.
  apply Forall_forall. intros c Hc ->. specialize (H _ Hc).
  discriminate.
Qed.

Lemma ends_with_app (v p : str) : ends_with p (v ++ p) = true.
Proof.
  unfold ends_with. rewrite length_app.
  replace (length v + length p - length p) with (length v) by lia.
  rewrite skipn_app, skipn_all, Nat.sub_diag. simpl.
  rewrite str_eqb_refl.
  replace (length p <=? length v + length p) with true; [reflexivity|].
  symmetry. apply Nat.leb_le. lia.
Qed.

(** What is left of [spaced ws] from any position on: the end of a word,
    then whole words. *)
Lemma spaced_suffix (ws : list str) :
  forall a b,
    spaced ws = a ++ b ->
    exists u ws2,
      b = u ++ spaced ws2
      /\ incl ws2 ws
      /\ (u = [] \/ exists v, In (v ++ u) ws).
Proof.
  induction ws as [|w ws IH]; intros a b H.
  - simpl in H. symmetry in H. apply app_eq_nil in H as [-> ->].
    exists [], []. split; [reflexivity|].
    split; [apply incl_refl | left; reflexivity].
  - destruct a as [|c a].
    + simpl in H. subst b. exists [], (w :: ws).
      split; [reflexivity|]. split; [apply incl_refl | left; reflexivity].
    + change (spaced (w :: ws)) with (space :: w ++ spaced ws) in H.
      simpl in H. injection H as _ H.
      apply app_eq_app in H as [l [[Hw Hb]|[Ha Hs]]].
      * exists l, ws. split; [exact Hb|].
        split; [apply incl_tl, incl_refl|].
        right. exists a. left. exact Hw.
      * destruct (IH _ _ Hs) as (u & ws2 & Hb & Hincl & Hu).
        exists u, ws2. split; [exact Hb|].
        split; [apply incl_tl, Hincl|].
        destruct Hu as [->|[v Hv]]; [left; reflexivity|].
        right. exists v. right. exact Hv.
Qed.

Lemma join_suffix (ws : list str) (a b : str) :
  join ws = a ++ b ->
  exists u ws2,
    b = u ++ spaced ws2
    /\ incl ws2 ws
    /\ (u = [] \/ exists v, In (v ++ u) ws).
Proof.
  destruct ws as [|w ws].
  - simpl. intro H. symmetry in H. apply app_eq_nil in H as [-> ->].
    exists [], []. split; [reflexivity|].
    split; [apply incl_refl | left; reflexivity].
  - intro H. apply (spaced_suffix (w :: ws) (space :: a) b).
    change (spaced (w :: ws)) with (space :: (w ++ spaced ws)).
    rewrite <- join_spaced, H. reflexivity.
Qed.

Lemma no_startseq_inside (ws : list str) :
  Forall (fun w => is_token w = true
                   /\ ends_with startseq w = false) ws ->
  forall a b,
    join ws = a ++ b -> b <> [] ->
    starts_with (py "startseq ") (b ++ []) = false.
Proof.
  intros Hws a b H Hb. rewrite Forall_forall in Hws.
  destruct (join_suffix ws a b H) as (u & ws2 & -> & _ & Hu).
  rewrite app_nil_r.
  destruct (starts_with (py "startseq ") (u ++ spaced ws2)) eqn:E;
    [|reflexivity].
  exfalso.
  assert (Hfree : Forall (fun c => c <> space) u).
  { destruct Hu as [->|[v Hv]]; [constructor|].
    destruct (Hws _ Hv) as [Ht _]. apply token_no_space in Ht.
    apply Forall_app in Ht. tauto. }
  assert (Hp : u = startseq).
  { apply (@match_before_space startseq) with (t := spaced ws2).
    - repeat constructor; discriminate.
    - exact Hfree.
    - apply spaced_ends.
    - exact E. }
  destruct Hu as [->|[v Hv]]; [discriminate|].
  destruct (Hws _ Hv) as [_ He]. rewrite Hp, ends_with_app in He.
  discriminate.
Qed.

Lemma no_endseq_inside (ws : list str) (rest : str) :
  Forall (fun w => is_token w = true
                   /\ starts_with endseq w = false) ws ->
  rest = [] \/ (exists t, rest = space :: t) ->
  forall a b,
    join ws = a ++ b -> b <> [] ->
    starts_with (py " endseq") (b ++ rest) = false.
Proof.
  intros Hws Hrest a b H Hb. rewrite Forall_forall in Hws.
  destruct (join_suffix ws a b H) as (u & ws2 & -> & Hincl & Hu).
  destruct u as [|c u].
  - destruct ws2 as [|w2 ws3]; [simpl in Hb; congruence|].
    change (([] ++ spaced (w2 :: ws3)) ++ rest)
      with (space :: ((w2 ++ spaced ws3) ++ rest)).
    rewrite <- app_assoc.
    destruct (starts_with (py " endseq")
                (space :: w2 ++ spaced ws3 ++ rest)) eqn:E;
      [|reflexivity].
    exfalso.
    change (starts_with endseq (w2 ++ spaced ws3 ++ rest) = true) in E.
    apply match_in_word in E.
    + destruct (Hws w2 (Hincl _ (or_introl eq_refl))) as [_ Hn].
      congruence.
    + repeat constructor; discriminate.
    + destruct ws3 as [|w3 ws3]; [exact Hrest|].
      right. simpl. eauto.
  - destruct Hu as [Hu|[v Hv]]; [discriminate|].
    destruct (Hws _ Hv) as [Ht _]. apply token_no_space in Ht.
    apply Forall_app in Ht as [_ Ht]. inversion Ht as [|? ? Hc _]; subst.
    change (py " endseq") with (space :: endseq).
    cbn [starts_with app].
    destruct (Ascii.eqb_spec space c) as [Heq|_]; [|reflexivity].
    congruence.
Qed.

(** The two [replace] calls on "startseq", the words, and [endseq] or
    not. *)
Lemma strip_sentinels_words (ws : list str) (ended : bool) :
  ws <> [] ->
  Forall (fun w => is_token w = true
                   /\ ends_with startseq w = false
                   /\ starts_with endseq w = false) ws ->
  strip_sentinels
    (startseq ++ spaced (ws ++ (if ended then [endseq] else [])))
  = join ws.
Proof.
  intros Hne Hws.
  set (picked := ws ++ (if ended then [endseq] else [])).
  assert (Hpicked : Forall (fun w => is_token w = true
                                     /\ ends_with startseq w = false)
                           picked).
  { apply Forall_app. split.
    - eapply Forall_impl; [|exact Hws]. simpl. tauto.
    - destruct ended; repeat constructor. }
  assert (Hcap : startseq ++ spaced picked = py "startseq " ++ join picked).
  { destruct picked as [|w1 ps] eqn:E.
    - destruct ws; [congruence | discriminate].
    - rewrite join_spaced. reflexivity. }
  unfold strip_sentinels. rewrite Hcap.
  rewrite replace_prefix_once;
    [|discriminate | apply no_startseq_inside, Hpicked].
  assert (Hws' : Forall (fun w => is_token w = true
                                  /\ starts_with endseq w = false) ws).
  { eapply Forall_impl; [|exact Hws]. simpl. tauto. }
  unfold picked. destruct ended.
  - rewrite <- (join_app_last endseq Hne).
    change (join ws ++ space :: endseq) with (join ws ++ py " endseq").
    apply replace_suffix_once; [discriminate|].
    apply no_endseq_inside; [exact Hws'|]. right. eexists. reflexivity.
  - rewrite app_nil_r. apply replace_absent; [discriminate|].
    apply no_endseq_inside; [exact Hws' | left; reflexivity].
Qed.

End StripFacts.

Import StripFacts.

Section DecoderWords.

Variables Row Prob : Type.
Variable gtb : Prob -> Prob -> bool.
Variable predict : list Row -> list nat -> list (list Prob).
Variable tokenizer : Tokenizer.
Variable max_length : nat.
Variable feature : list Row.

(** The caption the loop returns is the caption it started from followed
    by the words it picked, each behind one space. *)
Lemma decode_loop_caption (fuel : nat) :
  forall (caption : str) (picked : list str) (c : str) (ws : list str),
    decode_loop gtb predict tokenizer max_length feature fuel caption picked
    = Returned (c, ws) ->
    exists new,
      ws = picked ++ new
      /\ c = caption ++ spaced new
      /\ new <> []
      /\ Forall
           (fun w => exists caption',
                next_word_of gtb predict tokenizer max_length feature
                  caption' = Ok w)
           new.
Proof.
  induction fuel as [|fuel IH]; intros caption picked c ws; [discriminate|].
  rewrite decode_loop_step.
  destruct (next_word_of gtb predict tokenizer max_length feature caption)
    as [w|e] eqn:Hn; [|discriminate].
  destruct (str_eqb w endseq
            || (max_length <=? length (split (caption ++ space :: w)))).
  - intro H; injection H as <- <-. exists [w].
    split; [reflexivity|]. split; [simpl; rewrite app_nil_r; reflexivity|].
    split; [discriminate|]. repeat constructor. eauto.
  - intro H. apply IH in H as (new & -> & -> & _ & Hnew).
    exists (w :: new).
    split; [rewrite <- app_assoc; reflexivity|].
    split; [rewrite <- app_assoc; reflexivity|].
    split; [discriminate|]. constructor; eauto.
Qed.

(** X18. When the loop of [sample_caption] picked at least one word before
    [endseq] or the length bound, and no such word ends with "startseq" or
    starts with "endseq", the caption returned is these words joined by
    single spaces: nothing of the sentinels is left and nothing else is
    removed. *)
Theorem sample_caption_joins_words (fuel : nat) (caption : str)
  (picked : list str) :
  single_word_vocabulary tokenizer ->
  decode_loop gtb predict tokenizer max_length feature fuel startseq []
  = Returned (caption, picked) ->
  caption_words picked <> [] ->
  Forall (fun w => ends_with startseq w = false
                   /\ starts_with endseq w = false)
         (caption_words picked) ->
  sample_caption gtb predict tokenizer max_length feature fuel
  = Returned (join (caption_words picked))
  /\ split (join (caption_words picked)) = caption_words picked.
Proof.
  intros Htok Hd Hne Hws.
  pose proof Hd as Hc.
  apply decode_loop_caption in Hc as (new & Hp & -> & Hnew & Hfound).
  simpl in Hp. subst new.
  assert (Htokens : Forall (fun w => is_token w = true) picked).
  { eapply Forall_impl; [|exact Hfound].
    intros w [caption' Hw]. eapply next_word_token; eassumption. }
  assert (Hwords : Forall (fun w => is_token w = true)
                          (caption_words picked)).
  { unfold caption_words.
    destruct (str_eqb (last picked []) endseq); [|exact Htokens].
    apply KerasFacts.Forall_removelast, Htokens. }
  split; [|apply split_join, Hwords].
  unfold sample_caption. rewrite Hd. f_equal.
  assert (Hall : Forall (fun w => is_token w = true
                                  /\ ends_with startseq w = false
                                  /\ starts_with endseq w = false)
                        (caption_words picked)).
  { rewrite Forall_forall in *. intros w Hw.
    split; [apply Hwords, Hw | apply Hws, Hw]. }
  unfold caption_words in *.
  destruct (str_eqb (last picked []) endseq) eqn:E.
  - apply str_eqb_eq in E.
    assert (Hp : picked = removelast picked ++ [endseq]).
    { etransitivity; [apply (app_removelast_last [] Hnew)|].
      exact (f_equal (fun w => removelast picked ++ [w]) E). }
    rewrite Hp at 1.
    apply (strip_sentinels_words true Hne Hall).
  - rewrite <- (app_nil_r picked) at 1.
    apply (strip_sentinels_words false Hne Hall).
Qed.

End DecoderWords.

Lemma sample_caption_joins_words_witness :
  sample_caption Scenario.greater
    (fun _ padded => [one_hot 7 (if last padded 0 =? 1 then 3 else 2)])
    Scenario.tokenizer 4 [1] 3
  = Returned (py "dog").
Proof.
  apply (@sample_caption_joins_words nat nat Scenario.greater
           (fun _ padded => [one_hot 7 (if last padded 0 =? 1 then 3 else 2)])
           Scenario.tokenizer 4 [1] 3 (py "startseq dog endseq")
           [py "dog"; py "endseq"]).
  - apply DecoderScenario.words_are_tokens.
  - vm_compute. reflexivity.
  - vm_compute. discriminate.
  - vm_compute. repeat constructor.
Defined.

(** * The generators of the main script *)

Module ScriptFacts.

Lemma caption_dictionary_lists (raw_caption : str) (d : dict (list str)) :
  caption_dictionary raw_caption = Ok d ->
  Forall (fun entry => snd entry <> []) d.
Proof.
  unfold caption_dictionary.
  apply (lines_loop_invariant
           (fun d => Forall (fun entry => snd entry <> []) d)).
  - intros d0 line d1 Hl Hline.
    apply caption_line_cases in Hline
      as [[_ ->]|(photo_id & caption & _ & ->)]; [exact Hl|].
    apply append_caption_lists, Hl.
  - constructor.
Qed.

Lemma mapped_lists (g : str -> str) (d : dict (list str)) :
  Forall (fun entry => snd entry <> []) d ->
  Forall (fun entry => snd entry <> [])
         (map (fun entry => (fst entry, map g (snd entry))) d).
Proof.
  intro H. apply Forall_map. eapply Forall_impl; [|exact H].
  intros [k l] Hl. simpl in *. destruct l; [congruence | discriminate].
Qed.

Lemma select_lists (V : Type) (stored d : dict (list V))
  (ids : list str) :
  Forall (fun entry => snd entry <> []) stored ->
  select stored ids = Ok d ->
  Forall (fun entry => snd entry <> []) d.
Proof.
  unfold select. intros Hs H.
  apply (select_loop_entries stored ids (d0 := [])) in H; [|constructor].
  eapply Forall_impl; [|exact H].
  intros [k l] Hl. simpl in *. apply assoc_member in Hl.
  rewrite Forall_forall in Hs. exact (Hs _ Hl).
Qed.

Lemma loaded_lists (stored cd : dict (list str)) (ids : list str)
  (wrapping : bool) :
  Forall (fun entry => snd entry <> []) stored ->
  load_captions stored ids wrapping = Ok cd ->
  Forall (fun entry => snd entry <> []) cd.
Proof.
  intros Hs H. apply load_captions_inv in H as (d & Hd & ->).
  pose proof (@select_lists _ stored d ids Hs Hd) as Hl.
  destruct wrapping; [apply mapped_lists, Hl | exact Hl].
Qed.

Lemma keys_lookup (V : Type) (k : str) (d : dict V) :
  In k (keys d) -> exists v, lookup k d = Some v /\ In (k, v) d.
Proof.
  induction d as [|[k' v'] d IH]; simpl; [tauto|].
  intro H. unfold lookup. simpl.
  destruct (str_eqb k k') eqn:E.
  - apply str_eqb_eq in E. subst k'. eauto.
  - destruct H as [H|H].
    + subst k'. rewrite LoaderFacts.str_eqb_refl in E. discriminate.
    + destruct (IH H) as (v & Hv & Hin). eauto.
Qed.

Lemma keys_length (V : Type) (stored d : dict V) (ids : list str) :
  ids <> [] -> select stored ids = Ok d ->
  0 < length (keys d) <= length ids.
Proof.
  unfold select. intros Hne H.
  edestruct select_loop_keys as [Hin Hnd]; [exact H|].
  split.
  - destruct ids as [|k ids]; [congruence|].
    assert (Hk : In k (keys d)) by (apply Hin; simpl; auto).
    destruct (keys d); [contradiction | simpl; lia].
  - apply NoDup_incl_length; [apply Hnd; constructor|].
    intros k Hk. apply Hin in Hk as [[]|Hk]. exact Hk.
Qed.

Section Passes.

Variables R Row : Type.
Variable choice_perm : nat -> R -> list nat * R.
Variable choice_one : nat -> R -> nat * R.
Variable caption_dict : dict (list str).
Variable features : dict (list Row).
Variable tokenizer : Tokenizer.
Variables max_length vocab_size num_photos : nat.

Hypothesis draws_permutation :
  forall n r, Permutation (fst (choice_perm n r)) (seq 0 n).
Hypothesis draws_in_range :
  forall n r, 0 < n -> fst (choice_one n r) < n.
Hypothesis captions_present :
  Forall (fun entry => snd entry <> []) caption_dict.
Hypothesis features_present :
  Forall (fun photo_id =>
            exists row rest, lookup photo_id features = Some (row :: rest))
         (photo_ids caption_dict).
Hypothesis max_length_positive : 1 <= max_length.
Hypothesis tokenizer_num_words : num_words tokenizer = Some vocab_size.
Hypothesis vocab_size_positive : 0 < vocab_size.

Lemma generate_dataset_total (fuel k : nat) :
  0 < num_photos -> 0 < length (photo_ids caption_dict) ->
  length (photo_ids caption_dict) <= fuel ->
  forall r,
  exists epochs r_end,
    generate_dataset choice_perm choice_one caption_dict features tokenizer
      max_length vocab_size num_photos fuel k r
    = (epochs, Returned r_end)
    /\ length epochs = k.
Proof.
  intros Hnp Hn Hf.
  induction k as [|k IH]; intro r;
    [exists [], r; split; reflexivity|].
  destruct (@run_epoch_total R Row choice_perm choice_one caption_dict
              features tokenizer max_length vocab_size num_photos
              draws_permutation draws_in_range captions_present
              features_present max_length_positive tokenizer_num_words
              vocab_size_positive fuel r Hnp Hn Hf) as (bs & r' & He).
  destruct (IH r') as (rest & r_end & Hg & Hlen).
  exists (bs :: rest), r_end. cbn [generate_dataset].
  rewrite He, Hg. simpl. split; [reflexivity | congruence].
Qed.

End Passes.

End ScriptFacts.

Import ScriptFacts.

(** X19. The generators of the main script raise nothing: with the stored
    captions made by [caption_dictionary] and [cleaning], captions and
    features loaded for the same non-empty id list, every stored feature
    array non-empty, and the tokenizer, [vocab_size] and [max_length]
    computed from the wrapped training captions, every pass of
    [generate_dataset] reaches its [break], whatever the captions
    contain. *)
Theorem script_generators_run (R Row : Type)
  (choice_perm : nat -> R -> list nat * R)
  (choice_one : nat -> R -> nat * R)
  (raw_caption : str) (d0 : dict (list str))
  (stored_features : dict (list Row))
  (train_ids ids : list str) (wrapping : bool)
  (cd_train cd : dict (list str)) (fd : dict (list Row))
  (min_freq : nat) (words : list str) (vocab_size : nat) (tok : Tokenizer)
  (m num_photos fuel k : nat) (r : R) :
  (forall n r, Permutation (fst (choice_perm n r)) (seq 0 n)) ->
  (forall n r, 0 < n -> fst (choice_one n r) < n) ->
  caption_dictionary raw_caption = Ok d0 ->
  Forall (fun entry => snd entry <> []) stored_features ->
  load_captions (cleaning d0) train_ids true = Ok cd_train ->
  build_vocabulary cd_train min_freq = (words, vocab_size, tok) ->
  script_max_length cd_train = Ok (Z.of_nat m) ->
  load_captions (cleaning d0) ids wrapping = Ok cd ->
  load_features stored_features ids = Ok fd ->
  ids <> [] -> 0 < num_photos -> length ids <= fuel ->
  exists epochs r_end,
    generate_dataset choice_perm choice_one cd fd tok m vocab_size
      num_photos fuel k r
    = (epochs, Returned r_end)
    /\ length epochs = k.
Proof.
  intros Hperm Hrange Hraw Hstored Htrain Hvoc Hmax Hcd Hfd Hids Hnp Hfuel.
  assert (Hclean : Forall (fun entry => snd entry <> []) (cleaning d0)).
  { rewrite cleaning_map. apply mapped_lists.
    eapply caption_dictionary_lists, Hraw. }
  pose proof (@loaded_lists (cleaning d0) cd ids wrapping Hclean Hcd)
    as Hlists.
  pose proof Hcd as Hinv.
  apply load_captions_inv in Hinv as (d & Hd & Hcdd).
  pose proof (@load_captions_keys wrapping cd d Hcdd) as Hk.
  assert (Hsame : keys d = keys fd)
    by exact (@select_loop_same_keys _ _ (cleaning d0) stored_features
                ids [] [] d fd eq_refl Hd Hfd).
  destruct (@keys_length _ (cleaning d0) d ids Hids Hd) as [Hpos Hle].
  assert (Hm : 1 <= m).
  { assert (Hne : caption_to_list cd_train <> []).
    { intro E. unfold script_max_length in Hmax. rewrite E in Hmax.
      discriminate. }
    destruct (script_max_length_value _ _ Htrain Hne)
      as (m' & Hm' & Hp & _).
    rewrite Hm' in Hmax. injection Hmax as Hmm.
    apply Nat2Z.inj in Hmm. subst m'. exact Hp. }
  unfold build_vocabulary in Hvoc. injection Hvoc as _ Hv Ht.
  apply generate_dataset_total.
  - exact Hperm.
  - exact Hrange.
  - exact Hlists.
  - unfold photo_ids. rewrite Hk, Hsame.
    apply Forall_forall. intros photo_id Hin.
    apply keys_lookup in Hin as (v & Hv' & Hmem).
    pose proof (@select_lists _ stored_features fd ids Hstored Hfd)
      as Hrows.
    rewrite Forall_forall in Hrows. specialize (Hrows _ Hmem).
    simpl in Hrows. destruct v as [|row rest]; [congruence|]. eauto.
  - exact Hm.
  - rewrite <- Ht, <- Hv. reflexivity.
  - rewrite <- Hv. lia.
  - exact Hnp.
  - unfold photo_ids. rewrite Hk. exact Hpos.
  - unfold photo_ids. rewrite Hk. lia.
Qed.

Lemma script_generators_run_witness :
  exists epochs r_end,
    generate_dataset Scenario.choice_perm Scenario.choice_one
      Pipeline.train_captions Pipeline.train_features Pipeline.tokenizer
      4 Pipeline.vocab_size 2 2 3 0
    = (epochs, Returned r_end)
    /\ length epochs = 3.
Proof.
  apply (@script_generators_run nat nat Scenario.choice_perm
           Scenario.choice_one Pipeline.raw_caption
           (match caption_dictionary Pipeline.raw_caption with
            | Ok d => d
            | Raise _ => []
            end)
           Pipeline.stored_features Pipeline.train_ids Pipeline.train_ids
           true Pipeline.train_captions Pipeline.train_captions
           Pipeline.train_features 1
           (fst (fst (build_vocabulary Pipeline.train_captions 1)))
           Pipeline.vocab_size Pipeline.tokenizer 4 2 2 3 0).
  - apply ScenarioFacts.draws_permutation.
  - apply ScenarioFacts.draws_in_range.
  - vm_compute. reflexivity.
  - repeat constructor; discriminate.
  - vm_compute. reflexivity.
  - vm_compute. reflexivity.
  - vm_compute. reflexivity.
  - vm_compute. reflexivity.
  - vm_compute. reflexivity.
  - vm_compute. discriminate.
  - lia.
  - vm_compute. lia.
Defined.
